(** * open_agb_firm: the file browser of [source/arm11/filebrowser.c]

    A shallow embedding of the directory list ([DirList]), the directory
    scanner ([scanDir]), the path buffer ([pathAppend] and the parent
    truncation of [browseFiles]) and the cursor/window arithmetic of the
    navigation loop, followed by the properties established about them. *)

From Stdlib Require Import ZArith Lia List Ascii String Sorted Permutation.
From stdpp Require Import base decidable option list sorting gmap strings.

Local Open Scope Z_scope.

(** ** Machine integers

    [u32] and [s32] are the two 32-bit types of [types.h]; arithmetic is done
    in [Z] and brought back into range by the conversion the C code performs
    (wrap-around, two's complement). *)

Definition u32 (z : Z) : Z := z mod 2 ^ 32.
Definition s32 (z : Z) : Z := (z + 2 ^ 31) mod 2 ^ 32 - 2 ^ 31.

Definition DIR_READ_BLOCKS : Z := 10.
Definition SCREEN_ROWS : Z := 24.
Definition DLIST_GROW_SIZE : Z := 128.

(** ** Navigation: lines 249-279 of [browseFiles]

    The key masks come from [arm11/drivers/hid.h], which this development
    does not include; they are taken as a parameter. *)

Record KeyMasks := {
  KEY_A : Z;
  KEY_B : Z;
  KEY_DRIGHT : Z;
  KEY_DLEFT : Z;
  KEY_DUP : Z;
  KEY_DDOWN : Z
}.

(** [kDown & mask] as a C truth value. *)
Definition pressed (kDown mask : Z) : bool := negb (Z.land kDown mask =? 0).

Record NavState := { cursorPos : Z; windowPos : Z }.

Section Navigation.
Variable km : KeyMasks.

(** Lines 250-265: the movement arithmetic. [cursorPos] is an [s32], [num]
    a [u32]; [SCREEN_ROWS] is an unsigned constant, so [+=] and [-=] with it
    are computed in [u32] and converted back. *)
Definition moveCursor (kDown num cursorPos : Z) : Z :=
  if num =? 0 then cursorPos
  else
    let c := cursorPos in
    let c :=
      if pressed kDown (KEY_DRIGHT km) then
        let c := s32 (u32 c + SCREEN_ROWS) in
        if u32 c >? num then s32 (u32 (num - 1)) else c
      else c in
    let c :=
      if pressed kDown (KEY_DLEFT km) then
        let c := s32 (u32 c - SCREEN_ROWS) in
        if c <? -1 then 0 else c
      else c in
    let c := if pressed kDown (KEY_DUP km) then s32 (c - 1) else c in
    let c := if pressed kDown (KEY_DDOWN km) then s32 (c + 1) else c in
    c.

(** Lines 267-268: the wrap, applied on every iteration. *)
Definition wrapCursor (num cursorPos : Z) : Z :=
  let c := cursorPos in
  let c := if c <? 0 then s32 (u32 (num - 1)) else c in
  let c := if u32 c >? u32 (num - 1) then 0 else c in
  c.

(** Lines 270-279: the window follows the cursor. The second component
    tells whether [showDirList] was called. *)
Definition scrollWindow (cursorPos windowPos : Z) : Z * bool :=
  let '(w, redraw) :=
    if u32 cursorPos <? windowPos then (u32 cursorPos, true)
    else (windowPos, false) in
  if u32 cursorPos >=? u32 (w + SCREEN_ROWS)
  then (u32 (u32 cursorPos - (SCREEN_ROWS - 1)), true)
  else (w, redraw).

(** One pass over lines 249-279 for the keys [kDown] and a list of [num]
    entries. *)
Definition navStep (kDown num : Z) (st : NavState) : NavState :=
  let c := wrapCursor num (moveCursor kDown num (cursorPos st)) in
  {| cursorPos := c; windowPos := fst (scrollWindow c (windowPos st)) |}.
End Navigation.

(** *** Events

    An event of the navigation table is a [kDown] in which exactly one of
    the four direction keys is down. *)

(** The direction keys that are down in [kDown]: right, left, up, down. *)
Definition directions (km : KeyMasks) (kDown : Z) : bool * bool * bool * bool :=
  (pressed kDown (KEY_DRIGHT km), pressed kDown (KEY_DLEFT km),
   pressed kDown (KEY_DUP km), pressed kDown (KEY_DDOWN km)).

Definition PageForward km kDown := directions km kDown = (true, false, false, false).
Definition PageBackward km kDown := directions km kDown = (false, true, false, false).
Definition StepUp km kDown := directions km kDown = (false, false, true, false).
Definition StepDown km kDown := directions km kDown = (false, false, false, true).

(** The masks of a pad on which the direction keys are bits 4 to 7. *)
Definition pad : KeyMasks :=
  {| KEY_A := 1; KEY_B := 2; KEY_DRIGHT := 16; KEY_DLEFT := 32;
     KEY_DUP := 64; KEY_DDOWN := 128 |}.

(** ** C strings

    A string is the list of its characters before the terminating NUL, so a
    well-formed one holds no NUL itself. Characters compare as
    [unsigned char]. *)

Abbreviation cstring := (list ascii).

Definition cstr (s : string) : cstring := list_ascii_of_string s.
Definition uchar (c : ascii) : Z := Z.of_N (N_of_ascii c).
Definition NUL : ascii := "000"%char.
Definition cstring_wf (s : cstring) : Prop := NUL ∉ s.

Global Instance cstring_wf_dec s : Decision (cstring_wf s).
Proof. unfold cstring_wf. apply _. Defined.

Definition strlen (s : cstring) : Z := Z.of_nat (length s).

(** [strcmp] of libc: the difference of the first pair of differing
    characters, the end of a string reading as NUL. *)
Fixpoint strcmp (a b : cstring) : Z :=
  match a, b with
  | [], [] => 0
  | [], y :: _ => 0 - uchar y
  | x :: _, [] => uchar x - 0
  | x :: a', y :: b' =>
      if uchar x =? uchar y then strcmp a' b' else uchar x - uchar y
  end.

(** ** Undefined behaviour

    What a piece of code can come to: a value, or behaviour the C standard
    leaves undefined. *)
Inductive fault :=
  | NullDeref          (* access through a NULL pointer *)
  | UseAfterFree       (* access to or release of a block that is not live *)
  | OutOfBounds        (* access outside the object *)
  | UninitRead.        (* a slot read before anything was stored in it *)

Inductive result (A : Type) :=
  | Value (a : A)
  | Undefined (f : fault).
Arguments Value {A} a.
Arguments Undefined {A} f.

(** ** Path buffer *)

(** [pathAppend], lines 192-214. [src] holds a string in a [malloc]ed buffer
    whose recorded capacity is [srcSize]; [realloc_ok] says whether [realloc]
    succeeds should it be called. The result is [None] for a NULL return
    (after [src] was freed), otherwise the buffer's string and its recorded
    capacity. The three pointers are taken non-NULL. *)
Definition pathAppend (realloc_ok : bool) (src : cstring) (srcSize : Z)
    (dst : cstring) : result (option (cstring * Z)) :=
  let srcLen := strlen src in
  let dstLen := strlen dst in
  match last src with
  | None => Undefined OutOfBounds          (* src[srcLen - 1] with srcLen = 0 *)
  | Some c =>
      let addSlash := negb (bool_decide (c = "/"%char)) in
      let newLen := srcLen + dstLen + (if addSlash then 2 else 1) in
      let grown := newLen >=? srcSize in
      if grown && negb realloc_ok then Value None
      else
        let srcSize' := if grown then newLen else srcSize in
        let src' := if addSlash then src ++ ["/"%char] else src in
        Value (Some (src' ++ dst, srcSize'))
  end.

(** The backward scan of line 320 (pre-decrement the pointer, stop at a
    separator): [p] is the index the pointer stands at; the result is the
    index of the separator found, or nothing when the pointer runs off the
    front of the buffer. *)
Fixpoint scanBack (curDir : cstring) (p : nat) : option nat :=
  match p with
  | O => None
  | S p' =>
      if bool_decide (curDir !! p' = Some "/"%char) then Some p'
      else scanBack curDir p'
  end.

(** Lines 319-322 of [browseFiles]: cut [curDir] back to its parent. *)
Definition truncateToParent (curDir : cstring) : result cstring :=
  match scanBack curDir (length curDir) with
  | None => Undefined OutOfBounds
  | Some O => Undefined OutOfBounds          (* reads curDir[-1] *)
  | Some (S j) =>
      if bool_decide (curDir !! j = Some ":"%char)
      then Value (take (S (S j)) curDir)
      else Value (take (S j) curDir)
  end.

(** ** The FCRAM heap

    Addresses are numbers, [0] is NULL. A block is what [fcramAlloc] handed
    out and [fcramFree] has not yet taken back; freed addresses are never
    handed out again, so that a stale pointer stays recognisable. *)

Record DirEntry := { type : Z; name : N }.

(** [entries] holds the slots written so far, from index 0 on; the slots
    behind them, up to [capacity], are allocated but hold nothing yet. *)
Record DirList := { capacity : Z; size : Z; entries : list DirEntry }.

Inductive block :=
  | Raw (junk : Z)        (* fresh from the allocator; [junk] is what a read finds *)
  | Chars (s : cstring)   (* a character buffer holding a string *)
  | Dlist (l : DirList).  (* the header and flexible array of a DirList *)

Record mem := {
  heap : gmap N block;    (* the live blocks *)
  brk : N;                (* the highest address handed out so far *)
  requests : nat          (* allocation requests made so far *)
}.

Definition mem0 : mem := {| heap := ∅; brk := 0%N; requests := O |}.

(** Stateful code: a function of the memory that comes to a value or to
    undefined behaviour, and leaves a memory behind either way. *)
Definition M (A : Type) : Type := mem → result A * mem.

Definition ret {A} (a : A) : M A := λ m, (Value a, m).
Definition crash {A} (f : fault) : M A := λ m, (Undefined f, m).
Definition bind {A B} (c : M A) (k : A → M B) : M B :=
  λ m, match c m with
       | (Value a, m') => k a m'
       | (Undefined f, m') => (Undefined f, m')
       end.

Notation "x <- c ;; k" := (bind c (λ x, k))
  (at level 100, c at next level, right associativity).
Notation "c ;;; k" := (bind c (λ _, k))
  (at level 100, right associativity).

Definition isNull (p : N) : bool := (p =? 0)%N.

Definition putBlock (p : N) (b : block) (m : mem) : mem :=
  {| heap := <[p := b]> (heap m); brk := brk m; requests := requests m |}.
Definition dropBlock (p : N) (m : mem) : mem :=
  {| heap := delete p (heap m); brk := brk m; requests := requests m |}.
Definition handOut (p : N) (m : mem) : mem :=
  {| heap := heap m; brk := p; requests := requests m |}.
Definition asked (m : mem) : mem :=
  {| heap := heap m; brk := brk m; requests := S (requests m) |}.

Section Allocator.
(** Modelled from the spec: any allocation may be denied. Whether the
    [k]-th request to [fcramAlloc] is granted is not decided by this file
    (the allocator behind [arm11/allocator/fcram.h] is not included):
    [fcram k] is [None] when it is denied, and otherwise tells what the
    memory handed out happens to contain. The number of bytes asked for
    plays no part. *)
Variable fcram : nat → option Z.

Definition fcramAlloc : M N := λ m,
  match fcram (requests m) with
  | None => (Value 0%N, asked m)
  | Some junk =>
      let p := N.succ (brk m) in
      (Value p, asked (handOut p (putBlock p (Raw junk) m)))
  end.

(** Releasing NULL does nothing; releasing what is not live is an error. *)
Definition fcramFree (p : N) : M unit := λ m,
  if isNull p then (Value tt, m)
  else match heap m !! p with
       | Some _ => (Value tt, dropBlock p m)
       | None => (Undefined UseAfterFree, m)
       end.

Definition load (p : N) : M block := λ m,
  if isNull p then (Undefined NullDeref, m)
  else match heap m !! p with
       | Some b => (Value b, m)
       | None => (Undefined UseAfterFree, m)
       end.

Definition store (p : N) (b : block) : M unit := λ m,
  if isNull p then (Undefined NullDeref, m)
  else match heap m !! p with
       | Some _ => (Value tt, putBlock p b m)
       | None => (Undefined UseAfterFree, m)
       end.

(** A block read as a [DirList]: in a fresh block both header words hold
    whatever the memory held, and no slot has been written. *)
Definition loadList (p : N) : M DirList :=
  b <- load p ;;
  match b with
  | Dlist l => ret l
  | Raw junk =>
      ret {| capacity := u32 junk; size := u32 junk; entries := [] |}
  | Chars _ => crash OutOfBounds
  end.

Definition storeList (p : N) (l : DirList) : M unit := store p (Dlist l).

Definition setCapacity (p : N) (v : Z) : M unit :=
  l <- loadList p ;;
  storeList p {| capacity := v; size := size l; entries := entries l |}.

Definition setSize (p : N) (v : Z) : M unit :=
  l <- loadList p ;;
  storeList p {| capacity := capacity l; size := v; entries := entries l |}.

(** ** DirList: lines 53-85 *)

Definition dlistNew : M N :=
  dlist <- fcramAlloc ;;
  if isNull dlist then ret 0%N
  else
    setCapacity dlist DLIST_GROW_SIZE ;;;
    setSize dlist 0 ;;;
    ret dlist.

(** The loop of [dlistFree]: [i] runs up to [dlist->size] over the slots. *)
Fixpoint freeNames (i sz : Z) (slots : list DirEntry) : M unit :=
  if i <? sz then
    match slots with
    | [] => crash UninitRead
    | e :: slots' => fcramFree (name e) ;;; freeNames (i + 1) sz slots'
    end
  else ret tt.

Definition dlistFree (dlist : N) : M unit :=
  l <- loadList dlist ;;
  freeNames 0 (size l) (entries l) ;;;
  fcramFree dlist.

(** The first [n] slots, as [memcpy] copies them. *)
Fixpoint firstSlots (n : Z) (slots : list DirEntry) : list DirEntry :=
  match slots with
  | [] => []
  | e :: slots' => if 0 <? n then e :: firstSlots (n - 1) slots' else []
  end.

Definition dlistGrow (dlist : N) : M N :=
  old <- loadList dlist ;;
  let newCapacity := u32 (capacity old + DLIST_GROW_SIZE) in
  newList <- fcramAlloc ;;
  if isNull newList then
    fcramFree dlist ;;;
    ret 0%N
  else
    setCapacity newList newCapacity ;;;
    old <- loadList dlist ;;
    new <- loadList newList ;;
    storeList newList
      {| capacity := capacity new; size := size new;
         entries := firstSlots (size old) (entries old) |} ;;;
    fcramFree dlist ;;;
    ret newList.
End Allocator.

(** ** The directory-read service

    [fs.h] and the [Result] codes of [error_codes.h] are headers this
    development does not include. A directory answers [fOpenDir] with a code
    and each [fReadDir] with a code and a batch of entries; once its answers
    are used up it reports an empty batch, the end of the directory. *)

Inductive Result :=
  | RES_OK
  | RES_OUT_OF_MEM
  | RES_INVALID_ARG
  | RES_FS (code : Z).      (* any other code the file system reports *)

Global Instance Result_eq_dec : EqDecision Result.
Proof. solve_decision. Defined.

Record FILINFO := { fattrib : Z; fname : cstring }.

(** Modelled from the spec: the read service tells for each entry whether it
    is a directory; in the FatFs header that is the attribute bit
    [AM_DIR], tested on line 131. *)
Definition AM_DIR : Z := 16.

Record DirSvc := {
  open_result : Result;
  read_results : list (Result * list FILINFO)
}.

(** Modelled from the spec: the read service yields entries in bounded
    batches. [fReadDir(dh, fis, num, &read)] stores at most [num] entries. *)
Definition fReadDir (answer : Result * list FILINFO) (num : Z)
    : Result * list FILINFO :=
  (fst answer, take (Z.to_nat num) (snd answer)).

Definition ENTRY_FILE : Z := 0.
Definition ENTRY_DIRECTORY : Z := 1.

(** Line 131. *)
Definition entTypeOf (fi : FILINFO) : Z :=
  if Z.land (fattrib fi) AM_DIR =? 0 then ENTRY_FILE else ENTRY_DIRECTORY.

(** Lines 133-138: whether the loop [continue]s past the entry. *)
Definition skipped (filter : cstring) (fi : FILINFO) : bool :=
  let entType := entTypeOf fi in
  let nameLen := strlen (fname fi) in
  let filterLen := strlen filter in
  if entType =? ENTRY_FILE then
    (nameLen <=? filterLen)
    || negb (strcmp filter (drop (Z.to_nat (nameLen - filterLen)) (fname fi)) =? 0)
    || bool_decide (head (fname fi) = Some "."%char)
  else false.

(** Modelled from the spec: every entry owns a copy of its name.
    [safeStrcpy] comes from [util.h], which this development does not
    include; it is taken as a copy that stores at most [num - 1] characters
    and the terminator. *)
Definition safeStrcpy (src : cstring) (num : Z) : cstring :=
  take (Z.to_nat (num - 1)) src.

(** ** Sorting: [dlistCompare], lines 87-107, and libc's [qsort] *)

Definition nameAt (h : gmap N block) (p : N) : cstring :=
  match h !! p with
  | Some (Chars s) => s
  | _ => []
  end.

Definition dlistCompare (h : gmap N block) (entA entB : DirEntry) : Z :=
  if negb (type entA =? type entB) then type entB - type entA
  else strcmp (nameAt h (name entA)) (nameAt h (name entB)).

Definition isChars (h : gmap N block) (p : N) : bool :=
  match h !! p with
  | Some (Chars _) => true
  | _ => false
  end.

(** [compar] does not put [a] after [b]. *)
Definition inOrder (compar : DirEntry → DirEntry → Z) : relation DirEntry :=
  λ a b, compar a b ≤ 0.

Global Instance inOrder_dec compar : RelDecision (inOrder compar).
Proof. intros a b. unfold inOrder. apply _. Defined.

(** [qsort(base, nmemb, size, compar)]: the first [nmemb] slots come out in
    an order in which [compar] never finds a slot above its successor.
    Which sorting procedure libc uses is not observable here; a merge sort
    stands for it. *)
Definition qsort (compar : DirEntry → DirEntry → Z) (base : list DirEntry)
    (nmemb : Z) : list DirEntry :=
  merge_sort (inOrder compar) (firstSlots nmemb base)
  ++ drop (length (firstSlots nmemb base)) base.

(** ** [scanDir], lines 109-175 *)

(** How the body of the [for] loop is left: on to the next entry, or to the
    label [bail]. Both carry the local [dList]. *)
Inductive flow :=
  | Continue (dList : N) (numEntries : Z)
  | GotoBail (res : Result) (dList : N).

(** How the [do ... while] loop is left: through its end or a [break], or
    to the label [bail]. *)
Inductive loopExit :=
  | LoopEnd (res : Result) (dList : N)
  | LoopBail (res : Result) (dList : N).

Section Scanner.
Variable fcram : nat → option Z.

(** [dList->entries[i].name = p] and [dList->entries[i].type = t]. *)
Definition setEntryName (dList : N) (i : Z) (p : N) : M unit :=
  l <- loadList dList ;;
  if capacity l <=? i then crash OutOfBounds
  else
    match entries l !! Z.to_nat i with
    | Some e =>
        storeList dList
          {| capacity := capacity l; size := size l;
             entries := <[Z.to_nat i := {| type := type e; name := p |}]>
                          (entries l) |}
    | None =>
        if i =? Z.of_nat (length (entries l)) then
          (* a slot written for the first time: its type byte is whatever
             the memory held *)
          storeList dList
            {| capacity := capacity l; size := size l;
               entries := entries l ++ [{| type := 0; name := p |}] |}
        else crash OutOfBounds
    end.

Definition setEntryType (dList : N) (i : Z) (t : Z) : M unit :=
  l <- loadList dList ;;
  if capacity l <=? i then crash OutOfBounds
  else
    match entries l !! Z.to_nat i with
    | Some e =>
        storeList dList
          {| capacity := capacity l; size := size l;
             entries := <[Z.to_nat i := {| type := t; name := name e |}]>
                          (entries l) |}
    | None => crash OutOfBounds
    end.

(** Lines 148-156: the entry [fis[i]] goes into slot [numEntries]. *)
Definition appendEntry (fi : FILINFO) (dList : N) (numEntries : Z) : M flow :=
  let entType := entTypeOf fi in
  let nameLen := strlen (fname fi) in
  p <- fcramAlloc fcram ;;
  setEntryName dList numEntries p ;;;
  if isNull p then ret (GotoBail RES_OUT_OF_MEM dList)
  else
    store p (Chars (safeStrcpy (fname fi) (nameLen + 1))) ;;;
    setEntryType dList numEntries entType ;;;
    let numEntries := u32 (numEntries + 1) in
    setSize dList numEntries ;;;
    ret (Continue dList numEntries).

(** Lines 131-156: the body of the [for] loop for [fis[i]]. *)
Definition scanEntry (filter : cstring) (fi : FILINFO) (dList : N)
    (numEntries : Z) : M flow :=
  if skipped filter fi then ret (Continue dList numEntries)
  else
    l <- loadList dList ;;
    dList <- (if size l =? capacity l then dlistGrow fcram dList
              else ret dList) ;;
    if isNull dList then ret (GotoBail RES_OUT_OF_MEM dList)
    else appendEntry fi dList numEntries.

(** Lines 129-157: the [for] loop over the [read] entries of one batch. *)
Fixpoint scanBatch (filter : cstring) (fis : list FILINFO) (dList : N)
    (numEntries : Z) : M flow :=
  match fis with
  | [] => ret (Continue dList numEntries)
  | fi :: fis' =>
      r <- scanEntry filter fi dList numEntries ;;
      match r with
      | Continue dList numEntries => scanBatch filter fis' dList numEntries
      | GotoBail res dList => ret (GotoBail res dList)
      end
  end.

(** Lines 125-158: the [do ... while(read != 0)] loop. *)
Fixpoint readLoop (filter : cstring) (answers : list (Result * list FILINFO))
    (dList : N) (numEntries : Z) : M loopExit :=
  match answers with
  | [] => ret (LoopEnd RES_OK dList)
  | answer :: answers' =>
      let '(res, fis) := fReadDir answer DIR_READ_BLOCKS in
      if negb (bool_decide (res = RES_OK)) then ret (LoopEnd res dList)
      else
        r <- scanBatch filter fis dList numEntries ;;
        match r with
        | GotoBail res dList => ret (LoopBail res dList)
        | Continue dList numEntries =>
            if (length fis =? 0)%nat then ret (LoopEnd res dList)
            else readLoop filter answers' dList numEntries
        end
  end.

(** Line 165, on the block [dList] points to. [qsort] reads the first
    [dList->size] slots and, when there are two or more, the names they
    point to. *)
Definition sortList (dList : N) : M unit := λ m,
  (l <- loadList dList ;;
   let read := firstSlots (size l) (entries l) in
   if Z.of_nat (length (entries l)) <? size l then crash UninitRead
   else if (2 <=? size l) && negb (forallb (λ e, isChars (heap m) (name e)) read)
   then crash UseAfterFree
   else
     storeList dList
       {| capacity := capacity l; size := size l;
          entries := qsort (dlistCompare (heap m)) (entries l) (size l) |}) m.

(** [dListOut] is [None] for a NULL pointer and otherwise holds what the
    caller's slot contains; the result pairs the code returned with the
    slot's content afterwards. Line 112 names a variable [dlistOut] that
    is declared nowhere; it is read as the parameter [dListOut]. [fs] gives
    the directory found at a path; [fCloseDir] has no effect on the
    memory. *)
Definition scanDir (fs : cstring → DirSvc) (path filter : cstring)
    (dListOut : option N) : M (Result * option N) :=
  match dListOut with
  | None => ret (RES_INVALID_ARG, None)
  | Some old =>
      (if negb (isNull old) then fcramFree old else ret tt) ;;;
      fis <- fcramAlloc fcram ;;
      if isNull fis then ret (RES_OUT_OF_MEM, Some old)
      else
        dList <- dlistNew fcram ;;
        if isNull dList then ret (RES_OUT_OF_MEM, Some old)
        else
          let dh := fs path in
          exit <- (if bool_decide (open_result dh = RES_OK)
                   then readLoop filter (read_results dh) dList 0
                   else ret (LoopEnd (open_result dh) dList)) ;;
          match exit with
          | LoopEnd res dList =>
              fcramFree fis ;;;
              sortList dList ;;;
              ret (res, Some dList)
          | LoopBail res dList =>
              fcramFree fis ;;;
              dlistFree dList ;;;
              ret (res, Some old)
          end
  end.
End Scanner.

(** Lines 332-336 of [browseFiles]: the list is released on the way out. *)
Definition browseFiles_end (dList : N) : M unit :=
  if negb (isNull dList) then dlistFree dList else ret tt.

(** ** What a scan has to deliver *)

(** The entries a scan is served: the batches up to the first empty one or
    the first error. *)
Fixpoint listing (answers : list (Result * list FILINFO)) : list FILINFO :=
  match answers with
  | [] => []
  | answer :: answers' =>
      let '(res, fis) := fReadDir answer DIR_READ_BLOCKS in
      if negb (bool_decide (res = RES_OK)) then []
      else match fis with
           | [] => []
           | _ => fis ++ listing answers'
           end
  end.

(** The served entries the loop does not [continue] past. *)
Definition kept (filter : cstring) (fi : FILINFO) : bool :=
  negb (skipped filter fi).

(** Kind and name of a served entry, and of a slot of a list in the heap. *)
Definition fileView (fi : FILINFO) : Z * cstring := (entTypeOf fi, fname fi).
Definition view (h : gmap N block) (e : DirEntry) : Z * cstring :=
  (type e, nameAt h (name e)).

(** The entries of a list, as [showDirList] walks them: slots 0 to
    [size - 1]. *)
Definition listed (h : gmap N block) (l : DirList) : list (Z * cstring) :=
  view h <$> firstSlots (size l) (entries l).

(** The order of [dlistCompare], on kinds and names. *)
Definition viewLe (a b : Z * cstring) : Prop :=
  (if negb (a.1 =? b.1) then b.1 - a.1 else strcmp a.2 b.2) ≤ 0.

(** Byte-wise lexicographic order of names. *)
Fixpoint bytes_le (a b : cstring) : Prop :=
  match a, b with
  | [], _ => True
  | _ :: _, [] => False
  | x :: a', y :: b' => uchar x < uchar y ∨ (x = y ∧ bytes_le a' b')
  end.

(** ** Sample inputs *)

Definition entry (attrib : Z) (s : string) : FILINFO :=
  {| fattrib := attrib; fname := cstr s |}.

(** A directory with two sub-directories, two ROMs and three files the
    filter ".gba" keeps out, served in one batch. *)
Definition romDir : DirSvc :=
  {| open_result := RES_OK;
     read_results :=
       [(RES_OK, [entry 0 "b.gba"; entry 16 "saves"; entry 0 "notes.txt";
                  entry 0 ".hidden.gba"; entry 0 "a.gba"; entry 16 "cheats";
                  entry 0 ".gba"]);
        (RES_OK, [])] |}.

(** An allocator that grants every request, handing out zeroed memory. *)
Definition generous : nat → option Z := λ _, Some 0.

(** A directory of 130 sub-directories, served ten at a time: two entries
    more than a fresh list has room for. *)
Definition crowdedDir : DirSvc :=
  {| open_result := RES_OK;
     read_results := replicate 13 (RES_OK, replicate 10 (entry 16 "d")) |}.

(** An allocator that denies request number [k] and grants all others,
    handing out memory whose words read [junk]. *)
Definition denyAt (k : nat) (junk : Z) : nat → option Z :=
  λ i, if (i =? k)%nat then None else Some junk.

(** ** Counting what is live *)

Definition isName (b : block) : bool :=
  match b with
  | Chars _ => true
  | _ => false
  end.

Definition listAt (m : mem) (p : N) : option DirList :=
  match heap m !! p with
  | Some (Dlist l) => Some l
  | _ => None
  end.

Definition liveBlocks (m : mem) : nat := base.size (heap m).
Definition liveNames (m : mem) : nat :=
  length (List.filter (λ pb, isName pb.2) (map_to_list (heap m))).

(** Kinds never go up along a list in the order of [dlistCompare]. *)
Definition kindGe (a b : Z * cstring) : Prop := b.1 ≤ a.1.

(** ** The invariant of the scan loop

    While a scan is under way, [dList] points to a list whose slots are all
    written, each naming a live copy of the name it was made from; [vs] are
    the kinds and names put in so far, [lo] the address of the read buffer,
    below everything the scan allocated after it. *)

Definition tracks (h : gmap N block) (e : DirEntry) (v : Z * cstring) : Prop :=
  type e = v.1 ∧ h !! name e = Some (Chars v.2).

Record scanning (lo : N) (m : mem) (dList : N) (n : Z)
    (vs : list (Z * cstring)) (l : DirList) : Prop := {
  sc_block : heap m !! dList = Some (Dlist l);
  sc_dList : (lo < dList ≤ brk m)%N;
  sc_len : Z.of_nat (length (entries l)) = n;
  sc_cap : n ≤ capacity l ≤ n + DLIST_GROW_SIZE;
  sc_names : Forall2 (tracks (heap m)) (entries l) vs;
  sc_addr : Forall (λ e, (lo < name e ≤ brk m)%N ∧ name e ≠ dList) (entries l)
}.

(** * The rest of [filebrowser.c] and [open_agb_firm.c] *)

(** ** Configuration and save paths: [open_agb_firm.c], lines 238-281 *)

(** A [malloc]ed character buffer: the string it holds and the number of
    bytes it was allocated with. *)
Record buffer := { content : cstring; room : Z }.

(** [strcpy(buf, s)] and [strcat(buf, s)], which must find room for the
    string and its terminator. *)
Definition bufCopy (buf : buffer) (s : cstring) : result buffer :=
  if room buf <? strlen s + 1 then Undefined OutOfBounds
  else Value {| content := s; room := room buf |}.

Definition bufCat (buf : buffer) (s : cstring) : result buffer :=
  if room buf <? strlen (content buf) + strlen s + 1 then Undefined OutOfBounds
  else Value {| content := content buf ++ s; room := room buf |}.

(** [strcpy(p + strlen(p) - 4, ext)], the way both functions change an
    extension: the last four characters make way for [ext]. *)
Definition replaceTail (buf : buffer) (ext : cstring) : result buffer :=
  let len := strlen (content buf) in
  if len <? 4 then Undefined OutOfBounds
  else if room buf <? len - 4 + strlen ext + 1 then Undefined OutOfBounds
  else
    Value {| content := take (Z.to_nat (len - 4)) (content buf) ++ ext;
             room := room buf |}.

Definition bindR {A B} (r : result A) (k : A → result B) : result B :=
  match r with
  | Value a => k a
  | Undefined f => Undefined f
  end.

(** [rom2GameCfgPath], lines 238-265. [useSavesFolder] is the field of
    [g_oafConfig]; the macro [OAF_SAVE_DIR] comes from a header this
    development does not include and is a parameter; [malloc_ok] says
    whether [malloc] succeeds. [romPath] is taken non-NULL; the result is
    [None] for a NULL return. [strrchr] is the search [scanBack] makes from
    the end of the string. *)
Definition rom2GameCfgPath (useSavesFolder : bool) (OAF_SAVE_DIR : cstring)
    (malloc_ok : bool) (romPath : cstring) : result (option buffer) :=
  if useSavesFolder then
    match scanBack romPath (length romPath) with
    | None => Undefined NullDeref      (* strrchr found nothing: NULL + 1 *)
    | Some j =>
        let fileNameOnly := drop (S j) romPath in
        let bufLen :=
          strlen fileNameOnly + strlen (OAF_SAVE_DIR ++ cstr "/") + 2 in
        if negb malloc_ok then Value None
        else
          let iniPath := {| content := []; room := bufLen + 1 |} in
          bindR (bufCopy iniPath (OAF_SAVE_DIR ++ cstr "/")) (λ iniPath,
          bindR (bufCat iniPath fileNameOnly) (λ iniPath,
          bindR (replaceTail iniPath (cstr ".ini")) (λ iniPath,
          Value (Some iniPath))))
    end
  else
    if negb malloc_ok then Value None
    else
      let iniPath := {| content := []; room := strlen romPath + 1 |} in
      bindR (bufCopy iniPath romPath) (λ iniPath,
      bindR (replaceTail iniPath (cstr ".ini")) (λ iniPath,
      Value (Some iniPath))).

(** The character ['0' + saveSlot]. *)
Definition digitChar (saveSlot : Z) : ascii :=
  ascii_of_N (Z.to_N ((uchar "0"%char + saveSlot) mod 256)).

(** [gameCfg2SavePath], lines 267-281; [saveSlot] is a [u8]. *)
Definition gameCfg2SavePath (cfgPath : buffer) (saveSlot : Z) : result buffer :=
  if saveSlot >? 9 then Value {| content := []; room := room cfgPath |}
  else
    let numberedExt := ["."%char; digitChar saveSlot] ++ cstr ".sav" in
    replaceTail cfgPath (if saveSlot =? 0 then cstr ".sav" else numberedExt).

(** Lines 336 and 346 of [oafInitAndRun]: the save path made from the ROM
    path. *)
Definition savePathOf (useSavesFolder : bool) (OAF_SAVE_DIR : cstring)
    (romPath : cstring) (saveSlot : Z) : result (option buffer) :=
  bindR (rom2GameCfgPath useSavesFolder OAF_SAVE_DIR true romPath) (λ filePath,
  match filePath with
  | None => Value None
  | Some filePath =>
      bindR (gameCfg2SavePath filePath saveSlot) (λ b, Value (Some b))
  end).

(** ** Button maps: [open_agb_firm.c], lines 371-375 and 392-400 *)

Definition u16 (z : Z) : Z := z mod 2 ^ 16.
Definition s16 (z : Z) : Z := (z + 2 ^ 15) mod 2 ^ 16 - 2 ^ 15.
Definition u8 (z : Z) : Z := z mod 2 ^ 8.

(** Both loops run [i] from 0 to 9 over [g_oafConfig.buttonMaps] and set bit
    [i] of a [u16] when [maps[i]] passes a test; [count] is the number of
    rounds left. *)
Fixpoint collectBits (hit : Z → bool) (maps : list Z) (count : nat) (i : Z)
    (bits : Z) : result Z :=
  match count with
  | O => Value bits
  | S count' =>
      match maps !! Z.to_nat i with
      | None => Undefined OutOfBounds
      | Some map =>
          collectBits hit maps count' (i + 1)
            (if hit map then u16 (Z.lor bits (Z.shiftl 1 i)) else bits)
      end
  end.

(** Lines 371-374 of [oafInitAndRun]: the buttons taken over from the
    hardware. *)
Definition buttonOverrides (maps : list Z) : result Z :=
  collectBits (λ map, negb (map =? 0)) maps 10 0 0.

(** Lines 392-399 of [oafUpdate]: the buttons reported as held. *)
Definition inputState (kHeld : Z) (maps : list Z) : result Z :=
  collectBits (λ map, negb (Z.land kHeld map =? 0)) maps 10 0 0.

(** Whether [maps[j]] passes the test [hit]. *)
Definition hitAt (hit : Z → bool) (maps : list Z) (j : Z) : bool :=
  match maps !! Z.to_nat j with
  | Some map => hit map
  | None => false
  end.

(** ** Backlight: [open_agb_firm.c], lines 103-162 *)

(** The limits of lines 106-115 for a system model. *)
Definition backlightLimits (model : Z) : Z * Z :=
  if model >=? 4 then (16, 142) else (20, 117).

(** [changeBacklight], lines 103-123: [backlight] is the [u8] field of
    [g_oafConfig], [amount] an [s16]; the result is the new field and the
    value handed to [GFX_setLcdLuminance]. [model] is what
    [MCU_getSystemModel] returns. *)
Definition changeBacklight (model backlight amount : Z) : Z * Z :=
  let '(min, max) := backlightLimits model in
  let newVal := s16 (backlight + amount) in
  let newVal := s16 (if newVal >? max then max else newVal) in
  let newVal := s16 (if newVal <? min then min else newVal) in
  (u8 newVal, newVal).

Inductive GfxCall :=
  | SetLcdLuminance (v : Z)
  | PowerOffBacklight (lcd : bool)    (* [true] for GFX_BL_TOP *)
  | PowerOnBacklight (lcd : bool).

Record Backlight := { backlight : Z; backlightOn : bool }.

(** [updateBacklight], lines 125-162. [KEY_X] and the direction masks come
    from [hid.h], [SYS_MODEL_2DS] from [mcu.h]; [ndebug] tells whether the
    build defines [NDEBUG]; [backlightSteps] is the field of [g_oafConfig],
    [kDown] and [kHeld] are what [hidKeysDown] and [hidKeysHeld] return. The
    result lists the calls made to the display driver, in order. *)
Definition updateBacklight (km : KeyMasks) (KEY_X SYS_MODEL_2DS : Z)
    (ndebug : bool) (model backlightSteps kDown kHeld : Z) (st : Backlight)
    : Backlight * list GfxCall :=
  if negb (kDown =? 0) && negb (kHeld =? 0) then
    let steps := s16 backlightSteps in
    let '(st, calls) :=
      if kHeld =? Z.lor KEY_X (KEY_DUP km) then
        let '(b, lum) := changeBacklight model (backlight st) steps in
        ({| backlight := b; backlightOn := backlightOn st |},
         [SetLcdLuminance lum])
      else (st, []) in
    let '(st, calls) :=
      if kHeld =? Z.lor KEY_X (KEY_DDOWN km) then
        let '(b, lum) := changeBacklight model (backlight st) (s16 (- steps)) in
        ({| backlight := b; backlightOn := backlightOn st |},
         calls ++ [SetLcdLuminance lum])
      else (st, calls) in
    let lcd := negb (model =? SYS_MODEL_2DS) in
    if ndebug || lcd then
      let '(st, calls) :=
        if backlightOn st && (kHeld =? Z.lor KEY_X (KEY_DLEFT km)) then
          ({| backlight := backlight st; backlightOn := false |},
           calls ++ [PowerOffBacklight lcd])
        else (st, calls) in
      if negb (backlightOn st) && (kHeld =? Z.lor KEY_X (KEY_DRIGHT km)) then
        ({| backlight := backlight st; backlightOn := true |},
         calls ++ [PowerOnBacklight lcd])
      else (st, calls)
    else (st, calls)
  else (st, []).

(** [updateBacklight] called once per frame with the keys of that frame. *)
Fixpoint backlightRun (km : KeyMasks) (KEY_X SYS_MODEL_2DS : Z)
    (ndebug : bool) (model backlightSteps : Z) (frames : list (Z * Z))
    (st : Backlight) : Backlight * list GfxCall :=
  match frames with
  | [] => (st, [])
  | (kDown, kHeld) :: frames' =>
      let '(st, calls) :=
        updateBacklight km KEY_X SYS_MODEL_2DS ndebug model backlightSteps
          kDown kHeld st in
      let '(st, calls') :=
        backlightRun km KEY_X SYS_MODEL_2DS ndebug model backlightSteps
          frames' st in
      (st, calls ++ calls')
  end.

(** The calls that switch the backlight come in turns: off, on, off, ...
    [on] tells which state the backlight is in before the first of them. *)
Fixpoint takesTurns (on : bool) (calls : list GfxCall) : Prop :=
  match calls with
  | [] => True
  | SetLcdLuminance _ :: calls' => takesTurns on calls'
  | PowerOffBacklight _ :: calls' => on = true ∧ takesTurns false calls'
  | PowerOnBacklight _ :: calls' => on = false ∧ takesTurns true calls'
  end.

(** ** Ownership of a list *)

(** [m] holds at [d] a list that owns its names: the block is a [DirList]
    whose [size] slots are all written, each pointing to a live string of
    its own. *)
Record owns (m : mem) (d : N) (l : DirList) : Prop := {
  own_block : heap m !! d = Some (Dlist l);
  own_nonnull : d ≠ 0%N;
  own_size : size l = Z.of_nat (length (entries l));
  own_names :
    Forall (λ e, name e ≠ 0%N ∧ isChars (heap m) (name e) = true) (entries l);
  own_distinct : NoDup (d :: (name <$> entries l))
}.

(** The memory with the names of [slots] released. *)
Definition dropNames (slots : list DirEntry) (m : mem) : mem :=
  foldl (λ m e, dropBlock (name e) m) m slots.

(** A memory in which nothing lives above the highest address handed
    out. *)
Definition tidy (m : mem) : Prop :=
  ∀ p, (brk m < p)%N → heap m !! p = None.

(** The number of entries of [fis] the scan keeps. *)
Definition keptCount (filter : cstring) (fis : list FILINFO) : Z :=
  Z.of_nat (length (List.filter (kept filter) fis)).

(** What a scan holds while it runs, relative to the heap [h0] and the
    highest address [brk0] it started from: the read buffer [fis], the list
    at [dList], and a name for each slot of [valid], the slots written in
    full; nothing else has been allocated and nothing older was touched. *)
Record holding (h0 : gmap N block) (brk0 fis : N) (m : mem) (dList : N)
    (l : DirList) (valid : list DirEntry) : Prop := {
  ho_block : heap m !! dList = Some (Dlist l);
  ho_valid : valid `prefix_of` entries l;
  ho_fis : (brk0 < fis)%N ∧ is_Some (heap m !! fis);
  ho_dList : (fis < dList ≤ brk m)%N;
  ho_cap : Z.of_nat (length valid) ≤ capacity l
           ≤ Z.of_nat (length valid) + DLIST_GROW_SIZE;
  ho_names :
    Forall (λ e, (fis < name e ≤ brk m)%N ∧ name e ≠ dList ∧
                 isChars (heap m) (name e) = true) valid;
  ho_nodup : NoDup (name <$> valid);
  ho_frame : ∀ p, (p ≤ brk0)%N → heap m !! p = h0 !! p;
  ho_dom : ∀ p, (brk0 < p)%N → is_Some (heap m !! p) →
             p = fis ∨ p = dList ∨ p ∈ (name <$> valid)
}.

(** What is left of it once the read buffer is released. *)
Record held (h0 : gmap N block) (brk0 : N) (m : mem) (dList : N)
    (l : DirList) (valid : list DirEntry) : Prop := {
  he_block : heap m !! dList = Some (Dlist l);
  he_valid : valid `prefix_of` entries l;
  he_dList : (brk0 < dList)%N;
  he_names :
    Forall (λ e, (brk0 < name e)%N ∧ name e ≠ dList ∧
                 isChars (heap m) (name e) = true) valid;
  he_nodup : NoDup (name <$> valid);
  he_frame : ∀ p, (p ≤ brk0)%N → heap m !! p = h0 !! p;
  he_dom : ∀ p, (brk0 < p)%N → is_Some (heap m !! p) →
             p = dList ∨ p ∈ (name <$> valid)
}.

(** A list of two entries and a memory that holds it together with the two
    names. *)
Definition twoNames : DirList :=
  {| capacity := DLIST_GROW_SIZE; size := 2;
     entries := [ {| type := ENTRY_DIRECTORY; name := 2%N |};
                  {| type := ENTRY_FILE; name := 3%N |} ] |}.

Definition shelf : mem :=
  {| heap := <[1%N := Dlist twoNames]>
               (<[2%N := Chars (cstr "saves")]>
                  (<[3%N := Chars (cstr "a.gba")]> ∅));
     brk := 3%N; requests := 3%nat |}.

(** A directory that cannot be opened: [fOpenDir] answers with the
    filesystem's code 5. *)
Definition missingDir : DirSvc :=
  {| open_result := RES_FS 5; read_results := [] |}.

(** ** Drawing the list: [showDirList], lines 177-190

    What reaches the console is recorded as it is printed: the clear
    sequence, then one row per entry with its screen line, its colour
    (white for a file, yellow for a directory) and the characters that
    [%.52s] takes from the name. *)

Inductive Print :=
  | ClearScreen
  | RowAt (line : Z) (white : bool) (text : cstring).

(** The bound of the loop, computed on [u32]. *)
Definition listLength (l : DirList) (start : Z) : Z :=
  if u32 (size l - start) >? SCREEN_ROWS then u32 (start + SCREEN_ROWS)
  else size l.

(** [dList->entries[i]]: a slot behind the ones written so far holds
    nothing yet, a slot behind the capacity is outside the block. *)
Definition slotAt (l : DirList) (i : Z) : result DirEntry :=
  match entries l !! Z.to_nat i with
  | Some e => Value e
  | None => Undefined (if i <? capacity l then UninitRead else OutOfBounds)
  end.

(** The characters a [%.Ns] conversion reads through the pointer [p]. *)
Definition readString (h : gmap N block) (p : N) (precision : nat)
    : result cstring :=
  if isNull p then Undefined NullDeref
  else match h !! p with
       | Some (Chars s) => Value (take precision s)
       | Some (Raw _) => Undefined UninitRead
       | Some (Dlist _) => Undefined OutOfBounds
       | None => Undefined UseAfterFree
       end.

(** The loop of [showDirList]: [rounds] passes from index [i] on. *)
Fixpoint showRows (h : gmap N block) (l : DirList) (start : Z)
    (rounds : nat) (i : Z) : result (list Print) :=
  match rounds with
  | O => Value []
  | S rounds' =>
      bindR (slotAt l i) (λ e,
      bindR (readString h (name e) 52) (λ text,
      bindR (showRows h l start rounds' (u32 (i + 1))) (λ rows,
      Value (RowAt (u32 (i - start + 1)) (type e =? ENTRY_FILE) text :: rows))))
  end.

Definition showDirList (h : gmap N block) (l : DirList) (start : Z)
    : result (list Print) :=
  bindR (showRows h l start (Z.to_nat (listLength l start - start)) start)
    (λ rows, Value (ClearScreen :: rows)).

(** Line 236 of [browseFiles]: the screen line the cursor is drawn on. *)
Definition cursorLine (st : NavState) : Z :=
  u32 (cursorPos st - windowPos st + 1).

(** The row [showDirList] prints for an entry on screen line [line]. *)
Definition rowOf (h : gmap N block) (line : Z) (e : DirEntry) : Print :=
  RowAt line (type e =? ENTRY_FILE) (take 52 (nameAt h (name e))).

(** * Properties *)

(** ** Machine integers *)

Lemma u32_range z : 0 ≤ u32 z < 2 ^ 32.
Proof. unfold u32. apply Z.mod_pos_bound. lia. Qed.

Lemma s32_range z : - 2 ^ 31 ≤ s32 z < 2 ^ 31.
Proof.
  unfold s32. pose proof (Z.mod_pos_bound (z + 2 ^ 31) (2 ^ 32)). lia.
Qed.

Lemma u32_small z : 0 ≤ z < 2 ^ 32 → u32 z = z.
Proof. intros. unfold u32. apply Z.mod_small. lia. Qed.

Lemma u32_neg z : - 2 ^ 32 ≤ z < 0 → u32 z = z + 2 ^ 32.
Proof.
  intros. unfold u32.
  rewrite <- (Z.mod_add z 1 (2 ^ 32)) by lia.
  apply Z.mod_small. lia.
Qed.

Lemma s32_small z : - 2 ^ 31 ≤ z < 2 ^ 31 → s32 z = z.
Proof. intros. unfold s32. rewrite Z.mod_small; lia. Qed.

Lemma s32_high z : 2 ^ 31 ≤ z < 2 ^ 32 → s32 z = z - 2 ^ 32.
Proof.
  intros. unfold s32.
  rewrite <- (Z.mod_add (z + 2 ^ 31) (-1) (2 ^ 32)) by lia.
  rewrite Z.mod_small; lia.
Qed.

(** ** Navigation *)

(** Unfold [moveCursor] for an event [H] and settle its four key tests. *)
Ltac move_by H :=
  unfold PageForward, PageBackward, StepUp, StepDown, directions in H;
  injection H as ? ? ? ?;
  unfold moveCursor;
  repeat match goal with
         | Hp : pressed _ _ = _ |- _ => rewrite Hp; clear Hp
         end.

Lemma moveCursor_range km kDown n c :
  - 2 ^ 31 ≤ c < 2 ^ 31 → - 2 ^ 31 ≤ moveCursor km kDown n c < 2 ^ 31.
Proof.
  intros Hc. unfold moveCursor.
  destruct (n =? 0); [exact Hc|].
  repeat match goal with
         | |- context [if ?b then _ else _] => destruct b
         end;
    first [apply s32_range | lia | exact Hc].
Qed.

Lemma wrapCursor_below n c :
  0 < n < 2 ^ 31 → - 2 ^ 31 ≤ c < 0 → wrapCursor n c = n - 1.
Proof.
  intros Hn Hc. unfold wrapCursor.
  destruct (Z.ltb_spec c 0); [|lia].
  rewrite (u32_small (n - 1)) by lia.
  rewrite (s32_small (n - 1)) by lia.
  rewrite (u32_small (n - 1)) by lia.
  destruct (Z.gtb_spec (n - 1) (n - 1)); [lia | reflexivity].
Qed.

Lemma wrapCursor_beyond n c :
  0 < n < 2 ^ 31 → n ≤ c < 2 ^ 31 → wrapCursor n c = 0.
Proof.
  intros Hn Hc. unfold wrapCursor.
  destruct (Z.ltb_spec c 0); [lia|].
  rewrite (u32_small (n - 1)), (u32_small c) by lia.
  destruct (Z.gtb_spec c (n - 1)); [reflexivity | lia].
Qed.

Lemma wrapCursor_inside n c :
  0 < n < 2 ^ 31 → 0 ≤ c < n → wrapCursor n c = c.
Proof.
  intros Hn Hc. unfold wrapCursor.
  destruct (Z.ltb_spec c 0); [lia|].
  rewrite (u32_small (n - 1)), (u32_small c) by lia.
  destruct (Z.gtb_spec c (n - 1)); [lia | reflexivity].
Qed.

Lemma wrapCursor_range n c :
  0 < n < 2 ^ 31 → - 2 ^ 31 ≤ c < 2 ^ 31 → 0 ≤ wrapCursor n c < n.
Proof.
  intros Hn Hc.
  destruct (Z.lt_ge_cases c 0).
  - rewrite wrapCursor_below by lia. lia.
  - destruct (Z.lt_ge_cases c n).
    + rewrite wrapCursor_inside by lia. lia.
    + rewrite wrapCursor_beyond by lia. lia.
Qed.

Lemma scrollWindow_spec c w :
  0 ≤ c < 2 ^ 31 → 0 ≤ w < 2 ^ 32 →
  fst (scrollWindow c w) =
    (if c <? w then c
     else if c >=? w + SCREEN_ROWS then c - (SCREEN_ROWS - 1) else w).
Proof.
  intros Hc Hw. unfold scrollWindow, SCREEN_ROWS.
  rewrite (u32_small c) by lia.
  destruct (Z.ltb_spec c w).
  - rewrite (u32_small (c + 24)) by lia.
    destruct (Z.geb_spec c (c + 24)); [lia | reflexivity].
  - rewrite (u32_small (w + 24)) by lia.
    destruct (Z.geb_spec c (w + 24)); [|reflexivity].
    cbn [fst]. apply u32_small. lia.
Qed.

Lemma u32_s32 z : u32 (s32 z) = u32 z.
Proof.
  unfold u32, s32.
  rewrite Zminus_mod_idemp_l.
  f_equal. lia.
Qed.

Lemma moveCursor_forward km kDown n c :
  PageForward km kDown → 0 < n < 2 ^ 31 → 0 ≤ c < n →
  moveCursor km kDown n c =
    (if c + SCREEN_ROWS >? n then n - 1 else c + SCREEN_ROWS).
Proof.
  intros Hev Hn Hc. move_by Hev. unfold SCREEN_ROWS.
  destruct (Z.eqb_spec n 0); [lia|].
  rewrite u32_s32, (u32_small c) by lia.
  rewrite (u32_small (c + 24)) by lia.
  rewrite (u32_small (n - 1)), (s32_small (n - 1)) by lia.
  destruct (Z.gtb_spec (c + 24) n); [reflexivity|].
  apply s32_small. lia.
Qed.

Lemma moveCursor_backward km kDown n c :
  PageBackward km kDown → 0 < n < 2 ^ 31 → 0 ≤ c < n →
  moveCursor km kDown n c =
    (if c - SCREEN_ROWS <? -1 then 0 else c - SCREEN_ROWS).
Proof.
  intros Hev Hn Hc. move_by Hev. unfold SCREEN_ROWS.
  destruct (Z.eqb_spec n 0); [lia|].
  rewrite (u32_small c) by lia.
  assert (s32 (c - 24) = c - 24) as ->; [|reflexivity].
  apply s32_small. lia.
Qed.

Lemma moveCursor_up km kDown n c :
  StepUp km kDown → 0 < n < 2 ^ 31 → 0 ≤ c < n →
  moveCursor km kDown n c = c - 1.
Proof.
  intros Hev Hn Hc. move_by Hev.
  destruct (Z.eqb_spec n 0); [lia|]. apply s32_small. lia.
Qed.

Lemma moveCursor_down km kDown n c :
  StepDown km kDown → 0 < n < 2 ^ 31 → 0 ≤ c < n →
  moveCursor km kDown n c = c + 1.
Proof.
  intros Hev Hn Hc. move_by Hev.
  destruct (Z.eqb_spec n 0); [lia|]. apply s32_small. lia.
Qed.

(** C3, as the code has it: Page-forward moves the cursor [SCREEN_ROWS]
    down; a target beyond index [n] is clamped to the last entry [n - 1],
    while the target [n] itself, one past the last entry, is left to the wrap
    and ends on entry 0. *)
Theorem page_forward_cursor km kDown n c w :
  PageForward km kDown → 0 < n < 2 ^ 31 → 0 ≤ c < n →
  cursorPos (navStep km kDown n {| cursorPos := c; windowPos := w |}) =
    (if c + SCREEN_ROWS <? n then c + SCREEN_ROWS
     else if c + SCREEN_ROWS =? n then 0
     else n - 1).
Proof.
  intros Hev Hn Hc. unfold navStep. cbn [cursorPos windowPos].
  rewrite (moveCursor_forward _ _ _ _ Hev Hn Hc). unfold SCREEN_ROWS.
  destruct (Z.gtb_spec (c + 24) n), (Z.ltb_spec (c + 24) n),
    (Z.eqb_spec (c + 24) n); try lia.
  - apply wrapCursor_inside; lia.
  - apply wrapCursor_inside; lia.
  - apply wrapCursor_beyond; lia.
Qed.

Lemma page_forward_cursor_witness :
  cursorPos (navStep pad 16 100 {| cursorPos := 90; windowPos := 70 |}) = 99.
Proof.
  apply (page_forward_cursor pad 16 100 90 70); [reflexivity | lia | lia].
Defined.

(** C3 as stated fails: from entry 0 of a list of exactly [SCREEN_ROWS]
    entries, Page-forward ends on entry 0, not on min(0 + 24, 23) = 23. *)
Lemma page_forward_not_clamped :
  PageForward pad 16 ∧
  cursorPos (navStep pad 16 24 {| cursorPos := 0; windowPos := 0 |})
    ≠ Z.min (0 + SCREEN_ROWS) (24 - 1).
Proof. split; [reflexivity | discriminate]. Qed.

(** C4, as the code has it: Page-backward moves the cursor [SCREEN_ROWS] up;
    a target below -1 becomes entry 0, and only the target -1 itself is left
    to the wrap and ends on the last entry. *)
Theorem page_backward_cursor km kDown n c w :
  PageBackward km kDown → 0 < n < 2 ^ 31 → 0 ≤ c < n →
  moveCursor km kDown n c =
    (if c - SCREEN_ROWS <? -1 then 0 else c - SCREEN_ROWS) ∧
  cursorPos (navStep km kDown n {| cursorPos := c; windowPos := w |}) =
    (if c - SCREEN_ROWS <? -1 then 0
     else if c - SCREEN_ROWS =? -1 then n - 1
     else c - SCREEN_ROWS).
Proof.
  intros Hev Hn Hc. split; [by apply moveCursor_backward|].
  unfold navStep. cbn [cursorPos windowPos].
  rewrite (moveCursor_backward _ _ _ _ Hev Hn Hc). unfold SCREEN_ROWS.
  destruct (Z.ltb_spec (c - 24) (-1)), (Z.eqb_spec (c - 24) (-1)); try lia.
  - apply wrapCursor_inside; lia.
  - apply wrapCursor_below; lia.
  - apply wrapCursor_inside; lia.
Qed.

Lemma page_backward_cursor_witness :
  moveCursor pad 32 50 23 = -1 ∧
  cursorPos (navStep pad 32 50 {| cursorPos := 23; windowPos := 0 |}) = 49.
Proof.
  apply (page_backward_cursor pad 32 50 23 0); [reflexivity | lia | lia].
Defined.

(** C4 as stated fails: from entry 0 of five, Page-backward leaves the
    cursor on 0 before the wrap, not on -1, and so on entry 0 after it, not
    on the last entry. *)
Lemma page_backward_not_floored :
  PageBackward pad 32 ∧
  moveCursor pad 32 5 0 ≠ Z.max (0 - SCREEN_ROWS) (-1) ∧
  cursorPos (navStep pad 32 5 {| cursorPos := 0; windowPos := 0 |}) ≠ 5 - 1.
Proof. split; [reflexivity|]. split; discriminate. Qed.

(** C7: whatever keys are down, after the cursor update, the wrap and the
    scroll recompute of one pass the cursor is an index of the list and lies
    inside the window, [windowPos ≤ cursorPos < windowPos + SCREEN_ROWS];
    the window moved up to the cursor when the cursor was above it, down to
    [cursorPos - (SCREEN_ROWS - 1)] when the cursor was at or below its end,
    and stayed otherwise. *)
Theorem window_follows_cursor km kDown n c w :
  0 < n < 2 ^ 31 → 0 ≤ c < n → 0 ≤ w < 2 ^ 32 →
  let st := navStep km kDown n {| cursorPos := c; windowPos := w |} in
  0 ≤ cursorPos st < n ∧
  windowPos st ≤ cursorPos st ∧
  (SCREEN_ROWS ≤ n → cursorPos st < windowPos st + SCREEN_ROWS) ∧
  cursorPos st < windowPos st + SCREEN_ROWS ∧
  windowPos st =
    (if cursorPos st <? w then cursorPos st
     else if cursorPos st >=? w + SCREEN_ROWS
          then cursorPos st - (SCREEN_ROWS - 1)
          else w).
Proof.
  intros Hn Hc Hw st.
  assert (Hc' : 0 ≤ cursorPos st < n).
  { subst st. unfold navStep. cbn [cursorPos windowPos].
    apply wrapCursor_range; [lia|]. apply moveCursor_range. lia. }
  assert (Hw' : windowPos st =
    (if cursorPos st <? w then cursorPos st
     else if cursorPos st >=? w + SCREEN_ROWS
          then cursorPos st - (SCREEN_ROWS - 1)
          else w)).
  { subst st. unfold navStep in *. cbn [cursorPos windowPos] in *.
    apply scrollWindow_spec; lia. }
  rewrite Hw'. unfold SCREEN_ROWS.
  destruct (Z.ltb_spec (cursorPos st) w),
    (Z.geb_spec (cursorPos st) (w + 24)); repeat split; lia.
Qed.

Lemma window_follows_cursor_witness :
  let st := navStep pad 128 100 {| cursorPos := 23; windowPos := 0 |} in
  0 ≤ cursorPos st < 100 ∧
  windowPos st ≤ cursorPos st ∧
  (SCREEN_ROWS ≤ 100 → cursorPos st < windowPos st + SCREEN_ROWS) ∧
  cursorPos st < windowPos st + SCREEN_ROWS ∧
  windowPos st =
    (if cursorPos st <? 0 then cursorPos st
     else if cursorPos st >=? 0 + SCREEN_ROWS
          then cursorPos st - (SCREEN_ROWS - 1)
          else 0).
Proof. apply (window_follows_cursor pad 128 100 23 0); lia. Defined.

(** C8: after the movement arithmetic of any keys, the wrap sends a cursor
    below 0 to the last entry [n - 1] and a cursor at or beyond [n] to entry
    0 (and leaves every index alone); with five entries Step-up from entry 0
    ends on entry 4 and Step-down from entry 4 on entry 0. *)
Theorem cursor_wrap km n :
  0 < n < 2 ^ 31 →
  (∀ kDown c, 0 ≤ c < n →
     let moved := moveCursor km kDown n c in
     (moved < 0 → wrapCursor n moved = n - 1) ∧
     (n ≤ moved → wrapCursor n moved = 0) ∧
     (0 ≤ moved < n → wrapCursor n moved = moved)) ∧
  (∀ kDown w, StepUp km kDown →
     cursorPos (navStep km kDown 5 {| cursorPos := 0; windowPos := w |}) = 4) ∧
  (∀ kDown w, StepDown km kDown →
     cursorPos (navStep km kDown 5 {| cursorPos := 4; windowPos := w |}) = 0).
Proof.
  intros Hn. split; [|split].
  - intros kDown c Hc moved.
    assert (- 2 ^ 31 ≤ moved < 2 ^ 31) by (apply moveCursor_range; lia).
    split; [|split]; intros.
    + apply wrapCursor_below; lia.
    + apply wrapCursor_beyond; lia.
    + apply wrapCursor_inside; lia.
  - intros kDown w Hev. unfold navStep. cbn [cursorPos windowPos].
    rewrite (moveCursor_up _ _ 5 0 Hev) by lia. reflexivity.
  - intros kDown w Hev. unfold navStep. cbn [cursorPos windowPos].
    rewrite (moveCursor_down _ _ 5 4 Hev) by lia. reflexivity.
Qed.

Lemma cursor_wrap_witness :
  wrapCursor 5 (moveCursor pad 64 5 0) = 4 ∧
  cursorPos (navStep pad 64 5 {| cursorPos := 0; windowPos := 0 |}) = 4 ∧
  cursorPos (navStep pad 128 5 {| cursorPos := 4; windowPos := 0 |}) = 0.
Proof.
  destruct (cursor_wrap pad 5 ltac:(lia)) as (Hwrap & Hup & Hdown).
  split; [|split].
  - apply (Hwrap 64 0); [lia | reflexivity].
  - apply (Hup 64 0). reflexivity.
  - apply (Hdown 128 0). reflexivity.
Defined.

(** ** Path buffer *)

Lemma scanBack_found s p j :
  scanBack s p = Some j → (j < p)%nat ∧ s !! j = Some "/"%char.
Proof.
  induction p as [|p IH]; cbn [scanBack]; [discriminate|].
  case_bool_decide as Hp.
  - intros [= <-]. split; [lia | exact Hp].
  - intros Hj. destruct (IH Hj). split; [lia | assumption].
Qed.

Lemma scanBack_last s p i :
  (i < p)%nat → s !! i = Some "/"%char →
  ∃ j, scanBack s p = Some j ∧ (i ≤ j)%nat.
Proof.
  induction p as [|p IH]; [lia|]. intros Hi Hs. cbn [scanBack].
  case_bool_decide as Hp.
  - exists p. split; [reflexivity | lia].
  - assert (i ≠ p) by (intros ->; contradiction).
    destruct IH as (j & Hj & Hij); [lia | assumption |].
    exists j. split; [assumption | lia].
Qed.

Lemma scanBack_skip s p q :
  (q ≤ p)%nat → (∀ i, (q ≤ i < p)%nat → s !! i ≠ Some "/"%char) →
  scanBack s p = scanBack s q.
Proof.
  induction p as [|p IH]; intros Hq Hno.
  - by replace q with O by lia.
  - destruct (decide (q = S p)) as [->|]; [reflexivity|].
    cbn [scanBack]. case_bool_decide as Hp.
    + exfalso. apply (Hno p); [lia | assumption].
    + apply IH; [lia|]. intros i Hi. apply Hno. lia.
Qed.

Lemma pathAppend_granted src srcSize dst c :
  last src = Some c →
  ∃ srcSize',
    pathAppend true src srcSize dst =
      Value (Some ((if bool_decide (c = "/"%char) then src ++ dst
                    else src ++ cstr "/" ++ dst), srcSize')).
Proof.
  intros Hlast. unfold pathAppend. rewrite Hlast.
  rewrite andb_false_r.
  case_bool_decide; cbn [negb]; eexists.
  - reflexivity.
  - rewrite <- app_assoc. reflexivity.
Qed.

Lemma truncateToParent_keeps_root root rest :
  ∃ parent,
    truncateToParent (root ++ cstr ":/" ++ rest) = Value parent ∧
    (root ++ cstr ":/") `prefix_of` parent.
Proof.
  set (s := root ++ cstr ":/" ++ rest).
  assert (Hcolon : s !! length root = Some ":"%char).
  { subst s. rewrite lookup_app_r by lia. by rewrite Nat.sub_diag. }
  assert (Hslash : s !! S (length root) = Some "/"%char).
  { subst s. rewrite lookup_app_r by lia.
    by replace (S (length root) - length root)%nat with 1%nat by lia. }
  assert (Hlen : (S (length root) < length s)%nat).
  { subst s. rewrite !length_app. cbn. lia. }
  destruct (scanBack_last s (length s) _ Hlen Hslash) as (j & Hj & Hle).
  assert (Hs : s = (root ++ cstr ":/") ++ rest).
  { subst s. by rewrite <- app_assoc. }
  assert (Hroot : length (root ++ cstr ":/") = S (S (length root))).
  { rewrite length_app. cbn. lia. }
  unfold truncateToParent. rewrite Hj.
  destruct j as [|j]; [lia|].
  case_bool_decide; eexists; (split; [reflexivity|]).
  - rewrite Hs, take_app_ge by lia. by eexists.
  - assert (j ≠ length root) by (intros ->; contradiction).
    rewrite Hs, take_app_ge by lia. by eexists.
Qed.

Lemma truncateToParent_of_child root comp :
  "/"%char ∉ comp →
  truncateToParent ((root ++ cstr ":/") ++ comp) = Value (root ++ cstr ":/").
Proof.
  intros Hcomp.
  set (p := root ++ cstr ":/"). set (s := p ++ comp).
  assert (Hp : length p = S (S (length root))).
  { subst p. rewrite length_app. cbn. lia. }
  assert (Hscan : scanBack s (length s) = Some (S (length root))).
  { rewrite (scanBack_skip s (length s) (length p)).
    - rewrite Hp. cbn [scanBack].
      assert (s !! S (length root) = Some "/"%char) as ->.
      { subst s p. rewrite <- !app_assoc, lookup_app_r by lia.
        by replace (S (length root) - length root)%nat with 1%nat by lia. }
      by rewrite bool_decide_eq_true_2.
    - subst s. rewrite length_app. lia.
    - intros i Hi Hsl. apply Hcomp. subst s.
      rewrite lookup_app_r in Hsl by lia.
      eapply list_elem_of_lookup_2, Hsl. }
  unfold truncateToParent. rewrite Hscan.
  assert (s !! length root = Some ":"%char) as ->.
  { subst s p. rewrite <- !app_assoc, lookup_app_r by lia.
    by rewrite Nat.sub_diag. }
  rewrite bool_decide_eq_true_2 by reflexivity.
  subst s. rewrite <- Hp. by rewrite take_app_length.
Qed.

(** C9: appending "games" to "sdmc:/" gives "sdmc:/games", and in general a
    separator is put in exactly when the path does not end with one; the
    parent of "sdmc:/games" is "sdmc:/" and the parent of "sdmc:/" is
    "sdmc:/" itself; truncation never cuts into the ":/" of a root, and it
    undoes the append of a component onto a root. *)
Theorem path_round_trip :
  (∀ srcSize, ∃ srcSize',
     pathAppend true (cstr "sdmc:/") srcSize (cstr "games") =
       Value (Some (cstr "sdmc:/games", srcSize'))) ∧
  (∀ src srcSize dst c, last src = Some c → ∃ srcSize',
     pathAppend true src srcSize dst =
       Value (Some ((if bool_decide (c = "/"%char) then src ++ dst
                     else src ++ cstr "/" ++ dst), srcSize'))) ∧
  truncateToParent (cstr "sdmc:/games") = Value (cstr "sdmc:/") ∧
  truncateToParent (cstr "sdmc:/") = Value (cstr "sdmc:/") ∧
  (∀ root rest, ∃ parent,
     truncateToParent (root ++ cstr ":/" ++ rest) = Value parent ∧
     (root ++ cstr ":/") `prefix_of` parent) ∧
  (∀ root comp srcSize, "/"%char ∉ comp → ∃ child srcSize',
     pathAppend true (root ++ cstr ":/") srcSize comp =
       Value (Some (child, srcSize')) ∧
     truncateToParent child = Value (root ++ cstr ":/")).
Proof.
  repeat split.
  - intros srcSize.
    destruct (pathAppend_granted (cstr "sdmc:/") srcSize (cstr "games") "/")
      as [srcSize' H]; [reflexivity|].
    exists srcSize'. exact H.
  - intros. by apply pathAppend_granted.
  - apply truncateToParent_keeps_root.
  - intros root comp srcSize Hcomp.
    destruct (pathAppend_granted (root ++ cstr ":/") srcSize comp "/")
      as [srcSize' H].
    { rewrite last_app. reflexivity. }
    rewrite bool_decide_eq_true_2 in H by reflexivity.
    eexists _, srcSize'. split; [exact H|].
    by apply truncateToParent_of_child.
Qed.

Lemma path_round_trip_witness :
  ∃ child srcSize',
    pathAppend true (cstr "sdmc" ++ cstr ":/") 7 (cstr "games") =
      Value (Some (child, srcSize')) ∧
    truncateToParent child = Value (cstr "sdmc" ++ cstr ":/").
Proof.
  destruct path_round_trip as (_ & _ & _ & _ & _ & H).
  apply (H (cstr "sdmc") (cstr "games") 7).
  vm_compute. intros Hin. by repeat (apply elem_of_cons in Hin as [Hin|Hin];
    [discriminate Hin|]); apply elem_of_nil in Hin.
Defined.

(** ** Running stateful code *)

Lemma bind_run {A B} (c : M A) (k : A → M B) m a m1 :
  c m = (Value a, m1) → bind c k m = k a m1.
Proof. intros H. unfold bind. by rewrite H. Qed.

Lemma bind_value {A B} (c : M A) (k : A → M B) m b m' :
  bind c k m = (Value b, m') →
  ∃ a m1, c m = (Value a, m1) ∧ k a m1 = (Value b, m').
Proof.
  unfold bind. destruct (c m) as [[a|f] m1]; [eauto | discriminate].
Qed.

Lemma isNull_false p : p ≠ 0%N → isNull p = false.
Proof. intros. unfold isNull. by apply N.eqb_neq. Qed.

Lemma load_run p b m :
  p ≠ 0%N → heap m !! p = Some b → load p m = (Value b, m).
Proof. intros Hp Hb. unfold load. by rewrite isNull_false, Hb. Qed.

Lemma loadList_run p l m :
  p ≠ 0%N → heap m !! p = Some (Dlist l) → loadList p m = (Value l, m).
Proof.
  intros Hp Hb. unfold loadList. by rewrite (bind_run _ _ _ _ _ (load_run _ _ _ Hp Hb)).
Qed.

Lemma loadList_fresh p junk m :
  p ≠ 0%N → heap m !! p = Some (Raw junk) →
  loadList p m =
    (Value {| capacity := u32 junk; size := u32 junk; entries := [] |}, m).
Proof.
  intros Hp Hb. unfold loadList. by rewrite (bind_run _ _ _ _ _ (load_run _ _ _ Hp Hb)).
Qed.

Lemma store_run p b b0 m :
  p ≠ 0%N → heap m !! p = Some b0 → store p b m = (Value tt, putBlock p b m).
Proof. intros Hp Hb. unfold store. by rewrite isNull_false, Hb. Qed.

Lemma fcramFree_run p b m :
  p ≠ 0%N → heap m !! p = Some b → fcramFree p m = (Value tt, dropBlock p m).
Proof. intros Hp Hb. unfold fcramFree. by rewrite isNull_false, Hb. Qed.

Lemma fcramAlloc_granted fcram m junk :
  fcram (requests m) = Some junk →
  fcramAlloc fcram m =
    (Value (N.succ (brk m)),
     asked (handOut (N.succ (brk m)) (putBlock (N.succ (brk m)) (Raw junk) m))).
Proof. intros H. unfold fcramAlloc. by rewrite H. Qed.

Lemma fcramAlloc_denied fcram m :
  fcram (requests m) = None → fcramAlloc fcram m = (Value 0%N, asked m).
Proof. intros H. unfold fcramAlloc. by rewrite H. Qed.

Lemma setCapacity_run p l v m :
  p ≠ 0%N → heap m !! p = Some (Dlist l) →
  setCapacity p v m =
    (Value tt,
     putBlock p (Dlist {| capacity := v; size := size l; entries := entries l |}) m).
Proof.
  intros Hp Hb. unfold setCapacity.
  rewrite (bind_run _ _ _ _ _ (loadList_run _ _ _ Hp Hb)).
  by apply (store_run _ _ _ _ Hp Hb).
Qed.

Lemma setCapacity_fresh p junk v m :
  p ≠ 0%N → heap m !! p = Some (Raw junk) →
  setCapacity p v m =
    (Value tt,
     putBlock p (Dlist {| capacity := v; size := u32 junk; entries := [] |}) m).
Proof.
  intros Hp Hb. unfold setCapacity.
  rewrite (bind_run _ _ _ _ _ (loadList_fresh _ _ _ Hp Hb)).
  by apply (store_run _ _ _ _ Hp Hb).
Qed.

Lemma setSize_run p l v m :
  p ≠ 0%N → heap m !! p = Some (Dlist l) →
  setSize p v m =
    (Value tt,
     putBlock p (Dlist {| capacity := capacity l; size := v; entries := entries l |}) m).
Proof.
  intros Hp Hb. unfold setSize.
  rewrite (bind_run _ _ _ _ _ (loadList_run _ _ _ Hp Hb)).
  by apply (store_run _ _ _ _ Hp Hb).
Qed.

Lemma setEntryName_push d l i p m :
  d ≠ 0%N → heap m !! d = Some (Dlist l) →
  Z.of_nat (length (entries l)) = i → i < capacity l →
  setEntryName d i p m =
    (Value tt,
     putBlock d
       (Dlist {| capacity := capacity l; size := size l;
                 entries := entries l ++ [{| type := 0; name := p |}] |}) m).
Proof.
  intros Hd Hb Hlen Hcap. unfold setEntryName.
  rewrite (bind_run _ _ _ _ _ (loadList_run _ _ _ Hd Hb)).
  destruct (Z.leb_spec (capacity l) i); [lia|].
  rewrite lookup_ge_None_2 by lia.
  rewrite <- Hlen, Z.eqb_refl.
  by apply (store_run _ _ _ _ Hd Hb).
Qed.

Lemma setEntryType_last d l slots e i t m :
  d ≠ 0%N → heap m !! d = Some (Dlist l) →
  entries l = slots ++ [e] → Z.of_nat (length slots) = i → i < capacity l →
  setEntryType d i t m =
    (Value tt,
     putBlock d
       (Dlist {| capacity := capacity l; size := size l;
                 entries := slots ++ [{| type := t; name := name e |}] |}) m).
Proof.
  intros Hd Hb Hl Hlen Hcap. unfold setEntryType.
  rewrite (bind_run _ _ _ _ _ (loadList_run _ _ _ Hd Hb)).
  destruct (Z.leb_spec (capacity l) i); [lia|].
  assert (Hi : Z.to_nat i = (length slots + 0)%nat) by lia.
  rewrite Hl, Hi, lookup_app_r, Nat.add_comm, Nat.add_sub by lia.
  cbn [lookup list_lookup]. unfold storeList.
  rewrite (store_run _ _ _ _ Hd Hb). do 4 f_equal.
  rewrite Nat.add_comm. by rewrite insert_app_r.
Qed.

Lemma safeStrcpy_whole s : safeStrcpy s (strlen s + 1) = s.
Proof.
  unfold safeStrcpy, strlen.
  replace (Z.to_nat (Z.of_nat (length s) + 1 - 1)) with (length s) by lia.
  apply take_ge. lia.
Qed.

Lemma firstSlots_all n slots :
  Z.of_nat (length slots) ≤ n → firstSlots n slots = slots.
Proof.
  revert n. induction slots as [|e slots IH]; intros n Hn; [reflexivity|].
  cbn [firstSlots]. cbn [length] in Hn.
  destruct (Z.ltb_spec 0 n); [|lia]. f_equal. apply IH. lia.
Qed.

(** ** The scan loop *)

Lemma Forall2_impl_elem {A B} (P Q : A → B → Prop) l k :
  Forall2 P l k → (∀ x y, x ∈ l → P x y → Q x y) → Forall2 Q l k.
Proof.
  induction 1 as [|x y l k Hxy _ IH]; intros HPQ; constructor.
  - apply HPQ; [left | exact Hxy].
  - apply IH. intros x' y' Hin. apply HPQ. by right.
Qed.

Lemma tracks_put h p b e v :
  name e ≠ p → tracks h e v → tracks (<[p := b]> h) e v.
Proof. intros Hne [Ht Hn]. split; [done|]. by rewrite lookup_insert_ne. Qed.

Lemma tracks_drop h p e v :
  name e ≠ p → tracks h e v → tracks (delete p h) e v.
Proof. intros Hne [Ht Hn]. split; [done|]. by rewrite lookup_delete_ne. Qed.

Section ScanProofs.
Variable fcram : nat → option Z.

Lemma appendEntry_continue lo m dList n vs l fi d' n' m' :
  scanning lo m dList n vs l → n < capacity l → n < 2 ^ 31 →
  appendEntry fcram fi dList n m = (Value (Continue d' n'), m') →
  d' = dList ∧ n' = n + 1 ∧
  ∃ l', scanning lo m' dList (n + 1) (vs ++ [fileView fi]) l' ∧
        size l' = n + 1.
Proof.
  intros [Hb Hd Hlen Hcap Hnames Haddr] Hroom Hn. unfold appendEntry.
  assert (Hd0 : dList ≠ 0%N) by lia.
  destruct (fcram (requests m)) as [junk|] eqn:Hf.
  - rewrite (bind_run _ _ _ _ _ (fcramAlloc_granted _ _ _ Hf)).
    set (p := N.succ (brk m)).
    assert (Hp0 : p ≠ 0%N) by lia.
    assert (Hpd : p ≠ dList) by lia.
    set (m1 := asked _).
    assert (Hb1 : heap m1 !! dList = Some (Dlist l)).
    { subst m1. cbn. by rewrite lookup_insert_ne. }
    rewrite (bind_run _ _ _ _ _ (setEntryName_push _ _ _ p _ Hd0 Hb1 Hlen Hroom)).
    rewrite (isNull_false _ Hp0).
    set (m2 := putBlock dList _ m1).
    assert (Hb2 : heap m2 !! p = Some (Raw junk)).
    { subst m2 m1. cbn. rewrite lookup_insert_ne by done.
      by rewrite lookup_insert_eq. }
    rewrite (bind_run _ _ _ _ _ (store_run _ _ _ _ Hp0 Hb2)).
    rewrite safeStrcpy_whole.
    set (m3 := putBlock p _ m2).
    assert (Hb3 : heap m3 !! dList = Some (Dlist
      {| capacity := capacity l; size := size l;
         entries := entries l ++ [{| type := 0; name := p |}] |})).
    { subst m3 m2. cbn. rewrite lookup_insert_ne by done.
      by rewrite lookup_insert_eq. }
    rewrite (bind_run _ _ _ _ _
      (setEntryType_last _ _ _ _ _ (entTypeOf fi) _ Hd0 Hb3 eq_refl Hlen Hroom)).
    cbn [capacity size entries name].
    set (m4 := putBlock dList _ m3).
    assert (Hb4 : heap m4 !! dList = Some (Dlist
      {| capacity := capacity l; size := size l;
         entries := entries l ++ [{| type := entTypeOf fi; name := p |}] |})).
    { subst m4. cbn. by rewrite lookup_insert_eq. }
    rewrite (bind_run _ _ _ _ _ (setSize_run _ _ (u32 (n + 1)) _ Hd0 Hb4)).
    cbn [capacity size entries].
    rewrite u32_small by lia.
    intros [= <- <- <-]. split; [done|]. split; [done|].
    exists {| capacity := capacity l; size := n + 1;
              entries := entries l ++ [{| type := entTypeOf fi; name := p |}] |}.
    split; [|reflexivity]. split; cbn.
    + by rewrite lookup_insert_eq.
    + lia.
    + rewrite length_app. cbn. lia.
    + unfold DLIST_GROW_SIZE in *. lia.
    + rewrite Forall_forall in Haddr. apply Forall2_app.
      * eapply Forall2_impl_elem; [exact Hnames|]. intros e v He Ht.
        destruct (Haddr e He) as [? ?].
        repeat (apply tracks_put; [lia|]). exact Ht.
      * constructor; [|constructor]. split; [reflexivity|]. cbn.
        rewrite !lookup_insert_ne by done. by rewrite lookup_insert_eq.
    + apply Forall_app. split.
      * eapply Forall_impl; [exact Haddr|]. cbn. intros e [? ?].
        split; [lia | done].
      * constructor; [|constructor]. cbn. split; [lia | done].
  - rewrite (bind_run _ _ _ _ _ (fcramAlloc_denied _ _ Hf)).
    assert (Hb1 : heap (asked m) !! dList = Some (Dlist l)) by done.
    rewrite (bind_run _ _ _ _ _ (setEntryName_push _ _ _ 0%N _ Hd0 Hb1 Hlen Hroom)).
    discriminate.
Qed.

Lemma dlistGrow_granted lo m dList n vs l d' m' :
  scanning lo m dList n vs l → size l = n → capacity l = n →
  n + DLIST_GROW_SIZE < 2 ^ 32 →
  dlistGrow fcram dList m = (Value d', m') →
  d' = 0%N ∨ ∃ l', scanning lo m' d' n vs l' ∧ n < capacity l'.
Proof.
  intros [Hb Hd Hlen Hcap Hnames Haddr] Hsize Hfull Hn. unfold dlistGrow.
  assert (Hd0 : dList ≠ 0%N) by lia.
  rewrite (bind_run _ _ _ _ _ (loadList_run _ _ _ Hd0 Hb)).
  destruct (fcram (requests m)) as [junk|] eqn:Hf.
  - rewrite (bind_run _ _ _ _ _ (fcramAlloc_granted _ _ _ Hf)).
    set (p := N.succ (brk m)).
    assert (Hp0 : p ≠ 0%N) by lia.
    assert (Hpd : p ≠ dList) by lia.
    rewrite (isNull_false _ Hp0).
    set (m1 := asked _).
    assert (Hb1 : heap m1 !! p = Some (Raw junk)).
    { subst m1. cbn. by rewrite lookup_insert_eq. }
    rewrite (bind_run _ _ _ _ _ (setCapacity_fresh _ _ _ _ Hp0 Hb1)).
    set (m2 := putBlock p _ m1).
    assert (Hb2 : heap m2 !! dList = Some (Dlist l)).
    { subst m2 m1. cbn. by rewrite !lookup_insert_ne. }
    rewrite (bind_run _ _ _ _ _ (loadList_run _ _ _ Hd0 Hb2)).
    assert (Hb2' : heap m2 !! p = Some (Dlist
      {| capacity := u32 (capacity l + DLIST_GROW_SIZE); size := u32 junk;
         entries := [] |})).
    { subst m2. cbn. by rewrite lookup_insert_eq. }
    rewrite (bind_run _ _ _ _ _ (loadList_run _ _ _ Hp0 Hb2')).
    unfold storeList.
    rewrite (bind_run _ _ _ _ _ (store_run _ _ _ _ Hp0 Hb2')).
    cbn [capacity size entries].
    rewrite firstSlots_all by lia.
    unfold DLIST_GROW_SIZE in *. rewrite u32_small by lia.
    set (m3 := putBlock p _ m2).
    assert (Hb3 : heap m3 !! dList = Some (Dlist l)).
    { subst m3. cbn. by rewrite lookup_insert_ne. }
    rewrite (bind_run _ _ _ _ _ (fcramFree_run _ _ _ Hd0 Hb3)).
    intros [= <- <-]. right.
    exists {| capacity := capacity l + 128; size := u32 junk;
              entries := entries l |}.
    split; [|cbn; lia]. split; cbn.
    + rewrite lookup_delete_ne by done. by rewrite lookup_insert_eq.
    + lia.
    + done.
    + unfold DLIST_GROW_SIZE. lia.
    + rewrite Forall_forall in Haddr.
      eapply Forall2_impl_elem; [exact Hnames|]. intros e v He Ht.
      destruct (Haddr e He) as [? ?].
      apply tracks_drop; [done|].
      repeat (apply tracks_put; [lia|]). exact Ht.
    + eapply Forall_impl; [exact Haddr|]. cbn. intros e [? ?].
      split; lia.
  - rewrite (bind_run _ _ _ _ _ (fcramAlloc_denied _ _ Hf)).
    cbn [isNull N.eqb].
    assert (Hb1 : heap (asked m) !! dList = Some (Dlist l)) by done.
    rewrite (bind_run _ _ _ _ _ (fcramFree_run _ _ _ Hd0 Hb1)).
    intros [= <- <-]. by left.
Qed.

Lemma scanEntry_continue lo m dList n vs l filter fi d' n' m' :
  scanning lo m dList n vs l → size l = n → n < 2 ^ 31 →
  scanEntry fcram filter fi dList n m = (Value (Continue d' n'), m') →
  ∃ l', scanning lo m' d' n' (vs ++ (fileView <$> List.filter (kept filter) [fi])) l' ∧
        size l' = n' ∧
        n' = n + Z.of_nat (length (List.filter (kept filter) [fi])).
Proof.
  intros Hsc Hsize Hn. unfold scanEntry. cbn [List.filter]. unfold kept.
  destruct (skipped filter fi); cbn [negb].
  - intros [= <- <- <-]. exists l. cbn. rewrite app_nil_r.
    split; [done|]. split; lia.
  - pose proof (sc_dList _ _ _ _ _ _ Hsc) as Hd.
    assert (Hd0 : dList ≠ 0%N) by lia.
    rewrite (bind_run _ _ _ _ _ (loadList_run _ _ _ Hd0 (sc_block _ _ _ _ _ _ Hsc))).
    intros Hrun. apply bind_value in Hrun as (d1 & m1 & Hgrow & Hrun).
    assert (Hroom : d1 = 0%N ∨ ∃ l1, scanning lo m1 d1 n vs l1 ∧ n < capacity l1).
    { destruct (Z.eqb_spec (size l) (capacity l)) as [Heq|Hne].
      - eapply dlistGrow_granted; [exact Hsc | done | lia | | exact Hgrow].
        unfold DLIST_GROW_SIZE. lia.
      - injection Hgrow as <- <-. right. exists l. split; [done|].
        pose proof (sc_cap _ _ _ _ _ _ Hsc). lia. }
    destruct Hroom as [->|(l1 & Hsc1 & Hroom)]; [discriminate|].
    pose proof (sc_dList _ _ _ _ _ _ Hsc1) as Hd1.
    rewrite isNull_false in Hrun by lia.
    destruct (appendEntry_continue _ _ _ _ _ _ _ _ _ _ Hsc1 Hroom Hn Hrun)
      as (-> & -> & l' & Hsc' & Hsize').
    exists l'. cbn. split; [done|]. split; lia.
Qed.

Lemma scanBatch_continue filter fis : ∀ lo m dList n vs l d' n' m',
  scanning lo m dList n vs l → size l = n →
  n + Z.of_nat (length fis) < 2 ^ 31 →
  scanBatch fcram filter fis dList n m = (Value (Continue d' n'), m') →
  ∃ l', scanning lo m' d' n'
          (vs ++ (fileView <$> List.filter (kept filter) fis)) l' ∧
        size l' = n' ∧
        n' = n + Z.of_nat (length (List.filter (kept filter) fis)).
Proof.
  induction fis as [|fi fis IH]; intros lo m dList n vs l d' n' m' Hsc Hsize Hn.
  - cbn. intros [= <- <- <-]. exists l. rewrite app_nil_r.
    split; [done|]. split; lia.
  - cbn [scanBatch]. intros Hrun.
    apply bind_value in Hrun as ([d1 n1|res d1] & m1 & Hentry & Hrun);
      [|discriminate].
    cbn [length] in Hn.
    destruct (scanEntry_continue _ _ _ _ _ _ _ _ _ _ _ Hsc Hsize ltac:(lia) Hentry)
      as (l1 & Hsc1 & Hsize1 & Hn1).
    pose proof (filter_length_le (kept filter) [fi]) as Hle.
    cbn [length] in Hle.
    destruct (IH _ _ _ _ _ _ _ _ _ Hsc1 Hsize1 ltac:(lia) Hrun)
      as (l' & Hsc' & Hsize' & Hn').
    exists l'.
    change (fi :: fis) with ([fi] ++ fis).
    rewrite List.filter_app, fmap_app, length_app, app_assoc.
    split; [done|]. split; lia.
Qed.

Lemma readLoop_end filter answers : ∀ lo m dList n vs l d' m',
  scanning lo m dList n vs l → size l = n →
  n + Z.of_nat (length (listing answers)) < 2 ^ 31 →
  readLoop fcram filter answers dList n m = (Value (LoopEnd RES_OK d'), m') →
  ∃ l' n', scanning lo m' d' n'
             (vs ++ (fileView <$> List.filter (kept filter) (listing answers))) l' ∧
           size l' = n'.
Proof.
  induction answers as [|answer answers IH];
    intros lo m dList n vs l d' m' Hsc Hsize Hn.
  - cbn. intros [= <- <-]. exists l, n. by rewrite app_nil_r.
  - cbn [readLoop listing] in *.
    destruct (fReadDir answer DIR_READ_BLOCKS) as [res fis].
    destruct (decide (res = RES_OK)) as [Hres|Hres].
    2:{ rewrite bool_decide_eq_false_2 by done. intros [= -> _ _]. done. }
    rewrite bool_decide_eq_true_2 in Hn |- * by done. cbn [negb] in *.
    intros Hrun.
    apply bind_value in Hrun as ([d1 n1|res1 d1] & m1 & Hbatch & Hrun);
      [|discriminate].
    destruct fis as [|fi fis].
    + cbn in Hbatch, Hrun. injection Hbatch as <- <- <-.
      injection Hrun as _ <- <-. exists l, n. by rewrite app_nil_r.
    + cbn [length Nat.eqb] in Hrun. rewrite length_app in Hn.
      assert (Hfis : n + Z.of_nat (length (fi :: fis)) < 2 ^ 31) by lia.
      destruct (scanBatch_continue _ _ _ _ _ _ _ _ _ _ _ Hsc Hsize Hfis Hbatch)
        as (l1 & Hsc1 & Hsize1 & Hn1).
      pose proof (filter_length_le (kept filter) (fi :: fis)) as Hle.
      assert (Hrest : n1 + Z.of_nat (length (listing answers)) < 2 ^ 31) by lia.
      destruct (IH _ _ _ _ _ _ _ _ Hsc1 Hsize1 Hrest Hrun)
        as (l' & n' & Hsc' & Hsize').
      exists l', n'. rewrite List.filter_app, fmap_app, app_assoc. done.
Qed.

(** The label [bail] is only ever reached with [RES_OUT_OF_MEM]. *)
Lemma appendEntry_bail fi dList n m res d' m' :
  appendEntry fcram fi dList n m = (Value (GotoBail res d'), m') →
  res = RES_OUT_OF_MEM.
Proof.
  unfold appendEntry. intros Hrun.
  apply bind_value in Hrun as (p & m1 & _ & Hrun).
  apply bind_value in Hrun as ([] & m2 & _ & Hrun).
  destruct (isNull p); [by injection Hrun as <- _ _|].
  apply bind_value in Hrun as ([] & m3 & _ & Hrun).
  apply bind_value in Hrun as ([] & m4 & _ & Hrun).
  apply bind_value in Hrun as ([] & m5 & _ & Hrun).
  discriminate.
Qed.

Lemma scanEntry_bail filter fi dList n m res d' m' :
  scanEntry fcram filter fi dList n m = (Value (GotoBail res d'), m') →
  res = RES_OUT_OF_MEM.
Proof.
  unfold scanEntry. destruct (skipped filter fi); [discriminate|].
  intros Hrun.
  apply bind_value in Hrun as (l & m1 & _ & Hrun).
  apply bind_value in Hrun as (d1 & m2 & _ & Hrun).
  destruct (isNull d1); [by injection Hrun as <- _ _|].
  by eapply appendEntry_bail.
Qed.

Lemma scanBatch_bail filter fis : ∀ dList n m res d' m',
  scanBatch fcram filter fis dList n m = (Value (GotoBail res d'), m') →
  res = RES_OUT_OF_MEM.
Proof.
  induction fis as [|fi fis IH]; intros dList n m res d' m'; [discriminate|].
  cbn [scanBatch]. intros Hrun.
  apply bind_value in Hrun as ([d1 n1|res1 d1] & m1 & Hentry & Hrun).
  - by eapply IH.
  - injection Hrun as <- _ _. by eapply scanEntry_bail.
Qed.

Lemma readLoop_bail filter answers : ∀ dList n m res d' m',
  readLoop fcram filter answers dList n m = (Value (LoopBail res d'), m') →
  res = RES_OUT_OF_MEM.
Proof.
  induction answers as [|answer answers IH]; intros dList n m res d' m';
    [discriminate|].
  cbn [readLoop]. destruct (fReadDir answer DIR_READ_BLOCKS) as [res0 fis].
  destruct (negb _); [discriminate|]. intros Hrun.
  apply bind_value in Hrun as ([d1 n1|res1 d1] & m1 & Hbatch & Hrun).
  - destruct (length fis =? 0)%nat; [discriminate|]. by eapply IH.
  - injection Hrun as <- _ _. by eapply scanBatch_bail.
Qed.
End ScanProofs.

(** ** The order of the sort *)

Lemma strcmp_flip a : ∀ b, strcmp b a = - strcmp a b.
Proof.
  induction a as [|x a IH]; intros [|y b]; cbn [strcmp]; try lia.
  rewrite (Z.eqb_sym (uchar y)). destruct (uchar x =? uchar y); [apply IH | lia].
Qed.

Global Instance dlistCompare_total h : Total (inOrder (dlistCompare h)).
Proof.
  intros a b. unfold inOrder, dlistCompare.
  rewrite (Z.eqb_sym (type b)).
  destruct (type a =? type b); cbn [negb]; [|lia].
  rewrite (strcmp_flip (nameAt h (name a))). lia.
Qed.

Lemma inOrder_viewLe h a b :
  inOrder (dlistCompare h) a b ↔ viewLe (view h a) (view h b).
Proof. reflexivity. Qed.

Lemma tracks_view h e v : tracks h e v → view h e = v.
Proof.
  intros [Ht Hn]. unfold view, nameAt. rewrite Hn, Ht. by destruct v.
Qed.

Lemma nameAt_put_list h d l0 l p :
  h !! d = Some (Dlist l0) → nameAt (<[d := Dlist l]> h) p = nameAt h p.
Proof.
  intros Hd. unfold nameAt. destruct (decide (d = p)) as [<-|Hne].
  - by rewrite lookup_insert_eq, Hd.
  - by rewrite lookup_insert_ne.
Qed.

Lemma tracks_views h slots vs :
  Forall2 (tracks h) slots vs → view h <$> slots = vs.
Proof.
  induction 1 as [|e v slots vs Ht _ IH]; [reflexivity|].
  cbn. by rewrite (tracks_view _ _ _ Ht), IH.
Qed.

Lemma sortList_value d l m m' :
  d ≠ 0%N → heap m !! d = Some (Dlist l) →
  size l = Z.of_nat (length (entries l)) →
  sortList d m = (Value tt, m') →
  m' = putBlock d
         (Dlist {| capacity := capacity l; size := size l;
                   entries := merge_sort (inOrder (dlistCompare (heap m)))
                                (entries l) |}) m.
Proof.
  intros Hd Hb Hsize. unfold sortList.
  rewrite (bind_run _ _ _ _ _ (loadList_run _ _ _ Hd Hb)).
  destruct (Z.ltb_spec (Z.of_nat (length (entries l))) (size l)); [lia|].
  destruct (_ && _); [discriminate|].
  unfold storeList. rewrite (store_run _ _ _ _ Hd Hb).
  intros [= <-]. unfold qsort.
  rewrite firstSlots_all, drop_all, app_nil_r by lia. reflexivity.
Qed.

Lemma dlistNew_value fcram m d m' :
  dlistNew fcram m = (Value d, m') →
  d = 0%N ∨
  d = N.succ (brk m) ∧ brk m' = d ∧
  heap m' =
    <[d := Dlist {| capacity := DLIST_GROW_SIZE; size := 0; entries := [] |}]>
      (heap m).
Proof.
  unfold dlistNew.
  destruct (fcram (requests m)) as [junk|] eqn:Hf.
  - rewrite (bind_run _ _ _ _ _ (fcramAlloc_granted _ _ _ Hf)).
    set (p := N.succ (brk m)).
    assert (Hp0 : p ≠ 0%N) by lia.
    rewrite (isNull_false _ Hp0).
    set (m1 := asked _).
    assert (Hb1 : heap m1 !! p = Some (Raw junk)).
    { subst m1. cbn. by rewrite lookup_insert_eq. }
    rewrite (bind_run _ _ _ _ _ (setCapacity_fresh _ _ _ _ Hp0 Hb1)).
    set (m2 := putBlock p _ m1).
    assert (Hb2 : heap m2 !! p = Some (Dlist
      {| capacity := DLIST_GROW_SIZE; size := u32 junk; entries := [] |})).
    { subst m2. cbn. by rewrite lookup_insert_eq. }
    rewrite (bind_run _ _ _ _ _ (setSize_run _ _ _ _ Hp0 Hb2)).
    intros [= <- <-]. right. cbn. split; [done|]. split; [done|].
    by rewrite !insert_insert_eq.
  - rewrite (bind_run _ _ _ _ _ (fcramAlloc_denied _ _ Hf)).
    intros [= <- <-]. by left.
Qed.

(** What a scan that returns [RES_OK] leaves in the caller's slot: a list
    holding the admitted entries of the directory, in the order of
    [dlistCompare]. *)
Lemma scan_delivers fcram fs path filter old m slot m' :
  Z.of_nat (length (listing (read_results (fs path)))) < 2 ^ 31 →
  scanDir fcram fs path filter (Some old) m = (Value (RES_OK, slot), m') →
  ∃ dList l,
    slot = Some dList ∧ heap m' !! dList = Some (Dlist l) ∧
    size l = Z.of_nat (length (entries l)) ∧
    Sorted viewLe (listed (heap m') l) ∧
    listed (heap m') l ≡ₚ
      fileView <$> List.filter (kept filter) (listing (read_results (fs path))).
Proof.
  intros Hn. unfold scanDir. intros Hrun.
  apply bind_value in Hrun as ([] & m0 & _ & Hrun).
  apply bind_value in Hrun as (fis & m1 & Hfis & Hrun).
  assert (Hfis' : fis = 0%N ∨ fis = N.succ (brk m0) ∧ brk m1 = fis).
  { unfold fcramAlloc in Hfis.
    destruct (fcram (requests m0)); injection Hfis as <- <-; auto. }
  destruct Hfis' as [->|[Hfis0 Hbrk1]]; [discriminate|].
  rewrite isNull_false in Hrun by lia.
  apply bind_value in Hrun as (dList & m2 & Hnew & Hrun).
  apply dlistNew_value in Hnew as [->|(HdList & Hbrk2 & Hheap2)]; [discriminate|].
  rewrite isNull_false in Hrun by lia.
  assert (Hsc : scanning fis m2 dList 0 []
    {| capacity := DLIST_GROW_SIZE; size := 0; entries := [] |}).
  { split; cbn.
    - rewrite Hheap2. by rewrite lookup_insert_eq.
    - lia.
    - done.
    - unfold DLIST_GROW_SIZE. lia.
    - constructor.
    - constructor. }
  apply bind_value in Hrun as (exit & m3 & Hloop & Hrun).
  assert (Hexit : ∃ d, exit = LoopEnd RES_OK d ∧
    readLoop fcram filter (read_results (fs path)) dList 0 m2 =
      (Value (LoopEnd RES_OK d), m3)).
  { destruct exit as [res d|res d].
    - apply bind_value in Hrun as ([] & m4 & _ & Hrun).
      apply bind_value in Hrun as ([] & m5 & _ & Hrun).
      injection Hrun as -> _ _. exists d. split; [done|].
      case_bool_decide as Hopen; [done|].
      injection Hloop as Hopen' _ _. congruence.
    - apply bind_value in Hrun as ([] & m4 & _ & Hrun).
      apply bind_value in Hrun as ([] & m5 & _ & Hrun).
      injection Hrun as -> _ _.
      case_bool_decide as Hopen; [|discriminate].
      by apply readLoop_bail in Hloop. }
  destruct Hexit as (d & -> & Hloop').
  destruct (readLoop_end _ _ _ _ _ _ _ _ _ _ _ Hsc eq_refl Hn Hloop')
    as (l & n & [Hb Hd Hlen Hcap Hnames Haddr] & Hsize).
  rewrite app_nil_l in Hnames.
  apply bind_value in Hrun as ([] & m4 & Hfree & Hrun).
  apply bind_value in Hrun as ([] & m5 & Hsort & Hrun).
  injection Hrun as <- <-.
  assert (Hm4 : m4 = dropBlock fis m3).
  { unfold fcramFree in Hfree. rewrite isNull_false in Hfree by lia.
    destruct (heap m3 !! fis); [by injection Hfree | discriminate]. }
  assert (Hd0 : d ≠ 0%N) by lia.
  assert (Hb4 : heap m4 !! d = Some (Dlist l)).
  { rewrite Hm4. cbn. rewrite lookup_delete_ne by lia. done. }
  apply (sortList_value _ _ _ _ Hd0 Hb4) in Hsort; [|lia].
  set (sorted := merge_sort _ _) in Hsort.
  assert (Hperm : sorted ≡ₚ entries l) by apply merge_sort_Permutation.
  assert (Hviews : view (heap m5) <$> entries l =
    fileView <$> List.filter (kept filter) (listing (read_results (fs path)))).
  { apply tracks_views. rewrite Forall_forall in Haddr.
    eapply Forall2_impl_elem; [exact Hnames|]. intros e v He Ht.
    destruct (Haddr e He) as [? ?].
    rewrite Hsort, Hm4. cbn.
    apply tracks_put; [done|]. apply tracks_drop; [lia|]. exact Ht. }
  exists d, {| capacity := capacity l; size := size l; entries := sorted |}.
  split; [done|]. split; [rewrite Hsort; cbn; by rewrite lookup_insert_eq|].
  cbn [size entries]. rewrite (Permutation_length Hperm).
  split; [lia|].
  unfold listed. cbn [size entries].
  rewrite firstSlots_all by (rewrite (Permutation_length Hperm); lia).
  split.
  - assert (Hext : view (heap m5) <$> sorted = view (heap m4) <$> sorted).
    { apply list_fmap_ext. intros i e _. unfold view. f_equal.
      rewrite Hsort. cbn. by eapply nameAt_put_list. }
    rewrite Hext.
    eapply Sorted_fmap; [|apply Sorted_merge_sort, dlistCompare_total].
    intros a b Hab. by apply inOrder_viewLe.
  - rewrite <- Hviews. by apply fmap_Permutation.
Qed.

(** ** Names and their order *)

Lemma uchar_inj x y : uchar x = uchar y → x = y.
Proof.
  unfold uchar. intros H. apply N2Z.inj in H.
  rewrite <- (ascii_N_embedding x), <- (ascii_N_embedding y). by rewrite H.
Qed.

Lemma uchar_nonneg x : 0 ≤ uchar x.
Proof. unfold uchar. lia. Qed.

Lemma uchar_zero x : uchar x = 0 → x = NUL.
Proof. intros H. by apply uchar_inj. Qed.

Lemma cstring_wf_cons x s : cstring_wf (x :: s) → x ≠ NUL ∧ cstring_wf s.
Proof.
  unfold cstring_wf. intros H. split.
  - intros ->. apply H. left.
  - intros Hin. apply H. by right.
Qed.

Lemma strcmp_bytes_le a : ∀ b, cstring_wf a → strcmp a b ≤ 0 → bytes_le a b.
Proof.
  induction a as [|x a IH]; intros [|y b] Hwf; cbn [strcmp bytes_le]; try done.
  - apply cstring_wf_cons in Hwf as [Hx _]. intros Hle.
    apply Hx, uchar_zero. pose proof (uchar_nonneg x). lia.
  - apply cstring_wf_cons in Hwf as [_ Hwf].
    destruct (Z.eqb_spec (uchar x) (uchar y)) as [Heq|Hne]; intros Hle.
    + right. split; [by apply uchar_inj | by apply IH].
    + left. lia.
Qed.

Lemma strcmp_eq a : ∀ b, cstring_wf a → cstring_wf b → strcmp a b = 0 ↔ a = b.
Proof.
  induction a as [|x a IH]; intros [|y b] Ha Hb; cbn [strcmp]; try done.
  - apply cstring_wf_cons in Hb as [Hy _]. split; [|done].
    intros H. exfalso. apply Hy, uchar_zero. lia.
  - apply cstring_wf_cons in Ha as [Hx _]. split; [|done].
    intros H. exfalso. apply Hx, uchar_zero. lia.
  - apply cstring_wf_cons in Ha as [_ Ha]. apply cstring_wf_cons in Hb as [_ Hb].
    destruct (Z.eqb_spec (uchar x) (uchar y)) as [Heq|Hne].
    + apply uchar_inj in Heq as ->. rewrite (IH b Ha Hb).
      split; [by intros -> | by intros [= ->]].
    + split; [lia | intros [= -> _]; done].
Qed.

Lemma cstring_wf_drop n s : cstring_wf s → cstring_wf (drop n s).
Proof.
  unfold cstring_wf. intros H Hin. apply H.
  rewrite <- (take_drop n s). apply elem_of_app. by right.
Qed.

(** ** Sorted lists, by index *)

Lemma Sorted_weaken {A} (R1 R2 : relation A) l :
  (∀ x y, R1 x y → R2 x y) → Sorted R1 l → Sorted R2 l.
Proof.
  intros H12. induction 1 as [|x l _ IH Hhd]; constructor; [done|].
  destruct Hhd; constructor. by apply H12.
Qed.

Lemma Sorted_lookup_next {A} (R : relation A) l i a b :
  Sorted R l → l !! i = Some a → l !! S i = Some b → R a b.
Proof.
  intros Hs. revert i. induction Hs as [|x l Hs IH Hhd]; intros i; [done|].
  destruct i as [|i]; cbn.
  - intros [= ->] Hb. destruct Hhd as [|y l Hxy]; [done|].
    cbn in Hb. by injection Hb as <-.
  - apply IH.
Qed.

Lemma StronglySorted_lookup_lt {A} (R : relation A) l i j a b :
  StronglySorted R l → (i < j)%nat → l !! i = Some a → l !! j = Some b → R a b.
Proof.
  intros Hs. revert i j. induction Hs as [|x l Hs IH Hall]; intros i j; [done|].
  destruct i as [|i], j as [|j]; cbn; try lia.
  - intros _ [= ->] Hb. rewrite Forall_forall in Hall.
    apply Hall. by eapply list_elem_of_lookup_2.
  - intros Hij. apply IH. lia.
Qed.

Global Instance kindGe_trans : Transitive kindGe.
Proof. unfold kindGe. intros a b c. lia. Qed.

Lemma viewLe_kind a b : viewLe a b → kindGe a b.
Proof.
  unfold viewLe, kindGe.
  destruct (Z.eqb_spec a.1 b.1); cbn [negb]; lia.
Qed.

Lemma viewLe_name a b : viewLe a b → a.1 = b.1 → strcmp a.2 b.2 ≤ 0.
Proof.
  unfold viewLe. intros H Heq. by rewrite Heq, Z.eqb_refl in H.
Qed.

Lemma entTypeOf_kind fi :
  entTypeOf fi = ENTRY_FILE ∨ entTypeOf fi = ENTRY_DIRECTORY.
Proof. unfold entTypeOf. destruct (_ =? 0); auto. Qed.

Lemma delivered_served filter served (v : list (Z * cstring)) a :
  v ≡ₚ fileView <$> List.filter (kept filter) served → a ∈ v →
  ∃ fi, a = fileView fi ∧ fi ∈ served ∧ kept filter fi = true.
Proof.
  intros Hperm Ha. rewrite Hperm in Ha.
  apply list_elem_of_fmap in Ha as (fi & -> & Hfi).
  apply list_elem_of_In, filter_In in Hfi as [Hin Hadm].
  exists fi. split; [done|]. split; [by apply list_elem_of_In | done].
Qed.

(** C5: the list a successful scan leaves in the slot is sorted by kind and
    name: every Directory entry comes before every File entry, and of two
    neighbours of the same kind the first name is not above the second in
    byte-wise lexicographic order. *)
Theorem scan_result_sorted fcram fs path filter old m dList m' :
  Forall (λ fi, cstring_wf (fname fi)) (listing (read_results (fs path))) →
  Z.of_nat (length (listing (read_results (fs path)))) < 2 ^ 31 →
  scanDir fcram fs path filter (Some old) m = (Value (RES_OK, Some dList), m') →
  ∃ l, heap m' !! dList = Some (Dlist l) ∧
    let v := listed (heap m') l in
    Z.of_nat (length v) = size l ∧
    Forall (λ a, a.1 = ENTRY_FILE ∨ a.1 = ENTRY_DIRECTORY) v ∧
    (∀ i j a b, v !! i = Some a → v !! j = Some b →
       a.1 = ENTRY_DIRECTORY → b.1 = ENTRY_FILE → (i < j)%nat) ∧
    (∀ i a b, v !! i = Some a → v !! S i = Some b →
       a.1 = b.1 → bytes_le a.2 b.2).
Proof.
  intros Hwf Hn Hrun.
  destruct (scan_delivers _ _ _ _ _ _ _ _ Hn Hrun)
    as (d & l & [= <-] & Hb & Hsize & Hsorted & Hperm).
  exists l. split; [done|]. cbn zeta.
  set (v := listed (heap m') l) in *.
  split; [|split; [|split]].
  - subst v. unfold listed. rewrite length_fmap, firstSlots_all by lia. lia.
  - apply Forall_forall. intros a Ha.
    destruct (delivered_served _ _ _ _ Hperm Ha) as (fi & -> & _ & _).
    apply entTypeOf_kind.
  - intros i j a b Hi Hj Ha Hb'.
    assert (Hkinds : StronglySorted kindGe v).
    { apply Sorted_StronglySorted; [apply _|].
      eapply Sorted_weaken; [|exact Hsorted]. exact viewLe_kind. }
    destruct (Nat.lt_trichotomy i j) as [Hlt|[->|Hgt]]; [done| |].
    + rewrite Hi in Hj. injection Hj as <-.
      rewrite Ha in Hb'. discriminate.
    + pose proof (StronglySorted_lookup_lt _ _ _ _ _ _ Hkinds Hgt Hj Hi) as Hge.
      unfold kindGe in Hge. rewrite Ha, Hb' in Hge.
      unfold ENTRY_DIRECTORY, ENTRY_FILE in Hge. lia.
  - intros i a b Hi Hj Hkind.
    apply strcmp_bytes_le.
    + apply list_elem_of_lookup_2 in Hi.
      destruct (delivered_served _ _ _ _ Hperm Hi) as (fi & -> & Hfi & _).
      rewrite Forall_forall in Hwf. by apply Hwf.
    + apply viewLe_name; [|done]. by eapply Sorted_lookup_next.
Qed.

Lemma scan_result_sorted_witness :
  ∃ l,
    heap (scanDir generous (λ _, romDir) (cstr "sdmc:/") (cstr ".gba")
            (Some 0%N) mem0).2 !! 2%N = Some (Dlist l) ∧
    let v := listed (heap (scanDir generous (λ _, romDir) (cstr "sdmc:/")
                             (cstr ".gba") (Some 0%N) mem0).2) l in
    Z.of_nat (length v) = size l ∧
    Forall (λ a, a.1 = ENTRY_FILE ∨ a.1 = ENTRY_DIRECTORY) v ∧
    (∀ i j a b, v !! i = Some a → v !! j = Some b →
       a.1 = ENTRY_DIRECTORY → b.1 = ENTRY_FILE → (i < j)%nat) ∧
    (∀ i a b, v !! i = Some a → v !! S i = Some b →
       a.1 = b.1 → bytes_le a.2 b.2).
Proof.
  apply (scan_result_sorted generous (λ _, romDir) (cstr "sdmc:/")
           (cstr ".gba") 0%N mem0 2%N).
  - apply (bool_decide_unpack _). vm_compute. exact I.
  - vm_compute. reflexivity.
  - vm_compute. reflexivity.
Defined.

(** ** The filter *)

Lemma drop_suffix (f s : cstring) :
  (length f < length s)%nat →
  drop (length s - length f) s = f ↔ f `suffix_of` s.
Proof.
  intros Hlen. split.
  - intros Hdrop. exists (take (length s - length f) s).
    rewrite <- Hdrop at 2. by rewrite take_drop.
  - intros [k ->]. rewrite length_app.
    replace (length k + length f - length f)%nat with (length k) by lia.
    apply drop_app_length.
Qed.

(** The loop keeps an entry exactly when it is a directory, or a file whose
    name is longer than the filter, ends with it and does not start with a
    dot. *)
Lemma kept_iff filter fi :
  cstring_wf filter → cstring_wf (fname fi) →
  kept filter fi = true ↔
    entTypeOf fi = ENTRY_DIRECTORY ∨
    entTypeOf fi = ENTRY_FILE ∧
    (length filter < length (fname fi))%nat ∧
    filter `suffix_of` fname fi ∧
    head (fname fi) ≠ Some "."%char.
Proof.
  intros Hf Hname. unfold kept, skipped, strlen.
  destruct (entTypeOf_kind fi) as [Hk|Hk]; rewrite Hk;
    unfold ENTRY_FILE, ENTRY_DIRECTORY; cbn [Z.eqb negb].
  2:{ split; [by left | done]. }
  rewrite negb_true_iff, !orb_false_iff, negb_false_iff.
  rewrite Z.leb_gt, Z.eqb_eq, bool_decide_eq_false.
  split.
  - intros [[Hlen Hcmp] Hdot]. right.
    assert (Hlen' : (length filter < length (fname fi))%nat) by lia.
    split; [done|]. split; [done|]. split; [|done].
    apply drop_suffix; [done|].
    apply strcmp_eq in Hcmp; [|done|by apply cstring_wf_drop].
    replace (length (fname fi) - length filter)%nat
      with (Z.to_nat (Z.of_nat (length (fname fi)) - Z.of_nat (length filter)))
      by lia.
    by symmetry.
  - intros [Hdir|(_ & Hlen & Hsuf & Hdot)]; [discriminate|].
    split; [split|done]; [lia|].
    apply strcmp_eq; [done | by apply cstring_wf_drop |].
    apply drop_suffix in Hsuf; [|done].
    replace (Z.to_nat (Z.of_nat (length (fname fi)) - Z.of_nat (length filter)))
      with (length (fname fi) - length filter)%nat by lia.
    by symmetry.
Qed.

(** C6: the list a successful scan with filter [filter] leaves in the slot
    holds, entry for entry, the served entries the loop admitted; a File
    entry is admitted exactly when its name is longer than the filter, ends
    with the filter byte for byte, and does not begin with a dot, and a
    Directory entry always is. *)
Theorem scan_filter fcram fs path filter old m dList m' :
  cstring_wf filter →
  Forall (λ fi, cstring_wf (fname fi)) (listing (read_results (fs path))) →
  Z.of_nat (length (listing (read_results (fs path)))) < 2 ^ 31 →
  scanDir fcram fs path filter (Some old) m = (Value (RES_OK, Some dList), m') →
  ∃ l, heap m' !! dList = Some (Dlist l) ∧
    listed (heap m') l ≡ₚ
      fileView <$> List.filter (kept filter) (listing (read_results (fs path))) ∧
    ∀ fi, fi ∈ listing (read_results (fs path)) →
      (entTypeOf fi = ENTRY_DIRECTORY → kept filter fi = true) ∧
      (entTypeOf fi = ENTRY_FILE →
         kept filter fi = true ↔
           (length filter < length (fname fi))%nat ∧
           filter `suffix_of` fname fi ∧
           head (fname fi) ≠ Some "."%char).
Proof.
  intros Hf Hwf Hn Hrun.
  destruct (scan_delivers _ _ _ _ _ _ _ _ Hn Hrun)
    as (d & l & [= <-] & Hb & _ & _ & Hperm).
  exists l. split; [done|]. split; [done|].
  intros fi Hfi. rewrite Forall_forall in Hwf.
  pose proof (kept_iff filter fi Hf (Hwf _ Hfi)) as Hiff.
  split.
  - intros Hdir. apply Hiff. by left.
  - intros Hfile. rewrite Hiff. split.
    + intros [Hdir|(_ & H)]; [|done]. rewrite Hfile in Hdir. discriminate.
    + intros H. by right.
Qed.

Lemma scan_filter_witness :
  ∃ l,
    heap (scanDir generous (λ _, crowdedDir) (cstr "sdmc:/") (cstr ".gba")
            (Some 0%N) mem0).2 !! 131%N = Some (Dlist l) ∧
    listed (heap (scanDir generous (λ _, crowdedDir) (cstr "sdmc:/")
                    (cstr ".gba") (Some 0%N) mem0).2) l ≡ₚ
      fileView <$> List.filter (kept (cstr ".gba"))
                     (listing (read_results crowdedDir)) ∧
    ∀ fi, fi ∈ listing (read_results crowdedDir) →
      (entTypeOf fi = ENTRY_DIRECTORY → kept (cstr ".gba") fi = true) ∧
      (entTypeOf fi = ENTRY_FILE →
         kept (cstr ".gba") fi = true ↔
           (length (cstr ".gba") < length (fname fi))%nat ∧
           cstr ".gba" `suffix_of` fname fi ∧
           head (fname fi) ≠ Some "."%char).
Proof.
  apply (scan_filter generous (λ _, crowdedDir) (cstr "sdmc:/") (cstr ".gba")
           0%N mem0 131%N).
  - apply (bool_decide_unpack _). vm_compute. exact I.
  - apply (bool_decide_unpack _). vm_compute. exact I.
  - vm_compute. reflexivity.
  - vm_compute. reflexivity.
Defined.

(** ** Where the scan loses memory *)

(** C1: a directory with 130 sub-directories is scanned, and the 131st
    request to the allocator, the one [dlistGrow] makes when the 129th entry
    finds the list full, is denied. [dlistGrow] releases the list and
    returns NULL, the scan goes to [bail] with NULL in [dList], and
    [dlistFree] reads through it; the 128 names allocated so far are the
    only blocks left, and nothing points to them any more. *)
Theorem scan_grow_failure_leaks_names :
  let run := scanDir (denyAt 130 0) (λ _, crowdedDir) (cstr "sdmc:/")
               (cstr ".gba") (Some 0%N) mem0 in
  run.1 = Undefined NullDeref ∧
  liveNames run.2 = 128%nat ∧
  liveBlocks run.2 = 128%nat.
Proof. vm_compute. repeat split. Qed.

(** C2: the list of a first scan sits in the slot (address 2, four names).
    A second scan that succeeds leaves the four old names live beside the
    four new ones; a second scan whose first allocation is denied returns
    [RES_OUT_OF_MEM] with the slot still holding address 2, whose block is
    gone while its four names remain, and the release of lines 332-336 then
    reads the released block. *)
Theorem rescan_keeps_old_names :
  let first := scanDir generous (λ _, romDir) (cstr "sdmc:/") (cstr ".gba")
                 (Some 0%N) mem0 in
  let again := scanDir generous (λ _, romDir) (cstr "sdmc:/") (cstr ".gba")
                 (Some 2%N) first.2 in
  let failed := scanDir (denyAt 6 0) (λ _, romDir) (cstr "sdmc:/") (cstr ".gba")
                  (Some 2%N) first.2 in
  first.1 = Value (RES_OK, Some 2%N) ∧ liveNames first.2 = 4%nat ∧
  (again.1 = Value (RES_OK, Some 8%N) ∧
   size <$> listAt again.2 8%N = Some 4 ∧
   liveNames again.2 = 8%nat) ∧
  (failed.1 = Value (RES_OUT_OF_MEM, Some 2%N) ∧
   heap failed.2 !! 2%N = None ∧
   liveNames failed.2 = 4%nat ∧
   (browseFiles_end 2%N failed.2).1 = Undefined UseAfterFree).
Proof. vm_compute. repeat split. Qed.

(** C10: the same directory of 130 sub-directories, with the allocator
    granting the growth (request 131) and denying the name after it
    (request 132). The grown list's [size] is whatever its memory held, so at
    [bail] [dlistFree] walks that many slots: with zeroed memory it frees no
    name and leaves all 128 live; with a large value it runs past the
    written slots. *)
Theorem scan_after_grow_size_unset :
  let zeroed := scanDir (denyAt 131 0) (λ _, crowdedDir) (cstr "sdmc:/")
                  (cstr ".gba") (Some 0%N) mem0 in
  let dirty := scanDir (denyAt 131 4000000000) (λ _, crowdedDir)
                 (cstr "sdmc:/") (cstr ".gba") (Some 0%N) mem0 in
  (zeroed.1 = Value (RES_OUT_OF_MEM, Some 0%N) ∧
   liveNames zeroed.2 = 128%nat ∧ liveBlocks zeroed.2 = 128%nat) ∧
  dirty.1 = Undefined UninitRead.
Proof. vm_compute. repeat split. Qed.

(** * Further properties *)

(** ** Configuration and save paths *)

Lemma scanBack_last_sep (dir file : cstring) :
  "/"%char ∉ file →
  scanBack (dir ++ cstr "/" ++ file) (length (dir ++ cstr "/" ++ file))
    = Some (length dir).
Proof.
  intros Hfile. set (s := dir ++ cstr "/" ++ file).
  rewrite (scanBack_skip s (length s) (S (length dir))).
  - cbn [scanBack].
    assert (s !! length dir = Some "/"%char) as ->.
    { subst s. rewrite lookup_app_r by lia. by rewrite Nat.sub_diag. }
    by rewrite bool_decide_eq_true_2.
  - subst s. rewrite !length_app. cbn. lia.
  - intros i Hi Hsl. apply Hfile. subst s.
    rewrite lookup_app_r in Hsl by lia.
    destruct (i - length dir)%nat as [|k] eqn:Hk; [lia|].
    cbn in Hsl. eapply list_elem_of_lookup_2, Hsl.
Qed.

Lemma scanBack_none (s : cstring) p :
  "/"%char ∉ s → scanBack s p = None.
Proof.
  intros Hs. induction p as [|p IH]; [reflexivity|]. cbn [scanBack].
  case_bool_decide as Hp; [|exact IH].
  exfalso. apply Hs. eapply list_elem_of_lookup_2, Hp.
Qed.

Lemma strlen_app (a b : cstring) : strlen (a ++ b) = strlen a + strlen b.
Proof. unfold strlen. rewrite length_app. lia. Qed.

Lemma strlen_nonneg (a : cstring) : 0 ≤ strlen a.
Proof. unfold strlen. lia. Qed.

Lemma replaceTail_ext (stem ext new : cstring) r :
  length ext = 4%nat → strlen stem + strlen new + 1 ≤ r →
  replaceTail {| content := stem ++ ext; room := r |} new
    = Value {| content := stem ++ new; room := r |}.
Proof.
  intros Hext Hroom. unfold replaceTail. cbn [content room].
  rewrite strlen_app. unfold strlen in *. rewrite Hext.
  change (Z.of_nat 4) with 4.
  destruct (Z.ltb_spec (Z.of_nat (length stem) + 4) 4); [lia|].
  destruct (Z.ltb_spec r (Z.of_nat (length stem) + 4 - 4
                           + Z.of_nat (length new) + 1)); [lia|].
  replace (Z.to_nat (Z.of_nat (length stem) + 4 - 4)) with (length stem)
    by lia.
  by rewrite take_app_length.
Qed.

Lemma replaceTail_tight (stem ext new : cstring) r :
  length ext = 4%nat → r < strlen stem + strlen new + 1 →
  replaceTail {| content := stem ++ ext; room := r |} new
    = Undefined OutOfBounds.
Proof.
  intros Hext Hroom. unfold replaceTail. cbn [content room].
  rewrite strlen_app. unfold strlen in *. rewrite Hext.
  change (Z.of_nat 4) with 4.
  destruct (Z.ltb_spec (Z.of_nat (length stem) + 4) 4); [lia|].
  destruct (Z.ltb_spec r (Z.of_nat (length stem) + 4 - 4
                           + Z.of_nat (length new) + 1)); [done | lia].
Qed.

Lemma direct_config_path saveDir (stem ext : cstring) :
  length ext = 4%nat →
  rom2GameCfgPath false saveDir true (stem ++ ext) =
    Value (Some {| content := stem ++ cstr ".ini";
                   room := strlen (stem ++ ext) + 1 |}).
Proof.
  intros Hext.
  unfold rom2GameCfgPath, bufCopy. cbn [negb room bindR].
  destruct (Z.ltb_spec (strlen (stem ++ ext) + 1) (strlen (stem ++ ext) + 1));
    [lia|].
  cbn [bindR]. rewrite replaceTail_ext; [done | done |].
  rewrite strlen_app. unfold strlen. rewrite Hext. cbn. lia.
Qed.

(** X1: without the saves folder, the configuration path is the ROM path
    with its last four characters replaced by ".ini", in a buffer of exactly
    the ROM path's size; a denied [malloc] gives NULL. *)
Theorem rom2GameCfgPath_direct saveDir (stem ext : cstring) :
  length ext = 4%nat →
  rom2GameCfgPath false saveDir true (stem ++ ext) =
    Value (Some {| content := stem ++ cstr ".ini";
                   room := strlen (stem ++ ext) + 1 |}) ∧
  rom2GameCfgPath false saveDir false (stem ++ ext) = Value None.
Proof.
  intros Hext. split; [|reflexivity].
  unfold rom2GameCfgPath, bufCopy. cbn [negb room bindR].
  destruct (Z.ltb_spec (strlen (stem ++ ext) + 1) (strlen (stem ++ ext) + 1));
    [lia|].
  cbn [bindR]. rewrite replaceTail_ext; [done | done |].
  rewrite strlen_app. unfold strlen. rewrite Hext. cbn. lia.
Qed.

Lemma rom2GameCfgPath_direct_witness :
  rom2GameCfgPath false (cstr "saves") true (cstr "sdmc:/roms/game" ++ cstr ".gba") =
    Value (Some {| content := cstr "sdmc:/roms/game" ++ cstr ".ini";
                   room := strlen (cstr "sdmc:/roms/game" ++ cstr ".gba") + 1 |}) ∧
  rom2GameCfgPath false (cstr "saves") false (cstr "sdmc:/roms/game" ++ cstr ".gba")
    = Value None.
Proof. apply rom2GameCfgPath_direct. reflexivity. Defined.

Lemma saves_folder_prefix saveDir (dir stem ext : cstring) :
  "/"%char ∉ stem ++ ext → length ext = 4%nat →
  rom2GameCfgPath true saveDir true (dir ++ cstr "/" ++ stem ++ ext) =
    Value (Some {| content := saveDir ++ cstr "/" ++ stem ++ cstr ".ini";
                   room := strlen saveDir + strlen stem + 8 |}).
Proof.
  intros Hfile Hext. unfold rom2GameCfgPath.
  rewrite scanBack_last_sep by done. cbv zeta.
  assert (Hdrop : drop (S (length dir)) (dir ++ cstr "/" ++ stem ++ ext)
                  = stem ++ ext).
  { rewrite drop_app_ge by lia.
    by replace (S (length dir) - length dir)%nat with 1%nat by lia. }
  rewrite Hdrop. cbn [negb]. unfold bufCopy, bufCat. cbn [room content].
  rewrite !strlen_app. pose proof (strlen_nonneg saveDir).
  pose proof (strlen_nonneg stem).
  assert (Hext' : strlen ext = 4) by (unfold strlen; lia).
  rewrite Hext'. change (strlen (cstr "/")) with 1.
  destruct (Z.ltb_spec (strlen stem + 4 + (strlen saveDir + 1) + 2 + 1)
              (strlen saveDir + 1 + 1)); [lia|].
  cbn [bindR content room].
  rewrite ?strlen_app, ?Hext'. change (strlen (cstr "/")) with 1.
  destruct (Z.ltb_spec (strlen stem + 4 + (strlen saveDir + 1) + 2 + 1)
              (strlen saveDir + 1 + (strlen stem + 4) + 1)); [lia|].
  cbn [bindR].
  replace ((saveDir ++ cstr "/") ++ stem ++ ext)
    with ((saveDir ++ cstr "/" ++ stem) ++ ext) by by rewrite <- !app_assoc.
  rewrite replaceTail_ext; [|done|].
  - cbn [bindR]. do 3 f_equal; [by rewrite <- !app_assoc | lia].
  - rewrite !strlen_app. change (strlen (cstr "/")) with 1.
    change (strlen (cstr ".ini")) with 4. lia.
Qed.

(** X2: with the saves folder, the configuration path is the ROM's file
    name, moved into [OAF_SAVE_DIR] and with its last four characters
    replaced by ".ini", in a buffer with room for two more characters; a ROM
    path without any separator sends [strrchr]'s NULL into [strlen]. *)
Theorem rom2GameCfgPath_saves_folder saveDir (dir stem ext : cstring) :
  "/"%char ∉ stem ++ ext → length ext = 4%nat →
  rom2GameCfgPath true saveDir true (dir ++ cstr "/" ++ stem ++ ext) =
    Value (Some {| content := saveDir ++ cstr "/" ++ stem ++ cstr ".ini";
                   room := strlen saveDir + strlen stem + 8 |}) ∧
  rom2GameCfgPath true saveDir true (stem ++ ext) = Undefined NullDeref.
Proof.
  intros Hfile Hext. split; [by apply saves_folder_prefix|].
  unfold rom2GameCfgPath. by rewrite scanBack_none.
Qed.

Lemma no_separator_dec (s : cstring) :
  bool_decide ("/"%char ∉ s) = true → "/"%char ∉ s.
Proof. apply bool_decide_eq_true_1. Qed.

Lemma rom2GameCfgPath_saves_folder_witness :
  rom2GameCfgPath true (cstr "saves") true
      (cstr "sdmc:/roms" ++ cstr "/" ++ cstr "game" ++ cstr ".gba") =
    Value (Some {| content := cstr "saves" ++ cstr "/" ++ cstr "game" ++ cstr ".ini";
                   room := strlen (cstr "saves") + strlen (cstr "game") + 8 |}) ∧
  rom2GameCfgPath true (cstr "saves") true (cstr "game" ++ cstr ".gba")
    = Undefined NullDeref.
Proof.
  apply rom2GameCfgPath_saves_folder; [|reflexivity].
  apply no_separator_dec. vm_compute. reflexivity.
Defined.

(** The extension [gameCfg2SavePath] writes for a slot from 0 to 9. *)
Lemma digitChar_digits :
  digitChar <$> [1; 2; 3; 4; 5; 6; 7; 8; 9] = cstr "123456789".
Proof. reflexivity. Qed.

(** X3: with the saves folder, the save path of a ROM is its file name moved
    into [OAF_SAVE_DIR] with the extension ".sav" for slot 0 and ".N.sav"
    for slot N from 1 to 9, and the empty string for a slot above 9; the two
    spare bytes of the buffer are exactly what the longer extension
    needs. *)
Theorem savePathOf_saves_folder saveDir (dir stem ext : cstring) saveSlot :
  "/"%char ∉ stem ++ ext → length ext = 4%nat → 0 ≤ saveSlot →
  savePathOf true saveDir (dir ++ cstr "/" ++ stem ++ ext) saveSlot =
    Value (Some
      {| content :=
           if saveSlot >? 9 then []
           else saveDir ++ cstr "/" ++ stem ++
                (if saveSlot =? 0 then cstr ".sav"
                 else ["."%char; digitChar saveSlot] ++ cstr ".sav");
         room := strlen saveDir + strlen stem + 8 |}).
Proof.
  intros Hfile Hext Hslot. unfold savePathOf.
  rewrite saves_folder_prefix by done. cbn [bindR].
  unfold gameCfg2SavePath. cbn [room].
  destruct (Z.gtb_spec saveSlot 9); [reflexivity|].
  replace (saveDir ++ cstr "/" ++ stem ++ cstr ".ini")
    with ((saveDir ++ cstr "/" ++ stem) ++ cstr ".ini")
    by by rewrite <- !app_assoc.
  rewrite replaceTail_ext; [| reflexivity |].
  - cbn [bindR]. do 3 f_equal. by rewrite <- !app_assoc.
  - rewrite !strlen_app. change (strlen (cstr "/")) with 1.
    assert (strlen (if saveSlot =? 0 then cstr ".sav"
                    else ["."%char; digitChar saveSlot] ++ cstr ".sav") ≤ 6)
      by by destruct (saveSlot =? 0).
    lia.
Qed.

Lemma savePathOf_saves_folder_witness :
  savePathOf true (cstr "saves")
      (cstr "sdmc:/roms" ++ cstr "/" ++ cstr "game" ++ cstr ".gba") 3 =
    Value (Some {| content := cstr "saves/game.3.sav"; room := 17 |}).
Proof.
  apply (savePathOf_saves_folder (cstr "saves") (cstr "sdmc:/roms")
           (cstr "game") (cstr ".gba") 3); [|reflexivity|lia].
  apply no_separator_dec. vm_compute. reflexivity.
Defined.

(** X4: without the saves folder the buffer is exactly as large as the ROM
    path, so the save path of slot 0 (".sav" for the last four characters)
    fits, while the ".N.sav" of a slot from 1 to 9 is written two bytes past
    the end of the buffer. *)
Theorem savePathOf_direct saveDir (stem ext : cstring) saveSlot :
  length ext = 4%nat →
  savePathOf false saveDir (stem ++ ext) 0 =
    Value (Some {| content := stem ++ cstr ".sav";
                   room := strlen (stem ++ ext) + 1 |}) ∧
  (1 ≤ saveSlot ≤ 9 →
   savePathOf false saveDir (stem ++ ext) saveSlot = Undefined OutOfBounds).
Proof.
  intros Hext. unfold savePathOf.
  rewrite (direct_config_path saveDir stem ext Hext).
  cbn [bindR]. unfold gameCfg2SavePath. cbn [room].
  assert (Hlen : strlen (stem ++ ext) = strlen stem + 4).
  { rewrite strlen_app. unfold strlen. lia. }
  split.
  - cbn [Z.gtb Z.compare Z.eqb]. rewrite replaceTail_ext; [done | done |].
    rewrite Hlen. change (strlen (cstr ".sav")) with 4. lia.
  - intros Hslot. destruct (Z.gtb_spec saveSlot 9); [lia|].
    destruct (Z.eqb_spec saveSlot 0); [lia|].
    rewrite replaceTail_tight; [done | done |].
    rewrite Hlen.
    change (strlen (["."%char; digitChar saveSlot] ++ cstr ".sav")) with 6.
    lia.
Qed.

Lemma savePathOf_direct_witness :
  savePathOf false (cstr "saves") (cstr "sdmc:/roms/game" ++ cstr ".gba") 0 =
    Value (Some {| content := cstr "sdmc:/roms/game" ++ cstr ".sav";
                   room := strlen (cstr "sdmc:/roms/game" ++ cstr ".gba") + 1 |}) ∧
  (1 ≤ 3 ≤ 9 →
   savePathOf false (cstr "saves") (cstr "sdmc:/roms/game" ++ cstr ".gba") 3
     = Undefined OutOfBounds).
Proof. apply savePathOf_direct. reflexivity. Defined.

(** ** Button maps *)

Lemma u16_range z : 0 ≤ u16 z < 2 ^ 16.
Proof. unfold u16. apply Z.mod_pos_bound. lia. Qed.

Lemma u16_testbit_high bits j :
  0 ≤ bits < 2 ^ 16 → 16 ≤ j → Z.testbit bits j = false.
Proof.
  intros Hb Hj. rewrite <- (Z.mod_small bits (2 ^ 16)) by lia.
  rewrite Z.testbit_mod_pow2 by lia.
  destruct (Z.ltb_spec j 16); [lia | reflexivity].
Qed.

Lemma setBit_testbit bits i j :
  0 ≤ bits < 2 ^ 16 → 0 ≤ i < 16 → 0 ≤ j →
  Z.testbit (u16 (Z.lor bits (Z.shiftl 1 i))) j = Z.testbit bits j || (j =? i).
Proof.
  intros Hb Hi Hj. unfold u16. rewrite Z.testbit_mod_pow2 by lia.
  rewrite Z.lor_spec, Z.shiftl_spec by lia.
  destruct (Z.eqb_spec j i) as [->|Hne].
  - rewrite Z.sub_diag. cbn. rewrite !orb_true_r.
    destruct (Z.ltb_spec i 16); [reflexivity | lia].
  - assert (Z.testbit 1 (j - i) = false) as ->.
    { destruct (Z.lt_ge_cases (j - i) 0).
      - by apply Z.testbit_neg_r.
      - apply Z.bits_above_log2; cbn; lia. }
    rewrite !orb_false_r.
    destruct (Z.ltb_spec j 16); [reflexivity|].
    cbn [andb]. symmetry. by apply u16_testbit_high.
Qed.

Lemma collectBits_bits hit maps count : ∀ i bits,
  0 ≤ i → i + Z.of_nat count ≤ 16 →
  (Z.to_nat i + count ≤ length maps)%nat →
  0 ≤ bits < 2 ^ 16 →
  ∃ v, collectBits hit maps count i bits = Value v ∧
       0 ≤ v < 2 ^ 16 ∧
       ∀ j, 0 ≤ j →
         Z.testbit v j =
           Z.testbit bits j
           || ((i <=? j) && (j <? i + Z.of_nat count) && hitAt hit maps j).
Proof.
  induction count as [|count IH]; intros i bits Hi Hhi Hlen Hb.
  - exists bits. split; [reflexivity|]. split; [done|]. intros j Hj.
    replace (j <? i + Z.of_nat 0) with (j <? i) by (f_equal; lia).
    destruct (Z.leb_spec i j), (Z.ltb_spec j i); try lia;
      by rewrite orb_false_r.
  - cbn [collectBits].
    destruct (maps !! Z.to_nat i) as [map|] eqn:Hmap.
    2:{ apply lookup_ge_None in Hmap. lia. }
    set (bits' := if hit map then u16 (Z.lor bits (Z.shiftl 1 i)) else bits).
    assert (Hb' : 0 ≤ bits' < 2 ^ 16).
    { subst bits'. destruct (hit map); [apply u16_range | done]. }
    destruct (IH (i + 1) bits') as (v & Hv & Hrange & Hbits);
      [lia | lia | lia | done |].
    exists v. split; [exact Hv|]. split; [done|].
    intros j Hj. rewrite (Hbits j Hj).
    assert (Hstep : Z.testbit bits' j
                    = Z.testbit bits j || ((j =? i) && hit map)).
    { subst bits'. destruct (hit map).
      - rewrite setBit_testbit by lia. by rewrite andb_true_r.
      - by rewrite andb_false_r, orb_false_r. }
    rewrite Hstep.
    replace (i + 1 + Z.of_nat count) with (i + Z.of_nat (S count)) by lia.
    destruct (Z.eqb_spec j i) as [->|Hne].
    + unfold hitAt. rewrite Hmap.
      destruct (Z.leb_spec (i + 1) i), (Z.leb_spec i i),
        (Z.ltb_spec i (i + Z.of_nat (S count))); try lia.
      cbn. by rewrite orb_false_r.
    + cbn [andb]. rewrite orb_false_r. f_equal.
      destruct (Z.leb_spec (i + 1) j), (Z.leb_spec i j); try lia; reflexivity.
Qed.

Lemma collectBits_ten hit maps :
  (10 ≤ length maps)%nat →
  ∃ v, collectBits hit maps 10 0 0 = Value v ∧
       0 ≤ v < 2 ^ 10 ∧
       ∀ j, 0 ≤ j → Z.testbit v j = (j <? 10) && hitAt hit maps j.
Proof.
  intros Hlen.
  destruct (collectBits_bits hit maps 10 0 0) as (v & Hv & Hrange & Hbits);
    [lia | lia | lia | lia |].
  assert (Hspec : ∀ j, 0 ≤ j → Z.testbit v j = (j <? 10) && hitAt hit maps j).
  { intros j Hj. rewrite (Hbits j Hj), Z.bits_0. cbn [orb].
    destruct (Z.leb_spec 0 j); [|lia]. reflexivity. }
  exists v. split; [exact Hv|]. split; [|exact Hspec].
  split; [lia|].
  destruct (Z.eq_dec v 0) as [->|Hnz]; [lia|].
  apply Z.log2_lt_pow2; [lia|].
  destruct (Z.lt_ge_cases (Z.log2 v) 10) as [|Hge]; [done|].
  pose proof (Z.bit_log2 v ltac:(lia)) as Htop.
  rewrite Hspec in Htop by (pose proof (Z.log2_nonneg v); lia).
  destruct (Z.ltb_spec (Z.log2 v) 10); [lia | discriminate].
Qed.

(** X5: with ten button maps, bit [i] of the override mask handed to
    [LGY11_selectInput] is set exactly when [maps[i]] is not zero, and no
    other bit is. *)
Theorem buttonOverrides_bits (maps : list Z) :
  length maps = 10%nat →
  ∃ overrides, buttonOverrides maps = Value overrides ∧
    0 ≤ overrides < 2 ^ 10 ∧
    ∀ (i : nat) map, maps !! i = Some map →
      Z.testbit overrides (Z.of_nat i) = negb (map =? 0).
Proof.
  intros Hlen. unfold buttonOverrides.
  destruct (collectBits_ten (λ map, negb (map =? 0)) maps) as (v & Hv & Hr & Hb);
    [lia|].
  exists v. split; [exact Hv|]. split; [exact Hr|].
  intros i map Hi. rewrite Hb by lia.
  apply lookup_lt_Some in Hi as Hlt.
  destruct (Z.ltb_spec (Z.of_nat i) 10); [|lia].
  unfold hitAt. by rewrite Nat2Z.id, Hi.
Qed.

Lemma buttonOverrides_bits_witness :
  ∃ overrides, buttonOverrides [0; 1; 0; 0; 2048; 0; 0; 0; 0; 3] = Value overrides ∧
    0 ≤ overrides < 2 ^ 10 ∧
    ∀ (i : nat) map, [0; 1; 0; 0; 2048; 0; 0; 0; 0; 3] !! i = Some map →
      Z.testbit overrides (Z.of_nat i) = negb (map =? 0).
Proof. apply buttonOverrides_bits. reflexivity. Defined.

(** X6: the input state handed to [LGY11_setInputState] has bit [i] set
    exactly when a held key is in [maps[i]]; it only ever holds buttons that
    are in the override mask, and it is zero when no key is held. *)
Theorem inputState_within_overrides (kHeld : Z) (maps : list Z) :
  length maps = 10%nat →
  ∃ pressed overrides,
    inputState kHeld maps = Value pressed ∧
    buttonOverrides maps = Value overrides ∧
    (∀ (i : nat) map, maps !! i = Some map →
       Z.testbit pressed (Z.of_nat i) = negb (Z.land kHeld map =? 0)) ∧
    Z.land pressed overrides = pressed ∧
    (kHeld = 0 → pressed = 0).
Proof.
  intros Hlen. unfold inputState, buttonOverrides.
  destruct (collectBits_ten (λ map, negb (Z.land kHeld map =? 0)) maps)
    as (p & Hp & Hpr & Hpb); [lia|].
  destruct (collectBits_ten (λ map, negb (map =? 0)) maps)
    as (o & Ho & Hor & Hob); [lia|].
  exists p, o. split; [exact Hp|]. split; [exact Ho|]. split; [|split].
  - intros i map Hi. rewrite Hpb by lia.
    apply lookup_lt_Some in Hi as Hlt.
    destruct (Z.ltb_spec (Z.of_nat i) 10); [|lia].
    unfold hitAt. by rewrite Nat2Z.id, Hi.
  - apply Z.bits_inj'. intros j Hj.
    rewrite Z.land_spec, Hpb, Hob by done.
    destruct (j <? 10); [|reflexivity]. cbn [andb]. unfold hitAt.
    destruct (maps !! Z.to_nat j) as [map|]; [|reflexivity].
    destruct (Z.eqb_spec map 0) as [->|]; [|by rewrite andb_true_r].
    by rewrite Z.land_0_r.
  - intros ->. apply Z.bits_inj'. intros j Hj.
    rewrite Hpb, Z.bits_0 by done.
    destruct (j <? 10); [|reflexivity]. cbn [andb]. unfold hitAt.
    by destruct (maps !! Z.to_nat j).
Qed.

Lemma inputState_within_overrides_witness :
  ∃ pressed overrides,
    inputState 2049 [0; 1; 0; 0; 2048; 0; 0; 0; 0; 3] = Value pressed ∧
    buttonOverrides [0; 1; 0; 0; 2048; 0; 0; 0; 0; 3] = Value overrides ∧
    (∀ (i : nat) map, [0; 1; 0; 0; 2048; 0; 0; 0; 0; 3] !! i = Some map →
       Z.testbit pressed (Z.of_nat i) = negb (Z.land 2049 map =? 0)) ∧
    Z.land pressed overrides = pressed ∧
    (2049 = 0 → pressed = 0).
Proof. apply inputState_within_overrides. reflexivity. Defined.

(** ** Backlight *)

Lemma s16_small z : - 2 ^ 15 ≤ z < 2 ^ 15 → s16 z = z.
Proof. intros. unfold s16. rewrite Z.mod_small; lia. Qed.

Lemma s16_range z : - 2 ^ 15 ≤ s16 z < 2 ^ 15.
Proof.
  unfold s16. pose proof (Z.mod_pos_bound (z + 2 ^ 15) (2 ^ 16)). lia.
Qed.

Lemma s16_high z : 2 ^ 15 ≤ z < 2 ^ 16 + 2 ^ 15 → s16 z = z - 2 ^ 16.
Proof.
  intros. unfold s16.
  rewrite <- (Z.mod_add (z + 2 ^ 15) (-1) (2 ^ 16)) by lia.
  rewrite Z.mod_small; lia.
Qed.

Lemma backlightLimits_cases model :
  backlightLimits model = (16, 142) ∨ backlightLimits model = (20, 117).
Proof. unfold backlightLimits. destruct (model >=? 4); auto. Qed.

Lemma changeBacklight_clamped model b amount lo hi v :
  backlightLimits model = (lo, hi) → s16 (b + amount) = v →
  changeBacklight model b amount =
    (Z.max lo (Z.min hi v), Z.max lo (Z.min hi v)).
Proof.
  intros Hlim Hv. unfold changeBacklight. rewrite Hlim, Hv.
  pose proof (s16_range (b + amount)) as Hr. rewrite Hv in Hr.
  assert (Hlh : 16 ≤ lo ≤ 20 ∧ 117 ≤ hi ≤ 142).
  { destruct (backlightLimits_cases model) as [H|H]; rewrite H in Hlim;
      injection Hlim as <- <-; lia. }
  destruct (Z.gtb_spec v hi).
  - rewrite (s16_small hi) by lia.
    destruct (Z.ltb_spec hi lo); [lia|].
    rewrite (s16_small hi) by lia.
    unfold u8. rewrite Z.mod_small by lia.
    replace (Z.max lo (Z.min hi v)) with hi by lia. reflexivity.
  - rewrite (s16_small v) by lia.
    destruct (Z.ltb_spec v lo).
    + rewrite (s16_small lo) by lia. unfold u8. rewrite Z.mod_small by lia.
      replace (Z.max lo (Z.min hi v)) with lo by lia. reflexivity.
    + rewrite (s16_small v) by lia. unfold u8. rewrite Z.mod_small by lia.
      replace (Z.max lo (Z.min hi v)) with v by lia. reflexivity.
Qed.

(** X7: whatever the old value and the amount, [changeBacklight] leaves the
    backlight within the limits of the system model and hands the same value
    to the display driver; the value is the old one plus the amount, clamped,
    as long as that sum fits an [s16], and the lower limit when the sum
    exceeds it. *)
Theorem changeBacklight_within_limits model b amount :
  let lo := (backlightLimits model).1 in
  let hi := (backlightLimits model).2 in
  let new := changeBacklight model b amount in
  lo ≤ new.1 ≤ hi ∧ new.2 = new.1 ∧
  (- 2 ^ 15 ≤ b + amount < 2 ^ 15 →
   new.1 = Z.max lo (Z.min hi (b + amount))) ∧
  (2 ^ 15 ≤ b + amount < 2 ^ 16 → new.1 = lo).
Proof.
  intros lo hi new.
  assert (Hlim : backlightLimits model = (lo, hi)).
  { subst lo hi. by destruct (backlightLimits model). }
  assert (Hlh : 16 ≤ lo ≤ 20 ∧ 117 ≤ hi ≤ 142).
  { destruct (backlightLimits_cases model) as [H|H]; rewrite H in Hlim;
      injection Hlim as <- <-; lia. }
  subst new.
  rewrite (changeBacklight_clamped model b amount lo hi _ Hlim eq_refl).
  cbn [fst snd]. split; [lia|]. split; [reflexivity|]. split.
  - intros Hfit. by rewrite s16_small.
  - intros Hover. rewrite s16_high by lia. lia.
Qed.

Lemma updateBacklight_turns km KEY_X m2ds ndebug model steps kDown kHeld st :
  let r := updateBacklight km KEY_X m2ds ndebug model steps kDown kHeld st in
  ∀ rest, takesTurns (backlightOn r.1) rest →
          takesTurns (backlightOn st) (r.2 ++ rest).
Proof.
  unfold updateBacklight.
  destruct (negb (kDown =? 0) && negb (kHeld =? 0)); [|by intros rest].
  destruct st as [b on].
  destruct (kHeld =? Z.lor KEY_X (KEY_DUP km));
    destruct (kHeld =? Z.lor KEY_X (KEY_DDOWN km));
    repeat match goal with
           | |- context [changeBacklight ?m ?x ?a] =>
               destruct (changeBacklight m x a)
           end;
    cbn [backlight backlightOn];
    destruct (ndebug || negb (model =? m2ds));
    destruct on; cbn [andb negb backlight backlightOn];
    destruct (kHeld =? Z.lor KEY_X (KEY_DLEFT km));
    destruct (kHeld =? Z.lor KEY_X (KEY_DRIGHT km));
    cbn [andb negb backlight backlightOn fst snd app takesTurns];
    intros rest Hrest; auto.
Qed.

(** X8: over any sequence of frames, the calls that switch the backlight
    take turns, starting with a power-off when the backlight is on: it is
    never switched off twice in a row, nor on twice in a row. *)
Theorem backlight_switches_take_turns km KEY_X m2ds ndebug model steps frames st :
  takesTurns (backlightOn st)
    (backlightRun km KEY_X m2ds ndebug model steps frames st).2.
Proof.
  revert st. induction frames as [|[kDown kHeld] frames IH]; intros st;
    [exact I|].
  cbn [backlightRun].
  pose proof (updateBacklight_turns km KEY_X m2ds ndebug model steps
                kDown kHeld st) as Hstep.
  destruct (updateBacklight km KEY_X m2ds ndebug model steps kDown kHeld st)
    as [st1 calls] eqn:Hupd.
  specialize (IH st1).
  destruct (backlightRun km KEY_X m2ds ndebug model steps frames st1)
    as [st2 calls'].
  cbn [fst snd] in *. by apply Hstep.
Qed.

(** ** The comparison of entries *)

Lemma bytes_le_strcmp a : ∀ b, bytes_le a b → strcmp a b ≤ 0.
Proof.
  induction a as [|x a IH]; intros [|y b]; cbn [strcmp bytes_le]; try done.
  - intros _. pose proof (uchar_nonneg y). lia.
  - intros [Hlt|[-> Hle]].
    + destruct (Z.eqb_spec (uchar x) (uchar y)); lia.
    + rewrite Z.eqb_refl. by apply IH.
Qed.

Lemma bytes_le_trans a : ∀ b c, bytes_le a b → bytes_le b c → bytes_le a c.
Proof.
  induction a as [|x a IH]; intros [|y b] [|z c]; cbn [bytes_le]; try done.
  intros [Hxy|[-> Hab]] [Hyz|[-> Hbc]].
  - left. lia.
  - by left.
  - by left.
  - right. split; [done|]. by eapply IH.
Qed.

Lemma strcmp_trans a b c :
  cstring_wf a → cstring_wf b →
  strcmp a b ≤ 0 → strcmp b c ≤ 0 → strcmp a c ≤ 0.
Proof.
  intros Ha Hb Hab Hbc. apply bytes_le_strcmp.
  eapply bytes_le_trans; by apply strcmp_bytes_le.
Qed.

(** X9: on entries whose names are C strings, [dlistCompare] is a total
    order that puts directories first: swapping the arguments negates the
    result, "not above" is transitive, the result is zero exactly for equal
    kind and equal name, and a directory is below every file. *)
Theorem dlistCompare_orders h a b c :
  cstring_wf (nameAt h (name a)) → cstring_wf (nameAt h (name b)) →
  dlistCompare h b a = - dlistCompare h a b ∧
  (dlistCompare h a b ≤ 0 → dlistCompare h b c ≤ 0 → dlistCompare h a c ≤ 0) ∧
  (dlistCompare h a b = 0 ↔
     type a = type b ∧ nameAt h (name a) = nameAt h (name b)) ∧
  (type a = ENTRY_DIRECTORY → type b = ENTRY_FILE → dlistCompare h a b < 0).
Proof.
  intros Ha Hb. unfold dlistCompare. repeat split.
  - rewrite (Z.eqb_sym (type b)).
    destruct (type a =? type b); cbn [negb]; [apply strcmp_flip | lia].
  - destruct (Z.eqb_spec (type a) (type b)) as [Hab|Hab],
      (Z.eqb_spec (type b) (type c)) as [Hbc|Hbc],
      (Z.eqb_spec (type a) (type c)) as [Hac|Hac]; cbn [negb]; try lia.
    by apply strcmp_trans.
  - destruct (Z.eqb_spec (type a) (type b)); cbn [negb] in *; [done | lia].
  - destruct (Z.eqb_spec (type a) (type b)); cbn [negb] in *; [|lia].
    by apply strcmp_eq.
  - intros [Ht Hn]. rewrite Ht, Z.eqb_refl. cbn [negb].
    by apply strcmp_eq.
  - intros -> ->. reflexivity.
Qed.

Lemma dlistCompare_orders_witness :
  let h : gmap N block :=
    {[ 3%N := Chars (cstr "b.gba"); 4%N := Chars (cstr "saves") ]} in
  let a := {| type := ENTRY_DIRECTORY; name := 4%N |} in
  let b := {| type := ENTRY_FILE; name := 3%N |} in
  dlistCompare h b a = - dlistCompare h a b ∧
  (dlistCompare h a b ≤ 0 → dlistCompare h b b ≤ 0 → dlistCompare h a b ≤ 0) ∧
  (dlistCompare h a b = 0 ↔
     type a = type b ∧ nameAt h (name a) = nameAt h (name b)) ∧
  (type a = ENTRY_DIRECTORY → type b = ENTRY_FILE → dlistCompare h a b < 0).
Proof.
  intros h a b.
  apply (dlistCompare_orders h a b b);
    apply (bool_decide_unpack _); vm_compute; exact I.
Defined.

(** ** More on the path buffer *)




(** X11: drilling down and going back lands where one started: for a
    directory path that ends neither in a separator nor in a colon and a
    component without separator, [pathAppend] gives path, separator,
    component, and the parent truncation of that gives the path back. *)
Theorem drill_down_then_back (path comp : cstring) c srcSize :
  last path = Some c → c ≠ "/"%char → c ≠ ":"%char → "/"%char ∉ comp →
  ∃ srcSize',
    pathAppend true path srcSize comp =
      Value (Some (path ++ cstr "/" ++ comp, srcSize')) ∧
    truncateToParent (path ++ cstr "/" ++ comp) = Value path.
Proof.
  intros Hlast Hsep Hcolon Hcomp.
  destruct (pathAppend_granted path srcSize comp c Hlast) as [srcSize' Happ].
  rewrite bool_decide_eq_false_2 in Happ by done.
  exists srcSize'. split; [exact Happ|].
  unfold truncateToParent. rewrite scanBack_last_sep by done.
  assert (Hne : path ≠ []) by (intros ->; discriminate).
  destruct (length path) as [|j] eqn:Hlen.
  { by apply length_zero_iff_nil in Hlen. }
  assert (Hj : (path ++ cstr "/" ++ comp) !! j = Some c).
  { rewrite lookup_app_l by lia. rewrite last_lookup in Hlast.
    by rewrite Hlen in Hlast. }
  rewrite Hj. rewrite bool_decide_eq_false_2 by (intros [= ->]; done).
  rewrite <- Hlen. by rewrite take_app_length.
Qed.

Lemma drill_down_then_back_witness :
  ∃ srcSize',
    pathAppend true (cstr "sdmc:/roms") 11 (cstr "gba") =
      Value (Some (cstr "sdmc:/roms" ++ cstr "/" ++ cstr "gba", srcSize')) ∧
    truncateToParent (cstr "sdmc:/roms" ++ cstr "/" ++ cstr "gba")
      = Value (cstr "sdmc:/roms").
Proof.
  apply (drill_down_then_back (cstr "sdmc:/roms") (cstr "gba") "s" 11);
    [reflexivity | discriminate | discriminate |].
  apply no_separator_dec. vm_compute. reflexivity.
Defined.

(** X12: the parent truncation only ever shortens: its result is a
    non-empty prefix of the path, behind which the path holds at most one
    more separator right away and none later. A path without separator, or
    whose only separator is its first character, makes it read in front of
    the buffer. *)
Theorem truncateToParent_prefix (path : cstring) :
  (∀ parent, truncateToParent path = Value parent →
     parent `prefix_of` path ∧ parent ≠ [] ∧
     "/"%char ∉ drop (S (length parent)) path) ∧
  ("/"%char ∉ path → truncateToParent path = Undefined OutOfBounds) ∧
  ("/"%char ∉ path → truncateToParent ("/"%char :: path) = Undefined OutOfBounds).
Proof.
  split; [|split].
  - intros parent. unfold truncateToParent.
    destruct (scanBack path (length path)) as [[|j]|] eqn:Hscan;
      [discriminate| |discriminate].
    destruct (scanBack_found _ _ _ Hscan) as [Hlt Hsl].
    assert (Hafter : ∀ i, (S j < i)%nat → path !! i ≠ Some "/"%char).
    { intros i Hi Hsl'. destruct (decide (i < length path)%nat) as [Hin|Hout].
      - destruct (scanBack_last path (length path) i Hin Hsl')
          as (j' & Hj' & Hle). rewrite Hscan in Hj'. injection Hj' as <-. lia.
      - apply lookup_lt_Some in Hsl'. lia. }
    assert (Hclean : ∀ k, (S j ≤ k)%nat → "/"%char ∉ drop (S k) path).
    { intros k Hk Hin. apply list_elem_of_lookup in Hin as [i Hi].
      rewrite lookup_drop in Hi. apply (Hafter (S k + i)%nat); [lia | done]. }
    case_bool_decide; intros [= <-].
    + split; [apply prefix_take|]. split.
      * intros Hnil. apply (f_equal length) in Hnil.
        rewrite length_take in Hnil. cbn [length] in Hnil. lia.
      * rewrite length_take.
        replace (S (S j) `min` length path)%nat with (S (S j)) by lia.
        apply Hclean. lia.
    + split; [apply prefix_take|]. split.
      * intros Hnil. apply (f_equal length) in Hnil.
        rewrite length_take in Hnil. cbn [length] in Hnil. lia.
      * rewrite length_take.
        replace (S j `min` length path)%nat with (S j) by lia.
        by apply Hclean.
  - intros Hno. unfold truncateToParent. by rewrite scanBack_none.
  - intros Hno. unfold truncateToParent.
    assert (scanBack ("/"%char :: path) (length ("/"%char :: path)) = Some O)
      as ->; [|reflexivity].
    apply (scanBack_last_sep [] path Hno).
Qed.

Lemma truncateToParent_prefix_witness :
  truncateToParent (cstr "roms") = Undefined OutOfBounds ∧
  truncateToParent ("/"%char :: cstr "roms") = Undefined OutOfBounds.
Proof.
  destruct (truncateToParent_prefix (cstr "roms")) as (_ & H1 & H2).
  split; [apply H1 | apply H2]; apply no_separator_dec; vm_compute; reflexivity.
Defined.

(** ** More on navigation *)

(** X13: in an empty directory no key moves anything: with [num = 0] the
    cursor and the window stay where they are. *)
Theorem navStep_empty_list km kDown c w :
  0 ≤ w → w ≤ c < w + SCREEN_ROWS → c < 2 ^ 31 →
  navStep km kDown 0 {| cursorPos := c; windowPos := w |}
    = {| cursorPos := c; windowPos := w |}.
Proof.
  unfold SCREEN_ROWS. intros Hw Hc Hc'. unfold navStep, moveCursor.
  cbn [cursorPos windowPos Z.eqb].
  assert (Hwrap : wrapCursor 0 c = c).
  { unfold wrapCursor. destruct (Z.ltb_spec c 0); [lia|].
    rewrite (u32_small c) by lia. rewrite (u32_neg (0 - 1)) by lia.
    destruct (Z.gtb_spec c (0 - 1 + 2 ^ 32)); [lia | reflexivity]. }
  rewrite Hwrap, scrollWindow_spec by lia. unfold SCREEN_ROWS.
  destruct (Z.ltb_spec c w); [lia|].
  destruct (Z.geb_spec c (w + 24)); [lia | reflexivity].
Qed.

Lemma navStep_empty_list_witness :
  navStep pad 128 0 {| cursorPos := 0; windowPos := 0 |}
    = {| cursorPos := 0; windowPos := 0 |}.
Proof. apply navStep_empty_list; unfold SCREEN_ROWS; lia. Defined.

(** X14: a single step scrolls by one line, and only at the edge of the
    window: Step-down from a cursor inside the window moves the window down
    by one exactly when the cursor was on its last row, Step-up moves it up
    by one exactly when the cursor was on its first row. *)
Theorem step_scrolls_one_line km kDown n c w :
  0 < n < 2 ^ 31 → 0 ≤ w → w ≤ c < w + SCREEN_ROWS → c < n →
  (StepDown km kDown → c + 1 < n →
   navStep km kDown n {| cursorPos := c; windowPos := w |} =
     {| cursorPos := c + 1;
        windowPos := if c + 1 =? w + SCREEN_ROWS then w + 1 else w |}) ∧
  (StepUp km kDown → 0 < c →
   navStep km kDown n {| cursorPos := c; windowPos := w |} =
     {| cursorPos := c - 1; windowPos := if c =? w then w - 1 else w |}).
Proof.
  unfold SCREEN_ROWS. intros Hn Hw Hc Hcn. split.
  - intros Hev Hnext. unfold navStep. cbn [cursorPos windowPos].
    rewrite (moveCursor_down _ _ _ _ Hev) by lia.
    rewrite wrapCursor_inside, scrollWindow_spec by lia. unfold SCREEN_ROWS.
    f_equal.
    destruct (Z.ltb_spec (c + 1) w), (Z.geb_spec (c + 1) (w + 24)),
      (Z.eqb_spec (c + 1) (w + 24)); lia.
  - intros Hev Hprev. unfold navStep. cbn [cursorPos windowPos].
    rewrite (moveCursor_up _ _ _ _ Hev) by lia.
    rewrite wrapCursor_inside, scrollWindow_spec by lia. unfold SCREEN_ROWS.
    f_equal.
    destruct (Z.ltb_spec (c - 1) w), (Z.geb_spec (c - 1) (w + 24)),
      (Z.eqb_spec c w); lia.
Qed.

Lemma step_scrolls_one_line_witness :
  (StepDown pad 128 → 23 + 1 < 100 →
   navStep pad 128 100 {| cursorPos := 23; windowPos := 0 |} =
     {| cursorPos := 23 + 1;
        windowPos := if 23 + 1 =? 0 + SCREEN_ROWS then 0 + 1 else 0 |}) ∧
  (StepUp pad 128 → 0 < 23 →
   navStep pad 128 100 {| cursorPos := 23; windowPos := 0 |} =
     {| cursorPos := 23 - 1; windowPos := if 23 =? 0 then 0 - 1 else 0 |}).
Proof. apply step_scrolls_one_line; unfold SCREEN_ROWS; lia. Defined.

(** ** Releasing a list *)

Lemma ret_run {A} (a : A) m : ret a m = (Value a, m).
Proof. reflexivity. Qed.

Lemma isChars_live h p : isChars h p = true → is_Some (h !! p).
Proof. unfold isChars. destruct (h !! p) as [[]|]; (done || eauto). Qed.

Lemma dropNames_heap slots : ∀ m p,
  heap (dropNames slots m) !! p =
    if bool_decide (p ∈ (name <$> slots)) then None else heap m !! p.
Proof.
  induction slots as [|e slots IH]; intros m p; [reflexivity|].
  cbn [dropNames foldl]. fold (dropNames slots (dropBlock (name e) m)).
  rewrite IH. cbn [fmap list_fmap]. fold (fmap (M:=list) name slots).
  destruct (decide (p = name e)) as [->|Hne].
  - rewrite (bool_decide_eq_true_2 (name e ∈ name e :: _)) by left.
    case_bool_decide; [done|]. cbn. by rewrite lookup_delete_eq.
  - cbn [dropBlock heap]. rewrite lookup_delete_ne by done.
    do 2 case_bool_decide; try done.
    + exfalso. apply H0. by right.
    + apply elem_of_cons in H0 as [?|?]; done.
Qed.

Lemma dropNames_brk slots : ∀ m, brk (dropNames slots m) = brk m.
Proof.
  induction slots as [|e slots IH]; intros m; [done|].
  cbn [dropNames foldl]. fold (dropNames slots (dropBlock (name e) m)).
  by rewrite IH.
Qed.

Lemma dropNames_requests slots : ∀ m,
  requests (dropNames slots m) = requests m.
Proof.
  induction slots as [|e slots IH]; intros m; [done|].
  cbn [dropNames foldl]. fold (dropNames slots (dropBlock (name e) m)).
  by rewrite IH.
Qed.

Lemma freeNames_run slots : ∀ rest i sz m,
  sz = i + Z.of_nat (length slots) →
  Forall (λ e, name e ≠ 0%N ∧ is_Some (heap m !! name e)) slots →
  NoDup (name <$> slots) →
  freeNames i sz (slots ++ rest) m = (Value tt, dropNames slots m).
Proof.
  induction slots as [|e slots IH]; intros rest i sz m Hsz Hlive Hdup.
  - cbn [length] in Hsz. cbn [app dropNames foldl].
    destruct rest; cbn [freeNames]; destruct (Z.ltb_spec i sz); (lia || done).
  - cbn [length] in Hsz. cbn [app freeNames].
    destruct (Z.ltb_spec i sz); [|lia].
    apply Forall_cons in Hlive as [[He0 [b Hb]] Hlive].
    cbn [fmap list_fmap] in Hdup. apply NoDup_cons in Hdup as [Hnotin Hdup].
    rewrite (bind_run _ _ _ _ _ (fcramFree_run _ _ _ He0 Hb)).
    apply IH; [lia | | done].
    rewrite Forall_forall in Hlive. apply Forall_forall. intros e' He'.
    destruct (Hlive e' He') as [? ?]. split; [done|].
    cbn. rewrite lookup_delete_ne; [done|].
    intros Heq. apply Hnotin. rewrite Heq. by apply list_elem_of_fmap_2.
Qed.

(** X15: [dlistFree] of a list that owns its names releases every name and
    then the list's own block, and nothing else. *)
Theorem dlistFree_releases m d l :
  owns m d l →
  dlistFree d m = (Value tt, dropBlock d (dropNames (entries l) m)) ∧
  ∀ p, heap (dropBlock d (dropNames (entries l) m)) !! p =
         if bool_decide (p ∈ d :: (name <$> entries l)) then None
         else heap m !! p.
Proof.
  intros [Hb Hd Hsize Hnames Hdup]. apply NoDup_cons in Hdup as [Hd' Hdup].
  split.
  - assert (Hlive : Forall (λ e, name e ≠ 0%N ∧ is_Some (heap m !! name e))
                       (entries l)).
    { eapply Forall_impl; [exact Hnames|]. cbn. intros e [? ?].
      split; [done | by apply isChars_live]. }
    assert (Hsz : size l = 0 + Z.of_nat (length (entries l))) by lia.
    unfold dlistFree.
    rewrite (bind_run _ _ _ _ _ (loadList_run _ _ _ Hd Hb)).
    rewrite <- (app_nil_r (entries l)) at 1.
    rewrite (bind_run _ _ _ _ _
      (freeNames_run (entries l) [] 0 (size l) m Hsz Hlive Hdup)).
    apply (fcramFree_run _ (Dlist l)); [done|].
    rewrite dropNames_heap. by rewrite bool_decide_eq_false_2.
  - intros p. cbn [dropBlock heap].
    destruct (decide (p = d)) as [->|Hne].
    + rewrite lookup_delete_eq. by rewrite bool_decide_eq_true_2 by left.
    + rewrite lookup_delete_ne by done. rewrite dropNames_heap.
      do 2 case_bool_decide; try done.
      * exfalso. apply H0. by right.
      * apply elem_of_cons in H0 as [?|?]; done.
Qed.

Lemma dlistFree_releases_witness :
  owns shelf 1%N twoNames ∧
  dlistFree 1%N shelf =
    (Value tt, dropBlock 1%N (dropNames (entries twoNames) shelf)) ∧
  ∀ p, heap (dropBlock 1%N (dropNames (entries twoNames) shelf)) !! p =
         if bool_decide (p ∈ 1%N :: (name <$> entries twoNames)) then None
         else heap shelf !! p.
Proof.
  assert (Hown : owns shelf 1%N twoNames).
  { split.
    - vm_compute. reflexivity.
    - discriminate.
    - reflexivity.
    - repeat constructor; vm_compute; congruence.
    - apply (bool_decide_unpack _). vm_compute. exact I. }
  split; [exact Hown | exact (dlistFree_releases shelf 1%N twoNames Hown)].
Defined.

(** ** What a scan holds *)

Lemma isChars_lookup h h' p : h' !! p = h !! p → isChars h' p = isChars h p.
Proof. unfold isChars. by intros ->. Qed.

(** The list block is rewritten in place. *)
Lemma holding_rewritten h0 brk0 fis m d l valid m' l' :
  holding h0 brk0 fis m d l valid →
  (∀ q, heap m' !! q = if decide (q = d) then Some (Dlist l') else heap m !! q) →
  brk m' = brk m → valid `prefix_of` entries l' → capacity l' = capacity l →
  holding h0 brk0 fis m' d l' valid.
Proof.
  intros [Hb Hv [Hf0 Hf] Hd Hcap Hnames Hdup Hframe Hdom] Hheap Hbrk Hv' Hcap'.
  split.
  - rewrite Hheap. by rewrite decide_True.
  - done.
  - split; [done|]. rewrite Hheap. rewrite decide_False by lia. done.
  - lia.
  - lia.
  - eapply Forall_impl; [exact Hnames|]. cbn. intros e (? & ? & Hc).
    split; [lia|]. split; [done|]. rewrite <- Hc. apply isChars_lookup.
    rewrite Hheap. by rewrite decide_False.
  - done.
  - intros q Hq. rewrite Hheap. rewrite decide_False by lia. by apply Hframe.
  - intros q Hq. rewrite Hheap. destruct (decide (q = d)); [auto|]. by apply Hdom.
Qed.

(** A name is allocated and its slot written. *)
Lemma holding_extended h0 brk0 fis m d l m' l' e s :
  holding h0 brk0 fis m d l (entries l) →
  (∀ q, heap m' !! q =
          if decide (q = d) then Some (Dlist l')
          else if decide (q = N.succ (brk m)) then Some (Chars s)
          else heap m !! q) →
  brk m' = N.succ (brk m) → name e = N.succ (brk m) →
  entries l' = entries l ++ [e] → capacity l' = capacity l →
  Z.of_nat (length (entries l)) < capacity l →
  holding h0 brk0 fis m' d l' (entries l').
Proof.
  intros [Hb Hv [Hf0 Hf] Hd Hcap Hnames Hdup Hframe Hdom]
    Hheap Hbrk He Hent Hcap' Hroom.
  assert (Hfresh : ∀ e', e' ∈ entries l → name e' ≠ N.succ (brk m)).
  { rewrite Forall_forall in Hnames. intros e' He'.
    destruct (Hnames e' He') as (? & ? & ?). lia. }
  split.
  - rewrite Hheap. by rewrite decide_True.
  - done.
  - split; [done|]. rewrite Hheap. by rewrite !decide_False by lia.
  - lia.
  - rewrite Hent, length_app. cbn [length]. unfold DLIST_GROW_SIZE in *. lia.
  - rewrite Hent. apply Forall_app. split.
    + rewrite Forall_forall in Hnames. apply Forall_forall. intros e' He'.
      destruct (Hnames e' He') as (? & ? & Hc).
      split; [lia|]. split; [done|]. rewrite <- Hc. apply isChars_lookup.
      rewrite Hheap. by rewrite !decide_False by lia.
    + constructor; [|constructor]. rewrite He. split; [lia|]. split; [lia|].
      unfold isChars. rewrite Hheap.
      rewrite decide_False by lia. by rewrite decide_True.
  - rewrite Hent, fmap_app. apply NoDup_app. split; [done|]. split.
    + intros q Hq Hq'. cbn in Hq'. apply list_elem_of_singleton in Hq'.
      apply list_elem_of_fmap in Hq as (e' & -> & He').
      apply (Hfresh e' He'). by rewrite Hq', He.
    + cbn. apply NoDup_singleton.
  - intros q Hq. rewrite Hheap. rewrite !decide_False by lia. by apply Hframe.
  - intros q Hq. rewrite Hheap, Hent, fmap_app.
    destruct (decide (q = d)); [auto|].
    destruct (decide (q = N.succ (brk m))) as [->|].
    + intros _. right. right. apply elem_of_app. right. cbn. rewrite He. left.
    + intros Hlive. destruct (Hdom q Hq Hlive) as [?|[?|?]]; [auto | auto |].
      right. right. apply elem_of_app. by left.
Qed.

(** The list moves into a new, larger block. *)
Lemma holding_moved h0 brk0 fis m d l m' l' :
  holding h0 brk0 fis m d l (entries l) →
  (∀ q, heap m' !! q =
          if decide (q = N.succ (brk m)) then Some (Dlist l')
          else if decide (q = d) then None
          else heap m !! q) →
  brk m' = N.succ (brk m) → entries l' = entries l →
  capacity l' = Z.of_nat (length (entries l)) + DLIST_GROW_SIZE →
  holding h0 brk0 fis m' (N.succ (brk m)) l' (entries l').
Proof.
  intros [Hb Hv [Hf0 Hf] Hd Hcap Hnames Hdup Hframe Hdom]
    Hheap Hbrk Hent Hcap'.
  rewrite Forall_forall in Hnames.
  split.
  - rewrite Hheap. by rewrite decide_True.
  - done.
  - split; [done|]. rewrite Hheap. by rewrite !decide_False by lia.
  - lia.
  - rewrite Hent. unfold DLIST_GROW_SIZE in *. lia.
  - rewrite Hent. apply Forall_forall. intros e' He'.
    destruct (Hnames e' He') as (? & ? & Hc).
    split; [lia|]. split; [lia|]. rewrite <- Hc. apply isChars_lookup.
    rewrite Hheap. by rewrite !decide_False by lia.
  - by rewrite Hent.
  - intros q Hq. rewrite Hheap. rewrite !decide_False by lia. by apply Hframe.
  - intros q Hq. rewrite Hheap, Hent.
    destruct (decide (q = N.succ (brk m))); [auto|].
    destruct (decide (q = d)); [by intros [? [=]]|].
    intros Hlive. destruct (Hdom q Hq Hlive) as [?|[?|?]]; auto. done.
Qed.

Ltac heap_lookup :=
  cbn [heap putBlock dropBlock asked handOut];
  repeat first
    [ rewrite lookup_insert_eq
    | rewrite lookup_insert_ne by done
    | rewrite lookup_delete_eq
    | rewrite lookup_delete_ne by done ].

Lemma keptCount_cons filter fi fis :
  keptCount filter (fi :: fis) = keptCount filter [fi] + keptCount filter fis.
Proof.
  unfold keptCount. cbn [List.filter]. destruct (kept filter fi); cbn; lia.
Qed.

Lemma keptCount_app filter fis fis' :
  keptCount filter (fis ++ fis') = keptCount filter fis + keptCount filter fis'.
Proof.
  unfold keptCount. rewrite List.filter_app, length_app. lia.
Qed.

Lemma keptCount_range filter fis :
  0 ≤ keptCount filter fis ≤ Z.of_nat (length fis).
Proof.
  unfold keptCount. pose proof (filter_length_le (kept filter) fis). lia.
Qed.

Section ScanSteps.
Variable fcram : nat → option Z.
Variables (h0 : gmap N block) (brk0 fis : N).

Lemma appendEntry_step m dList l fi n :
  holding h0 brk0 fis m dList l (entries l) →
  Z.of_nat (length (entries l)) = n → n < capacity l → n < 2 ^ 31 →
  ∃ r m', appendEntry fcram fi dList n m = (Value r, m') ∧
    match r with
    | Continue d n' =>
        d = dList ∧ n' = n + 1 ∧
        ∃ l', holding h0 brk0 fis m' dList l' (entries l') ∧ size l' = n' ∧
              Z.of_nat (length (entries l')) = n' ∧ capacity l' = capacity l
    | GotoBail res d =>
        res = RES_OUT_OF_MEM ∧ d = dList ∧
        ∃ l', holding h0 brk0 fis m' dList l' (entries l) ∧ size l' = size l
    end.
Proof.
  intros Hho Hlen Hroom Hn. unfold appendEntry.
  pose proof (ho_block _ _ _ _ _ _ _ Hho) as Hb.
  pose proof (ho_dList _ _ _ _ _ _ _ Hho) as Hd.
  assert (Hd0 : dList ≠ 0%N) by lia.
  destruct (fcram (requests m)) as [junk|] eqn:Hf.
  - rewrite (bind_run _ _ _ _ _ (fcramAlloc_granted _ _ _ Hf)).
    set (p := N.succ (brk m)).
    assert (Hp0 : p ≠ 0%N) by lia.
    assert (Hpd : p ≠ dList) by lia.
    assert (Hdp : dList ≠ p) by lia.
    set (m1 := asked _).
    assert (Hb1 : heap m1 !! dList = Some (Dlist l)).
    { subst m1. by heap_lookup. }
    rewrite (bind_run _ _ _ _ _ (setEntryName_push _ _ _ p _ Hd0 Hb1 Hlen Hroom)).
    rewrite (isNull_false _ Hp0).
    set (m2 := putBlock dList _ m1).
    assert (Hb2 : heap m2 !! p = Some (Raw junk)).
    { subst m2 m1. by heap_lookup. }
    rewrite (bind_run _ _ _ _ _ (store_run _ _ _ _ Hp0 Hb2)).
    rewrite safeStrcpy_whole.
    set (m3 := putBlock p _ m2).
    assert (Hb3 : heap m3 !! dList = Some (Dlist
      {| capacity := capacity l; size := size l;
         entries := entries l ++ [{| type := 0; name := p |}] |})).
    { subst m3 m2. by heap_lookup. }
    rewrite (bind_run _ _ _ _ _
      (setEntryType_last _ _ _ _ _ (entTypeOf fi) _ Hd0 Hb3 eq_refl Hlen Hroom)).
    cbn [capacity size entries name].
    set (m4 := putBlock dList _ m3).
    assert (Hb4 : heap m4 !! dList = Some (Dlist
      {| capacity := capacity l; size := size l;
         entries := entries l ++ [{| type := entTypeOf fi; name := p |}] |})).
    { subst m4. by heap_lookup. }
    rewrite (bind_run _ _ _ _ _ (setSize_run _ _ (u32 (n + 1)) _ Hd0 Hb4)).
    cbn [capacity size entries].
    rewrite u32_small by lia.
    eexists _, _. split; [reflexivity|]. cbn beta iota.
    split; [done|]. split; [done|].
    pose (l' := {| capacity := capacity l; size := n + 1;
                   entries := entries l ++ [{| type := entTypeOf fi; name := p |}] |}).
    exists l'. split; [|split; [done|split; [|done]]].
    + apply (holding_extended h0 brk0 fis m dList l _ l'
               {| type := entTypeOf fi; name := p |} (fname fi) Hho);
        try done; try lia.
      intros q. subst m4 m3 m2 m1 l'.
      destruct (decide (q = dList)) as [->|Hqd]; [by heap_lookup|].
      destruct (decide (q = N.succ (brk m))) as [->|Hqp]; by heap_lookup.
    + subst l'. cbn [entries]. rewrite length_app. cbn [length]. lia.
  - rewrite (bind_run _ _ _ _ _ (fcramAlloc_denied _ _ Hf)).
    assert (Hb1 : heap (asked m) !! dList = Some (Dlist l)) by done.
    rewrite (bind_run _ _ _ _ _ (setEntryName_push _ _ _ 0%N _ Hd0 Hb1 Hlen Hroom)).
    cbn [isNull N.eqb].
    eexists _, _. split; [reflexivity|]. cbn beta iota.
    split; [done|]. split; [done|].
    pose (l' := {| capacity := capacity l; size := size l;
                   entries := entries l ++ [{| type := 0; name := 0%N |}] |}).
    exists l'. split; [|done].
    apply (holding_rewritten h0 brk0 fis m dList l (entries l) _ l' Hho);
      try done.
    + intros q. subst l'.
      destruct (decide (q = dList)) as [->|Hqd]; by heap_lookup.
    + subst l'. cbn [entries]. by apply prefix_app_r.
Qed.

Lemma dlistGrow_step m dList l n :
  holding h0 brk0 fis m dList l (entries l) →
  Z.of_nat (length (entries l)) = n → size l = n → capacity l = n →
  n < 2 ^ 31 →
  ∃ d' m', dlistGrow fcram dList m = (Value d', m') ∧
    (d' = 0%N ∨
     ∃ l', holding h0 brk0 fis m' d' l' (entries l') ∧
           Z.of_nat (length (entries l')) = n ∧ n < capacity l').
Proof.
  intros Hho Hlen Hsize Hfull Hn. unfold dlistGrow.
  pose proof (ho_block _ _ _ _ _ _ _ Hho) as Hb.
  pose proof (ho_dList _ _ _ _ _ _ _ Hho) as Hd.
  assert (Hd0 : dList ≠ 0%N) by lia.
  rewrite (bind_run _ _ _ _ _ (loadList_run _ _ _ Hd0 Hb)).
  destruct (fcram (requests m)) as [junk|] eqn:Hf.
  - rewrite (bind_run _ _ _ _ _ (fcramAlloc_granted _ _ _ Hf)).
    set (p := N.succ (brk m)).
    assert (Hp0 : p ≠ 0%N) by lia.
    assert (Hpd : p ≠ dList) by lia.
    assert (Hdp : dList ≠ p) by lia.
    rewrite (isNull_false _ Hp0).
    set (m1 := asked _).
    assert (Hb1 : heap m1 !! p = Some (Raw junk)).
    { subst m1. by heap_lookup. }
    rewrite (bind_run _ _ _ _ _ (setCapacity_fresh _ _ _ _ Hp0 Hb1)).
    set (m2 := putBlock p _ m1).
    assert (Hb2 : heap m2 !! dList = Some (Dlist l)).
    { subst m2 m1. by heap_lookup. }
    rewrite (bind_run _ _ _ _ _ (loadList_run _ _ _ Hd0 Hb2)).
    assert (Hb2' : heap m2 !! p = Some (Dlist
      {| capacity := u32 (capacity l + DLIST_GROW_SIZE); size := u32 junk;
         entries := [] |})).
    { subst m2. by heap_lookup. }
    rewrite (bind_run _ _ _ _ _ (loadList_run _ _ _ Hp0 Hb2')).
    unfold storeList.
    rewrite (bind_run _ _ _ _ _ (store_run _ _ _ _ Hp0 Hb2')).
    cbn [capacity size entries].
    rewrite firstSlots_all by lia.
    unfold DLIST_GROW_SIZE in *. rewrite u32_small by lia.
    set (m3 := putBlock p _ m2).
    assert (Hb3 : heap m3 !! dList = Some (Dlist l)).
    { subst m3. by heap_lookup. }
    rewrite (bind_run _ _ _ _ _ (fcramFree_run _ _ _ Hd0 Hb3)).
    eexists _, _. split; [reflexivity|]. right.
    pose (l' := {| capacity := capacity l + 128; size := u32 junk;
                   entries := entries l |}).
    exists l'. split; [|subst l'; cbn; lia].
    apply (holding_moved h0 brk0 fis m dList l _ l' Hho); try done.
    + intros q. subst m3 m2 m1 l'.
      destruct (decide (q = N.succ (brk m))) as [->|Hqp]; [by heap_lookup|].
      destruct (decide (q = dList)) as [->|Hqd]; by heap_lookup.
    + subst l'. cbn. unfold DLIST_GROW_SIZE. lia.
  - rewrite (bind_run _ _ _ _ _ (fcramAlloc_denied _ _ Hf)).
    cbn [isNull N.eqb].
    assert (Hb1 : heap (asked m) !! dList = Some (Dlist l)) by done.
    rewrite (bind_run _ _ _ _ _ (fcramFree_run _ _ _ Hd0 Hb1)).
    eexists _, _. split; [reflexivity|]. by left.
Qed.

Lemma scanEntry_step filter fi m dList l n :
  holding h0 brk0 fis m dList l (entries l) →
  Z.of_nat (length (entries l)) = n → size l = n → n < 2 ^ 31 →
  ∃ r m', scanEntry fcram filter fi dList n m = (Value r, m') ∧
    match r with
    | Continue d n' =>
        n' = n + keptCount filter [fi] ∧
        ∃ l', holding h0 brk0 fis m' d l' (entries l') ∧ size l' = n' ∧
              Z.of_nat (length (entries l')) = n' ∧
              (capacity l' = capacity l ∨ capacity l < n + keptCount filter [fi])
    | GotoBail res d =>
        res = RES_OUT_OF_MEM ∧
        (capacity l < n + keptCount filter [fi] ∨
         ∃ l' valid, holding h0 brk0 fis m' d l' valid ∧
                     size l' = Z.of_nat (length valid))
    end.
Proof.
  intros Hho Hlen Hsize Hn. unfold scanEntry, keptCount.
  cbn [List.filter]. unfold kept.
  destruct (skipped filter fi); cbn [negb length].
  - eexists _, _. split; [reflexivity|]. cbn beta iota.
    split; [lia|]. exists l.
    split; [done|]. split; [done|]. split; [done|]. by left.
  - pose proof (ho_block _ _ _ _ _ _ _ Hho) as Hb.
    pose proof (ho_dList _ _ _ _ _ _ _ Hho) as Hd.
    pose proof (ho_cap _ _ _ _ _ _ _ Hho) as Hcap.
    assert (Hd0 : dList ≠ 0%N) by lia.
    rewrite (bind_run _ _ _ _ _ (loadList_run _ _ _ Hd0 Hb)).
    destruct (Z.eqb_spec (size l) (capacity l)) as [Hfull|Hroom].
    + destruct (dlistGrow_step m dList l n Hho Hlen Hsize ltac:(lia) Hn)
        as (d1 & m1 & Hgrow & Hpost).
      rewrite (bind_run _ _ _ _ _ Hgrow).
      destruct Hpost as [->|(l1 & Hho1 & Hlen1 & Hroom1)].
      * cbn [isNull N.eqb]. eexists _, _. split; [reflexivity|].
        cbn beta iota. split; [done|]. left. lia.
      * pose proof (ho_dList _ _ _ _ _ _ _ Hho1) as Hd1.
        rewrite isNull_false by lia.
        destruct (appendEntry_step m1 d1 l1 fi n Hho1 Hlen1 Hroom1 Hn)
          as ([d2 n2|res d2] & m2 & Happ & Hpost).
        -- exists (Continue d2 n2), m2. split; [exact Happ|].
           destruct Hpost as (-> & -> & l' & Hho' & Hsize' & Hlen' & Hcap').
           split; [lia|]. exists l'.
           split; [done|]. split; [done|]. split; [done|]. right. lia.
        -- exists (GotoBail res d2), m2. split; [exact Happ|].
           destruct Hpost as (-> & _). split; [done|]. left. lia.
    + rewrite (bind_run _ _ _ _ _ (ret_run dList m)).
      rewrite isNull_false by lia.
      destruct (appendEntry_step m dList l fi n Hho Hlen ltac:(lia) Hn)
        as ([d2 n2|res d2] & m2 & Happ & Hpost).
      * exists (Continue d2 n2), m2. split; [exact Happ|].
        destruct Hpost as (-> & -> & l' & Hho' & Hsize' & Hlen' & Hcap').
        split; [lia|]. exists l'.
        split; [done|]. split; [done|]. split; [done|]. by left.
      * exists (GotoBail res d2), m2. split; [exact Happ|].
        destruct Hpost as (-> & -> & l' & Hho' & Hsize').
        split; [done|]. right. exists l', (entries l). split; [done|]. lia.
Qed.

Lemma scanBatch_step filter batch : ∀ m dList l n,
  holding h0 brk0 fis m dList l (entries l) →
  Z.of_nat (length (entries l)) = n → size l = n →
  n + Z.of_nat (length batch) < 2 ^ 31 →
  ∃ r m', scanBatch fcram filter batch dList n m = (Value r, m') ∧
    match r with
    | Continue d n' =>
        n' = n + keptCount filter batch ∧
        ∃ l', holding h0 brk0 fis m' d l' (entries l') ∧ size l' = n' ∧
              Z.of_nat (length (entries l')) = n' ∧
              (capacity l' = capacity l ∨ capacity l < n + keptCount filter batch)
    | GotoBail res d =>
        res = RES_OUT_OF_MEM ∧
        (capacity l < n + keptCount filter batch ∨
         ∃ l' valid, holding h0 brk0 fis m' d l' valid ∧
                     size l' = Z.of_nat (length valid))
    end.
Proof.
  induction batch as [|fi batch IH]; intros m dList l n Hho Hlen Hsize Hn.
  - cbn [scanBatch]. eexists _, _. split; [reflexivity|]. cbn beta iota.
    unfold keptCount. cbn. split; [lia|]. exists l.
    split; [done|]. split; [done|]. split; [done|]. by left.
  - cbn [scanBatch]. cbn [length] in Hn. rewrite keptCount_cons.
    pose proof (keptCount_range filter [fi]) as Hk1. cbn [length] in Hk1.
    pose proof (keptCount_range filter batch) as Hk.
    destruct (scanEntry_step filter fi m dList l n Hho Hlen Hsize ltac:(lia))
      as ([d1 n1|res d1] & m1 & Hentry & Hpost).
    + rewrite (bind_run _ _ _ _ _ Hentry).
      destruct Hpost as (-> & l1 & Hho1 & Hsize1 & Hlen1 & Hcap1).
      destruct (IH m1 d1 l1 _ Hho1 Hlen1 Hsize1 ltac:(lia))
        as ([d2 n2|res d2] & m2 & Hrest & Hpost).
      * exists (Continue d2 n2), m2. split; [exact Hrest|].
        destruct Hpost as (-> & l2 & Hho2 & Hsize2 & Hlen2 & Hcap2).
        split; [lia|]. exists l2.
        split; [done|]. split; [done|]. split; [done|].
        destruct Hcap1 as [Hc1|Hc1], Hcap2 as [Hc2|Hc2];
          [left; lia | right; lia | right; lia | right; lia].
      * exists (GotoBail res d2), m2. split; [exact Hrest|].
        destruct Hpost as (-> & Hpost). split; [done|].
        destruct Hcap1 as [Hc1|Hc1], Hpost as [Hc2|Hc2];
          [left; lia | by right | left; lia | left; lia].
    + rewrite (bind_run _ _ _ _ _ Hentry).
      exists (GotoBail res d1), m1. split; [reflexivity|].
      destruct Hpost as (-> & Hpost). split; [done|].
      destruct Hpost as [Hc|Hc]; [left; lia | by right].
Qed.

Lemma readLoop_step filter answers : ∀ m dList l n,
  holding h0 brk0 fis m dList l (entries l) →
  Z.of_nat (length (entries l)) = n → size l = n →
  n + Z.of_nat (length (listing answers)) < 2 ^ 31 →
  ∃ r m', readLoop fcram filter answers dList n m = (Value r, m') ∧
    match r with
    | LoopEnd res d =>
        ∃ l', holding h0 brk0 fis m' d l' (entries l') ∧
              size l' = Z.of_nat (length (entries l')) ∧
              (capacity l' = capacity l
               ∨ capacity l < n + keptCount filter (listing answers))
    | LoopBail res d =>
        res = RES_OUT_OF_MEM ∧
        (capacity l < n + keptCount filter (listing answers) ∨
         ∃ l' valid, holding h0 brk0 fis m' d l' valid ∧
                     size l' = Z.of_nat (length valid))
    end.
Proof.
  induction answers as [|answer answers IH]; intros m dList l n Hho Hlen Hsize Hn.
  - cbn [readLoop]. eexists _, _. split; [reflexivity|]. cbn beta iota.
    exists l. split; [done|]. split; [lia|]. by left.
  - cbn [readLoop listing] in *.
    destruct (fReadDir answer DIR_READ_BLOCKS) as [res batch].
    destruct (decide (res = RES_OK)) as [Hres|Hres].
    2:{ rewrite bool_decide_eq_false_2 by done. cbn [negb].
        eexists _, _. split; [reflexivity|]. cbn beta iota.
        exists l. split; [done|]. split; [lia|]. by left. }
    rewrite bool_decide_eq_true_2 in Hn |- * by done. cbn [negb] in *.
    destruct batch as [|fi batch].
    + cbn [scanBatch]. rewrite (bind_run _ _ _ _ _ (ret_run _ m)).
      cbn [length Nat.eqb].
      eexists _, _. split; [reflexivity|]. cbn beta iota.
      exists l. split; [done|]. split; [lia|]. by left.
    + rewrite length_app in Hn. rewrite keptCount_app.
      pose proof (keptCount_range filter (fi :: batch)) as Hk1.
      pose proof (keptCount_range filter (listing answers)) as Hk.
      assert (Hb : n + Z.of_nat (length (fi :: batch)) < 2 ^ 31) by lia.
      destruct (scanBatch_step filter (fi :: batch) m dList l n Hho Hlen Hsize Hb)
        as ([d1 n1|res1 d1] & m1 & Hbatch & Hpost).
      * rewrite (bind_run _ _ _ _ _ Hbatch). cbn [length Nat.eqb].
        destruct Hpost as (-> & l1 & Hho1 & Hsize1 & Hlen1 & Hcap1).
        assert (Hrest : n + keptCount filter (fi :: batch)
                        + Z.of_nat (length (listing answers)) < 2 ^ 31) by lia.
        destruct (IH m1 d1 l1 _ Hho1 Hlen1 Hsize1 Hrest)
          as ([res2 d2|res2 d2] & m2 & Hloop & Hpost).
        -- exists (LoopEnd res2 d2), m2. split; [exact Hloop|].
           destruct Hpost as (l2 & Hho2 & Hsize2 & Hcap2).
           exists l2. split; [done|]. split; [done|].
           destruct Hcap1 as [Hc1|Hc1], Hcap2 as [Hc2|Hc2];
             [left; lia | right; lia | right; lia | right; lia].
        -- exists (LoopBail res2 d2), m2. split; [exact Hloop|].
           destruct Hpost as (-> & Hpost). split; [done|].
           destruct Hcap1 as [Hc1|Hc1], Hpost as [Hc2|Hc2];
             [left; lia | by right | left; lia | left; lia].
      * rewrite (bind_run _ _ _ _ _ Hbatch).
        exists (LoopBail res1 d1), m1. split; [reflexivity|].
        destruct Hpost as (-> & Hpost). split; [done|].
        destruct Hpost as [Hc|Hc]; [left; lia | by right].
Qed.
End ScanSteps.

(** ** Handing the list over, or giving everything back *)

Lemma holding_free_fis h0 brk0 fis m d l valid :
  holding h0 brk0 fis m d l valid →
  fcramFree fis m = (Value tt, dropBlock fis m) ∧
  held h0 brk0 (dropBlock fis m) d l valid.
Proof.
  intros [Hb Hv [Hf0 [b Hf]] Hd Hcap Hnames Hdup Hframe Hdom].
  rewrite Forall_forall in Hnames.
  split; [apply (fcramFree_run _ b); [lia | done]|].
  split; cbn [dropBlock heap].
  - rewrite lookup_delete_ne by lia. done.
  - done.
  - lia.
  - apply Forall_forall. intros e He. destruct (Hnames e He) as (? & ? & Hc).
    split; [lia|]. split; [done|]. rewrite <- Hc. apply isChars_lookup.
    rewrite lookup_delete_ne by lia. done.
  - done.
  - intros p Hp. rewrite lookup_delete_ne by lia. by apply Hframe.
  - intros p Hp. destruct (decide (p = fis)) as [->|Hne].
    + rewrite lookup_delete_eq. by intros [? [=]].
    + rewrite lookup_delete_ne by done. intros Hlive.
      destruct (Hdom p Hp Hlive) as [?|[?|?]]; [done | auto | auto].
Qed.

Lemma held_release h0 brk0 m d l valid :
  held h0 brk0 m d l valid → size l = Z.of_nat (length valid) →
  (∀ p, (brk0 < p)%N → h0 !! p = None) →
  dlistFree d m = (Value tt, dropBlock d (dropNames valid m)) ∧
  heap (dropBlock d (dropNames valid m)) = h0.
Proof.
  intros [Hb [rest Hv] Hd Hnames Hdup Hframe Hdom] Hsize Htidy.
  rewrite Forall_forall in Hnames.
  assert (Hd0 : d ≠ 0%N) by lia.
  assert (Hdnot : d ∉ name <$> valid).
  { intros Hin. apply list_elem_of_fmap in Hin as (e & -> & He).
    destruct (Hnames e He) as (? & ? & ?). done. }
  split.
  - assert (Hlive : Forall (λ e, name e ≠ 0%N ∧ is_Some (heap m !! name e)) valid).
    { apply Forall_forall. intros e He. destruct (Hnames e He) as (? & ? & ?).
      split; [lia | by apply isChars_live]. }
    assert (Hsz : size l = 0 + Z.of_nat (length valid)) by lia.
    unfold dlistFree.
    rewrite (bind_run _ _ _ _ _ (loadList_run _ _ _ Hd0 Hb)).
    rewrite Hv.
    rewrite (bind_run _ _ _ _ _
      (freeNames_run valid rest 0 (size l) m Hsz Hlive Hdup)).
    apply (fcramFree_run _ (Dlist l)); [done|].
    rewrite dropNames_heap. by rewrite bool_decide_eq_false_2.
  - apply map_eq. intros p. cbn [dropBlock heap].
    destruct (decide (p = d)) as [->|Hne].
    + rewrite lookup_delete_eq. symmetry. by apply Htidy.
    + rewrite lookup_delete_ne by done. rewrite dropNames_heap.
      case_bool_decide as Hin.
      * symmetry. apply Htidy.
        apply list_elem_of_fmap in Hin as (e & -> & He).
        by destruct (Hnames e He) as (? & ? & ?).
      * destruct (decide (p ≤ brk0)%N) as [Hle|Hgt]; [by apply Hframe|].
        rewrite Htidy by lia.
        destruct (heap m !! p) as [b|] eqn:Hp; [|done].
        destruct (Hdom p ltac:(lia) ltac:(by rewrite Hp)) as [?|?]; done.
Qed.

Lemma held_owns h0 brk0 m d l :
  held h0 brk0 m d l (entries l) → size l = Z.of_nat (length (entries l)) →
  owns m d l.
Proof.
  intros [Hb Hv Hd Hnames Hdup Hframe Hdom] Hsize.
  rewrite Forall_forall in Hnames. split.
  - done.
  - lia.
  - done.
  - apply Forall_forall. intros e He. destruct (Hnames e He) as (? & ? & ?).
    split; [lia | done].
  - apply NoDup_cons. split; [|done].
    intros Hin. apply list_elem_of_fmap in Hin as (e & -> & He).
    by destruct (Hnames e He) as (? & ? & ?).
Qed.

Lemma forallb_isChars h (slots : list DirEntry) :
  Forall (λ e, isChars h (name e) = true) slots →
  forallb (λ e, isChars h (name e)) slots = true.
Proof.
  induction 1 as [|e slots He _ IH]; [reflexivity|]. cbn. by rewrite He, IH.
Qed.

Lemma held_sort h0 brk0 m d l :
  held h0 brk0 m d l (entries l) → size l = Z.of_nat (length (entries l)) →
  ∃ l', sortList d m = (Value tt, putBlock d (Dlist l') m) ∧
        held h0 brk0 (putBlock d (Dlist l') m) d l' (entries l') ∧
        size l' = Z.of_nat (length (entries l')) ∧
        entries l' ≡ₚ entries l.
Proof.
  intros [Hb Hv Hd Hnames Hdup Hframe Hdom] Hsize.
  assert (Hd0 : d ≠ 0%N) by lia.
  set (sorted := merge_sort (inOrder (dlistCompare (heap m))) (entries l)).
  assert (Hperm : sorted ≡ₚ entries l) by apply merge_sort_Permutation.
  exists {| capacity := capacity l; size := size l; entries := sorted |}.
  split; [|split; [|split]].
  - unfold sortList.
    rewrite (bind_run _ _ _ _ _ (loadList_run _ _ _ Hd0 Hb)).
    destruct (Z.ltb_spec (Z.of_nat (length (entries l))) (size l)); [lia|].
    rewrite firstSlots_all by lia.
    rewrite forallb_isChars.
    2:{ eapply Forall_impl; [exact Hnames|]. cbn. by intros e (? & ? & ?). }
    rewrite andb_false_r. unfold storeList.
    rewrite (store_run _ _ _ _ Hd0 Hb). unfold qsort.
    rewrite firstSlots_all, drop_all, app_nil_r by lia. reflexivity.
  - rewrite Forall_forall in Hnames. split; cbn [putBlock heap entries].
    + by rewrite lookup_insert_eq.
    + done.
    + done.
    + apply Forall_forall. intros e He. rewrite Hperm in He.
      destruct (Hnames e He) as (? & ? & Hc).
      split; [done|]. split; [done|]. rewrite <- Hc. apply isChars_lookup.
      by rewrite lookup_insert_ne.
    + by rewrite Hperm.
    + intros p Hp. rewrite lookup_insert_ne by lia. by apply Hframe.
    + intros p Hp. destruct (decide (p = d)) as [->|Hne]; [auto|].
      rewrite lookup_insert_ne by done. intros Hlive.
      destruct (Hdom p Hp Hlive) as [?|?]; [auto|]. right. by rewrite Hperm.
  - cbn [size entries]. rewrite (Permutation_length Hperm). done.
  - done.
Qed.

Lemma dlistNew_run fcram m junk :
  fcram (requests m) = Some junk →
  ∃ m', dlistNew fcram m = (Value (N.succ (brk m)), m') ∧
        brk m' = N.succ (brk m) ∧
        heap m' =
          <[N.succ (brk m) :=
              Dlist {| capacity := DLIST_GROW_SIZE; size := 0; entries := [] |}]>
            (heap m) ∧
        requests m' = S (requests m).
Proof.
  intros Hf. unfold dlistNew.
  rewrite (bind_run _ _ _ _ _ (fcramAlloc_granted _ _ _ Hf)).
  set (p := N.succ (brk m)).
  assert (Hp0 : p ≠ 0%N) by lia.
  rewrite (isNull_false _ Hp0).
  set (m1 := asked _).
  assert (Hb1 : heap m1 !! p = Some (Raw junk)).
  { subst m1. by heap_lookup. }
  rewrite (bind_run _ _ _ _ _ (setCapacity_fresh _ _ _ _ Hp0 Hb1)).
  set (m2 := putBlock p _ m1).
  assert (Hb2 : heap m2 !! p = Some (Dlist
    {| capacity := DLIST_GROW_SIZE; size := u32 junk; entries := [] |})).
  { subst m2. by heap_lookup. }
  rewrite (bind_run _ _ _ _ _ (setSize_run _ _ _ _ Hp0 Hb2)).
  eexists. split; [reflexivity|]. cbn. split; [done|].
  split; [|done]. by rewrite !insert_insert_eq.
Qed.

Lemma dlistNew_refused fcram m :
  fcram (requests m) = None → dlistNew fcram m = (Value 0%N, asked m).
Proof.
  intros Hf. unfold dlistNew.
  by rewrite (bind_run _ _ _ _ _ (fcramAlloc_denied _ _ Hf)).
Qed.

(** What a scan into an empty slot comes to, case by case. *)
Lemma scanDir_outcomes fcram fs path filter m :
  tidy m →
  Z.of_nat (length (listing (read_results (fs path)))) < 2 ^ 31 →
  let run := scanDir fcram fs path filter (Some 0%N) m in
  (run.1 = Value (RES_OUT_OF_MEM, Some 0%N) ∧ heap run.2 = heap m) ∨
  (run.1 = Value (RES_OUT_OF_MEM, Some 0%N) ∧
   fcram (S (requests m)) = None ∧
   ∃ junk, fcram (requests m) = Some junk ∧
           heap run.2 = <[N.succ (brk m) := Raw junk]> (heap m)) ∨
  (∃ res d l, run.1 = Value (res, Some d) ∧ d ≠ 0%N ∧
              held (heap m) (brk m) run.2 d l (entries l) ∧
              size l = Z.of_nat (length (entries l))) ∨
  (DLIST_GROW_SIZE < keptCount filter (listing (read_results (fs path))) ∧
   ∀ res slot, run.1 = Value (res, slot) → slot = Some 0%N).
Proof.
  intros Htidy Hn run. subst run. unfold scanDir.
  cbn [isNull N.eqb negb].
  rewrite (bind_run _ _ _ _ _ (ret_run tt m)).
  destruct (fcram (requests m)) as [junk1|] eqn:Hf1.
  2:{ rewrite (bind_run _ _ _ _ _ (fcramAlloc_denied _ _ Hf1)).
      cbn [isNull N.eqb]. left. by split. }
  rewrite (bind_run _ _ _ _ _ (fcramAlloc_granted _ _ _ Hf1)).
  set (fis := N.succ (brk m)).
  rewrite isNull_false by lia.
  set (m1 := asked _).
  destruct (fcram (requests m1)) as [junk2|] eqn:Hf2.
  2:{ rewrite (bind_run _ _ _ _ _ (dlistNew_refused _ _ Hf2)).
      cbn [isNull N.eqb]. right. left. cbn.
      split; [done|]. split; [exact Hf2|]. by exists junk1. }
  destruct (dlistNew_run fcram m1 junk2 Hf2) as (m2 & Hnew & Hbrk2 & Hheap2 & _).
  rewrite (bind_run _ _ _ _ _ Hnew).
  set (dList := N.succ (brk m1)) in *.
  assert (HdList : dList = N.succ fis) by done.
  rewrite isNull_false by lia.
  pose (l0 := {| capacity := DLIST_GROW_SIZE; size := 0; entries := [] |}).
  assert (Hho : holding (heap m) (brk m) fis m2 dList l0 (entries l0)).
  { split; cbn [entries l0].
    - rewrite Hheap2. by rewrite lookup_insert_eq.
    - done.
    - split; [lia|]. rewrite Hheap2. rewrite lookup_insert_ne by lia.
      subst m1. heap_lookup. done.
    - lia.
    - cbn. unfold DLIST_GROW_SIZE. lia.
    - constructor.
    - constructor.
    - intros p Hp. rewrite Hheap2. rewrite lookup_insert_ne by lia.
      subst m1. cbn. rewrite lookup_insert_ne by lia. done.
    - intros p Hp. rewrite Hheap2.
      destruct (decide (p = dList)) as [->|Hpd]; [auto|].
      rewrite lookup_insert_ne by done. subst m1. cbn.
      destruct (decide (p = fis)) as [->|Hpf]; [auto|].
      rewrite lookup_insert_ne by done. rewrite Htidy by lia.
      by intros [? [=]]. }
  assert (Hexit : ∃ r m3,
    (if bool_decide (open_result (fs path) = RES_OK)
     then readLoop fcram filter (read_results (fs path)) dList 0
     else ret (LoopEnd (open_result (fs path)) dList)) m2 = (Value r, m3) ∧
    match r with
    | LoopEnd res d =>
        ∃ l', holding (heap m) (brk m) fis m3 d l' (entries l') ∧
              size l' = Z.of_nat (length (entries l'))
    | LoopBail res d =>
        res = RES_OUT_OF_MEM ∧
        (DLIST_GROW_SIZE < keptCount filter (listing (read_results (fs path))) ∨
         ∃ l' valid, holding (heap m) (brk m) fis m3 d l' valid ∧
                     size l' = Z.of_nat (length valid))
    end).
  { case_bool_decide.
    - destruct (readLoop_step fcram (heap m) (brk m) fis filter
                  (read_results (fs path)) m2 dList l0 0 Hho eq_refl eq_refl Hn)
        as ([res d|res d] & m3 & Hloop & Hpost).
      + exists (LoopEnd res d), m3. split; [done|].
        destruct Hpost as (l' & Hho' & Hsize' & _). by exists l'.
      + exists (LoopBail res d), m3. split; [done|].
        destruct Hpost as (-> & Hpost). split; [done|].
        destruct Hpost as [Hc|Hc]; [left; cbn in Hc; lia | by right].
    - eexists _, m2. split; [reflexivity|]. cbn beta iota. by exists l0. }
  destruct Hexit as ([res d|res d] & m3 & Hloop & Hpost).
  - rewrite (bind_run _ _ _ _ _ Hloop).
    destruct Hpost as (l' & Hho' & Hsize').
    destruct (holding_free_fis _ _ _ _ _ _ _ Hho') as [Hfree Hhe].
    rewrite (bind_run _ _ _ _ _ Hfree).
    destruct (held_sort _ _ _ _ _ Hhe Hsize') as (l'' & Hsort & Hhe' & Hsize'' & _).
    rewrite (bind_run _ _ _ _ _ Hsort).
    right. right. left. exists res, d, l''. cbn [fst snd ret].
    split; [done|]. split; [|by split].
    pose proof (ho_dList _ _ _ _ _ _ _ Hho'). lia.
  - rewrite (bind_run _ _ _ _ _ Hloop).
    destruct Hpost as (-> & [Hgrew|(l' & valid & Hho' & Hsize')]).
    + right. right. right. split; [done|].
      intros res slot Hrun. cbn [fst] in Hrun.
      destruct (bind _ _ m3) as [[[res' slot']|f] m'] eqn:Hrest in Hrun;
        [|discriminate].
      apply bind_value in Hrest as ([] & m4 & _ & Hrest).
      apply bind_value in Hrest as ([] & m5 & _ & Hrest).
      cbn in Hrun. injection Hrest as <- <- _. by injection Hrun as _ <-.
    + destruct (holding_free_fis _ _ _ _ _ _ _ Hho') as [Hfree Hhe].
      rewrite (bind_run _ _ _ _ _ Hfree).
      destruct (held_release _ _ _ _ _ _ Hhe Hsize' Htidy) as [Hrel Hheap].
      rewrite (bind_run _ _ _ _ _ Hrel).
      left. cbn [fst snd ret]. by split.
Qed.

(** X16: a list that [scanDir] stores into an empty slot, whatever result
    it reports with it, owns its names, and [dlistFree] of that list gives
    back exactly the heap the scan started from. *)
Theorem scanDir_list_released_restores_heap fcram fs path filter m res d m' :
  tidy m →
  Z.of_nat (length (listing (read_results (fs path)))) < 2 ^ 31 →
  d ≠ 0%N →
  scanDir fcram fs path filter (Some 0%N) m = (Value (res, Some d), m') →
  ∃ l, owns m' d l ∧
       dlistFree d m' = (Value tt, dropBlock d (dropNames (entries l) m')) ∧
       heap (dropBlock d (dropNames (entries l) m')) = heap m.
Proof.
  intros Htidy Hn Hd Hrun.
  pose proof (scanDir_outcomes fcram fs path filter m Htidy Hn) as Hcases.
  cbv zeta in Hcases. rewrite Hrun in Hcases. cbn [fst snd] in Hcases.
  destruct Hcases as [[Hv _]|[[Hv _]|[(res' & d' & l & Hv & _ & Hhe & Hsize)|[_ Hv]]]].
  - congruence.
  - congruence.
  - injection Hv as -> ->. exists l. split; [by eapply held_owns|].
    by eapply held_release.
  - specialize (Hv res (Some d) eq_refl). congruence.
Qed.

Lemma scanDir_list_released_restores_heap_witness :
  ∃ l,
    owns (scanDir generous (λ _, romDir) (cstr "sdmc:/") (cstr ".gba")
            (Some 0%N) mem0).2 2%N l ∧
    dlistFree 2%N
      (scanDir generous (λ _, romDir) (cstr "sdmc:/") (cstr ".gba")
         (Some 0%N) mem0).2 =
      (Value tt,
       dropBlock 2%N
         (dropNames (entries l)
            (scanDir generous (λ _, romDir) (cstr "sdmc:/") (cstr ".gba")
               (Some 0%N) mem0).2)) ∧
    heap (dropBlock 2%N
            (dropNames (entries l)
               (scanDir generous (λ _, romDir) (cstr "sdmc:/") (cstr ".gba")
                  (Some 0%N) mem0).2)) = heap mem0.
Proof.
  apply (scanDir_list_released_restores_heap generous (λ _, romDir)
           (cstr "sdmc:/") (cstr ".gba") mem0 RES_OK 2%N).
  - intros p _. apply lookup_empty.
  - vm_compute. reflexivity.
  - discriminate.
  - vm_compute. reflexivity.
Defined.

(** X17: on a directory of which at most [DLIST_GROW_SIZE] entries pass the
    filter, a scan into an empty slot runs without undefined behaviour; it
    either stores a list that owns its names, or reports out of memory with
    the slot still empty and the heap as it was, apart from the read buffer
    when it is the list itself that could not be had. *)
Theorem scanDir_small_directory fcram fs path filter m :
  tidy m →
  Z.of_nat (length (listing (read_results (fs path)))) < 2 ^ 31 →
  keptCount filter (listing (read_results (fs path))) ≤ DLIST_GROW_SIZE →
  ∃ res slot m',
    scanDir fcram fs path filter (Some 0%N) m = (Value (res, slot), m') ∧
    ((∃ d l, slot = Some d ∧ d ≠ 0%N ∧ owns m' d l) ∨
     (slot = Some 0%N ∧ res = RES_OUT_OF_MEM ∧
      (heap m' = heap m ∨
       fcram (S (requests m)) = None ∧
       ∃ junk, heap m' = <[N.succ (brk m) := Raw junk]> (heap m)))).
Proof.
  intros Htidy Hn Hsmall.
  pose proof (scanDir_outcomes fcram fs path filter m Htidy Hn) as Hcases.
  cbv zeta in Hcases.
  destruct (scanDir fcram fs path filter (Some 0%N) m) as [r m'].
  cbn [fst snd] in Hcases.
  destruct Hcases
    as [[-> Hh]|[(-> & Hf & junk & _ & Hh)|[(res & d & l & -> & Hd & Hhe & Hsize)|[Hbig _]]]].
  - exists RES_OUT_OF_MEM, (Some 0%N), m'. split; [done|]. right. auto.
  - exists RES_OUT_OF_MEM, (Some 0%N), m'. split; [done|]. right.
    split; [done|]. split; [done|]. right. split; [done|]. by exists junk.
  - exists res, (Some d), m'. split; [done|]. left. exists d, l.
    split; [done|]. split; [done|]. by eapply held_owns.
  - lia.
Qed.

Lemma scanDir_small_directory_witness :
  ∃ res slot m',
    scanDir (denyAt 1 7) (λ _, romDir) (cstr "sdmc:/") (cstr ".gba")
      (Some 0%N) mem0 = (Value (res, slot), m') ∧
    ((∃ d l, slot = Some d ∧ d ≠ 0%N ∧ owns m' d l) ∨
     (slot = Some 0%N ∧ res = RES_OUT_OF_MEM ∧
      (heap m' = heap mem0 ∨
       denyAt 1 7 (S (requests mem0)) = None ∧
       ∃ junk, heap m' = <[N.succ (brk mem0) := Raw junk]> (heap mem0)))).
Proof.
  apply (scanDir_small_directory (denyAt 1 7) (λ _, romDir) (cstr "sdmc:/")
           (cstr ".gba") mem0).
  - intros p _. apply lookup_empty.
  - vm_compute. reflexivity.
  - vm_compute. discriminate.
Defined.

(** X18: when the directory cannot be opened, a scan that got its two
    blocks still stores a list into the empty slot, next to the error it
    reports: a fresh list of capacity [DLIST_GROW_SIZE] with no entries,
    which the caller has to release. *)
Theorem scanDir_open_failure fcram fs path filter m junk1 junk2 :
  open_result (fs path) ≠ RES_OK →
  fcram (requests m) = Some junk1 →
  fcram (S (requests m)) = Some junk2 →
  ∃ m',
    scanDir fcram fs path filter (Some 0%N) m =
      (Value (open_result (fs path), Some (N.succ (N.succ (brk m)))), m') ∧
    heap m' !! N.succ (N.succ (brk m)) =
      Some (Dlist {| capacity := DLIST_GROW_SIZE; size := 0; entries := [] |}) ∧
    heap m' !! N.succ (brk m) = None ∧
    requests m' = S (S (requests m)).
Proof.
  intros Hopen Hf1 Hf2. unfold scanDir. cbn [isNull N.eqb negb].
  rewrite (bind_run _ _ _ _ _ (ret_run tt m)).
  rewrite (bind_run _ _ _ _ _ (fcramAlloc_granted _ _ _ Hf1)).
  set (fis := N.succ (brk m)).
  assert (Hfis0 : fis ≠ 0%N) by lia.
  assert (Hd0 : N.succ fis ≠ 0%N) by lia.
  rewrite (isNull_false _ Hfis0).
  set (m1 := asked _).
  destruct (dlistNew_run fcram m1 junk2 Hf2)
    as (m2 & Hnew & Hbrk2 & Hheap2 & Hreq2).
  rewrite (bind_run _ _ _ _ _ Hnew).
  change (N.succ (brk m1)) with (N.succ fis) in *.
  rewrite (isNull_false _ Hd0).
  rewrite bool_decide_eq_false_2 by done.
  rewrite (bind_run _ _ _ _ _ (ret_run _ m2)).
  assert (Hfis : heap m2 !! fis = Some (Raw junk1)).
  { rewrite Hheap2, lookup_insert_ne by lia. subst m1. by heap_lookup. }
  rewrite (bind_run _ _ _ _ _ (fcramFree_run _ _ _ Hfis0 Hfis)).
  assert (Hd : heap (dropBlock fis m2) !! N.succ fis =
               Some (Dlist {| capacity := DLIST_GROW_SIZE; size := 0;
                              entries := [] |})).
  { cbn. rewrite lookup_delete_ne by lia. rewrite Hheap2.
    by rewrite lookup_insert_eq. }
  assert (Hsort : sortList (N.succ fis) (dropBlock fis m2) =
                  (Value tt,
                   putBlock (N.succ fis)
                     (Dlist {| capacity := DLIST_GROW_SIZE; size := 0;
                               entries := [] |}) (dropBlock fis m2))).
  { unfold sortList.
    rewrite (bind_run _ _ _ _ _ (loadList_run _ _ _ Hd0 Hd)).
    cbn [size entries length firstSlots forallb Z.ltb Z.of_nat Z.compare
         Z.leb andb].
    unfold storeList. change (Z.of_nat 0 <? 0) with false. cbv iota.
    by rewrite (store_run _ _ _ _ Hd0 Hd). }
  rewrite (bind_run _ _ _ _ _ Hsort).
  eexists. split; [reflexivity|]. cbn [putBlock heap requests dropBlock].
  split; [by rewrite lookup_insert_eq|].
  split.
  - rewrite lookup_insert_ne by lia. by rewrite lookup_delete_eq.
  - rewrite Hreq2. reflexivity.
Qed.

Lemma scanDir_open_failure_witness :
  ∃ m',
    scanDir generous (λ _, missingDir) (cstr "sdmc:/roms") (cstr ".gba")
      (Some 0%N) mem0 =
      (Value (open_result missingDir, Some (N.succ (N.succ (brk mem0)))), m') ∧
    heap m' !! N.succ (N.succ (brk mem0)) =
      Some (Dlist {| capacity := DLIST_GROW_SIZE; size := 0; entries := [] |}) ∧
    heap m' !! N.succ (brk mem0) = None ∧
    requests m' = S (S (requests mem0)).
Proof.
  apply (scanDir_open_failure generous (λ _, missingDir) (cstr "sdmc:/roms")
           (cstr ".gba") mem0 0 0).
  - discriminate.
  - reflexivity.
  - reflexivity.
Defined.

(** ** Drawing the list *)

Lemma readString_chars h p n :
  p ≠ 0%N → isChars h p = true →
  readString h p n = Value (take n (nameAt h p)).
Proof.
  intros Hp Hc. unfold readString, isChars, nameAt in *.
  rewrite (isNull_false _ Hp).
  by destruct (h !! p) as [[]|].
Qed.

Lemma showRows_rows h l start :
  Forall (λ e, name e ≠ 0%N ∧ isChars h (name e) = true) (entries l) →
  ∀ rounds i,
    0 ≤ start ≤ i →
    i + Z.of_nat rounds ≤ Z.of_nat (length (entries l)) →
    Z.of_nat (length (entries l)) < 2 ^ 32 →
    showRows h l start rounds i =
      Value (imap (λ k e, rowOf h (i - start + 1 + Z.of_nat k) e)
               (take rounds (drop (Z.to_nat i) (entries l)))).
Proof.
  intros Hnames. rewrite Forall_forall in Hnames.
  induction rounds as [|rounds IH]; intros i Hi Hlen Hmax.
  - reflexivity.
  - cbn [showRows].
    destruct (lookup_lt_is_Some_2 (entries l) (Z.to_nat i)) as [e He]; [lia|].
    unfold slotAt. rewrite He. cbn [bindR].
    destruct (Hnames e) as [Hp Hc]; [by eapply list_elem_of_lookup_2|].
    rewrite (readString_chars _ _ _ Hp Hc). cbn [bindR].
    rewrite (u32_small (i + 1)) by lia.
    rewrite (u32_small (i - start + 1)) by lia.
    rewrite IH by lia. cbn [bindR].
    rewrite (drop_S _ _ _ He). cbn [take imap]. f_equal. f_equal.
    + unfold rowOf. f_equal. lia.
    + replace (Z.to_nat (i + 1)) with (S (Z.to_nat i)) by lia.
      apply imap_ext. intros k x _. cbn. unfold rowOf. f_equal. lia.
Qed.

Lemma listLength_inside l start :
  0 ≤ start ≤ size l → size l < 2 ^ 32 →
  Z.to_nat (listLength l start - start) =
    (Z.to_nat SCREEN_ROWS `min` Z.to_nat (size l - start))%nat.
Proof.
  intros Hs Hmax. unfold listLength, SCREEN_ROWS.
  rewrite (u32_small (size l - start)) by lia.
  destruct (Z.gtb_spec (size l - start) 24).
  - rewrite u32_small by lia. lia.
  - lia.
Qed.

Lemma showDirList_inside h l start :
  size l = Z.of_nat (length (entries l)) →
  Forall (λ e, name e ≠ 0%N ∧ isChars h (name e) = true) (entries l) →
  0 ≤ start ≤ size l → size l < 2 ^ 32 →
  showDirList h l start =
    Value (ClearScreen ::
           imap (λ k e, rowOf h (Z.of_nat k + 1) e)
             (take (Z.to_nat SCREEN_ROWS) (drop (Z.to_nat start) (entries l)))).
Proof.
  intros Hsize Hnames Hs Hmax. unfold showDirList.
  rewrite listLength_inside by done.
  rewrite (showRows_rows h l start Hnames) by (unfold SCREEN_ROWS; lia).
  cbn [bindR]. f_equal. f_equal.
  rewrite <- take_take.
  rewrite (take_ge (drop _ _) (Z.to_nat (size l - start)))
    by (rewrite length_drop; lia).
  apply imap_ext. intros k e _. cbn. f_equal. lia.
Qed.

(** X19: for a start inside the list [showDirList] clears the screen and
    prints the entries from [start] on, [SCREEN_ROWS] of them at most, on
    the lines 1, 2, ... in list order, each in the colour of its kind and
    with the first 52 characters of its name; for a start behind the end
    the unsigned difference [size - start] wraps, and the first row is read
    from a slot that holds no entry. *)
Theorem showDirList_rows h l start :
  size l = Z.of_nat (length (entries l)) →
  Forall (λ e, name e ≠ 0%N ∧ isChars h (name e) = true) (entries l) →
  size l < 2 ^ 31 →
  (0 ≤ start ≤ size l →
   showDirList h l start =
     Value (ClearScreen ::
            imap (λ k v, RowAt (Z.of_nat k + 1) (v.1 =? ENTRY_FILE) (take 52 v.2))
              (take (Z.to_nat SCREEN_ROWS)
                 (drop (Z.to_nat start) (listed h l))))) ∧
  (size l < start < 2 ^ 31 →
   showDirList h l start =
     Undefined (if start <? capacity l then UninitRead else OutOfBounds)).
Proof.
  intros Hsize Hnames Hmax. split.
  - intros Hs. rewrite showDirList_inside by (done || lia).
    f_equal. f_equal. unfold listed.
    rewrite firstSlots_all by lia.
    rewrite <- fmap_drop, <- fmap_take, imap_fmap.
    by apply imap_ext.
  - intros Hs. unfold showDirList, listLength, SCREEN_ROWS.
    rewrite (u32_neg (size l - start)) by lia.
    destruct (Z.gtb_spec (size l - start + 2 ^ 32) 24); [|lia].
    rewrite (u32_small (start + 24)) by lia.
    replace (Z.to_nat (start + 24 - start)) with 24%nat by lia.
    cbn [showRows]. unfold slotAt.
    rewrite lookup_ge_None_2 by lia. reflexivity.
Qed.

Lemma showDirList_rows_witness :
  showDirList (heap shelf) twoNames 0 =
    Value (ClearScreen ::
           imap (λ k v, RowAt (Z.of_nat k + 1) (v.1 =? ENTRY_FILE) (take 52 v.2))
             (take (Z.to_nat SCREEN_ROWS)
                (drop (Z.to_nat 0) (listed (heap shelf) twoNames)))) ∧
  showDirList (heap shelf) twoNames 5 =
    Undefined (if 5 <? capacity twoNames then UninitRead else OutOfBounds).
Proof.
  assert (Hnames : Forall (λ e, name e ≠ 0%N ∧ isChars (heap shelf) (name e) = true)
                     (entries twoNames)).
  { repeat constructor; vm_compute; congruence. }
  split.
  - apply (showDirList_rows (heap shelf) twoNames 0 eq_refl Hnames eq_refl).
    vm_compute. split; discriminate.
  - apply (showDirList_rows (heap shelf) twoNames 5 eq_refl Hnames eq_refl).
    vm_compute. split; reflexivity.
Defined.

Lemma navStep_window km kDown n c w :
  0 < n < 2 ^ 31 → 0 ≤ c < n → 0 ≤ w < 2 ^ 32 →
  let st := navStep km kDown n {| cursorPos := c; windowPos := w |} in
  0 ≤ windowPos st ∧ windowPos st ≤ cursorPos st ∧
  cursorPos st < windowPos st + SCREEN_ROWS ∧ cursorPos st < n.
Proof.
  intros Hn Hc Hw st.
  assert (Hc' : 0 ≤ cursorPos st < n).
  { subst st. unfold navStep. cbn [cursorPos windowPos].
    apply wrapCursor_range; [lia|]. apply moveCursor_range. lia. }
  assert (Hw' : windowPos st =
    (if cursorPos st <? w then cursorPos st
     else if cursorPos st >=? w + SCREEN_ROWS
          then cursorPos st - (SCREEN_ROWS - 1)
          else w)).
  { subst st. unfold navStep in *. cbn [cursorPos windowPos] in *.
    apply scrollWindow_spec; lia. }
  rewrite Hw'. unfold SCREEN_ROWS.
  destruct (Z.ltb_spec (cursorPos st) w),
    (Z.geb_spec (cursorPos st) (w + 24)); repeat split; lia.
Qed.

(** X20: after any pass of the navigation over a list that is not empty,
    drawing the list from the window position reads only entries of the
    list, and the line the cursor is drawn on is the line that shows the
    entry the cursor selects. *)
Theorem cursor_marks_selected_entry km kDown h l c w :
  size l = Z.of_nat (length (entries l)) →
  Forall (λ e, name e ≠ 0%N ∧ isChars h (name e) = true) (entries l) →
  0 < size l < 2 ^ 31 → 0 ≤ c < size l → 0 ≤ w < 2 ^ 32 →
  let st := navStep km kDown (size l) {| cursorPos := c; windowPos := w |} in
  ∃ rows e,
    showDirList h l (windowPos st) = Value (ClearScreen :: rows) ∧
    entries l !! Z.to_nat (cursorPos st) = Some e ∧
    1 ≤ cursorLine st ≤ SCREEN_ROWS ∧
    rows !! Z.to_nat (cursorLine st - 1) = Some (rowOf h (cursorLine st) e).
Proof.
  intros Hsize Hnames Hn Hc Hw st.
  destruct (navStep_window km kDown (size l) c w Hn Hc Hw)
    as (Hw0 & Hwc & Hcw & Hcn).
  fold st in Hw0, Hwc, Hcw, Hcn.
  destruct (lookup_lt_is_Some_2 (entries l) (Z.to_nat (cursorPos st)))
    as [e He]; [lia|].
  eexists _, e. split; [apply showDirList_inside; (done || lia)|].
  split; [done|].
  unfold cursorLine. rewrite u32_small by (unfold SCREEN_ROWS in *; lia).
  split; [lia|].
  rewrite list_lookup_imap, lookup_take_lt by (unfold SCREEN_ROWS in *; lia).
  rewrite lookup_drop.
  replace (Z.to_nat (windowPos st) +
           Z.to_nat (cursorPos st - windowPos st + 1 - 1))%nat
    with (Z.to_nat (cursorPos st)) by lia.
  rewrite He. cbn [fmap option_fmap option_map]. f_equal. unfold rowOf.
  f_equal. lia.
Qed.

Lemma cursor_marks_selected_entry_witness :
  let st := navStep pad 128 (size twoNames) {| cursorPos := 0; windowPos := 0 |} in
  ∃ rows e,
    showDirList (heap shelf) twoNames (windowPos st) = Value (ClearScreen :: rows) ∧
    entries twoNames !! Z.to_nat (cursorPos st) = Some e ∧
    1 ≤ cursorLine st ≤ SCREEN_ROWS ∧
    rows !! Z.to_nat (cursorLine st - 1) = Some (rowOf (heap shelf) (cursorLine st) e).
Proof.
  apply (cursor_marks_selected_entry pad 128 (heap shelf) twoNames 0 0).
  - reflexivity.
  - repeat constructor; vm_compute; congruence.
  - vm_compute. split; reflexivity.
  - vm_compute. split; [discriminate | reflexivity].
  - lia.
Defined.
